(** * GtkAccessibleValue: a shallow embedding of gtk/gtkaccessiblevalue.c

    The reference counted, class-dispatched container for accessible state
    and property values, its four dynamic kinds (integer, number, string,
    reference) and the two collection tables with their decoders.

    Conventions of the embedding:
    - a [GtkAccessibleValue *] is an optional address ([None] is [NULL]);
      dynamically allocated values live in a heap indexed by address;
    - a [GtkAccessible *] is an optional object identity; live objects are
      kept in an object table together with their registered weak
      references ([g_object_weak_ref]);
    - a C function is a computation over the program state that either
      returns or faults (failed [g_assert], undefined behaviour);
    - [g_return_if_fail] and [g_critical] append a diagnostic to the log and
      carry on, as GLib does by default;
    - a [const char *] is an optional string: the contents of the
      NUL-terminated buffer, [None] for [NULL];
    - a [double] is a binary64 primitive float. *)

From Stdlib Require Import ZArith String Floats Lia.
From stdpp Require Import base option list gmap strings pretty.

Local Open Scope Z_scope.

(** ** Addresses, classes, instances *)

Definition loc := positive.
Definition pointer := option loc.
Definition gobject := positive.
Definition gpointer := option gobject.

(** The address of one of the statically allocated class structures. *)
Inductive class_ptr :=
| addr_GTK_INT_ACCESSIBLE_VALUE
| addr_GTK_NUMBER_ACCESSIBLE_VALUE
| addr_GTK_STRING_ACCESSIBLE_VALUE
| addr_GTK_REFERENCE_ACCESSIBLE_VALUE.

Global Instance class_ptr_eq_dec : EqDecision class_ptr.
Proof. solve_decision. Defined.

(** The fields a subclass adds after the [GtkAccessibleValue] parent. *)
Inductive subclass_fields :=
| GtkIntAccessibleValue (value : Z)
| GtkNumberAccessibleValue (value : float)
| GtkStringAccessibleValue (value : option string) (length : Z)
| GtkReferenceAccessibleValue (ref : gpointer).

(** The range of a C [int]: 32 bits, two's complement. *)
Definition INT_MIN : Z := -2147483648.
Definition INT_MAX : Z := 2147483647.

(** What an [int] holds after [+= 1] or [-= 1] when the exact result is
    [z]: the result itself inside the range, and outside of it (where the
    C standard leaves the operation undefined) the value that the builds
    of GTK produce, which wrap around. *)
Definition int_wrap (z : Z) : Z := (z - INT_MIN) mod 2 ^ 32 + INT_MIN.

(** Modelled from the spec: the [GtkAccessibleValue] header struct is
    declared in gtkaccessiblevalueprivate.h, which is not among the sources;
    the spec gives it a class reference and a reference count that is an
    integer. The count is an [int]: the functions that change it keep it
    in the range of [int_wrap]. *)
Record GtkAccessibleValue := {
  value_class : class_ptr;
  ref_count : Z;
  fields : subclass_fields;
}.

(** A live [GObject]: its type name, whether it implements [GtkAccessible],
    and the data pointers of the [remove_weak_ref] notifications registered
    on it, oldest first. *)
Record GObject := {
  g_type_name : string;
  is_accessible : bool;
  weak_refs : list loc;
}.

Inductive event :=
| EvCritical (func expr : string)
| EvFinalize (self : loc)
| EvFree (self : loc).

Global Instance event_eq_dec : EqDecision event.
Proof. solve_decision. Defined.

Record state := {
  heap : gmap loc GtkAccessibleValue;
  objects : gmap gobject GObject;
  log : list event;
}.

Definition set_heap (h : gmap loc GtkAccessibleValue) (s : state) : state :=
  {| heap := h; objects := objects s; log := log s |}.
Definition set_objects (o : gmap gobject GObject) (s : state) : state :=
  {| heap := heap s; objects := o; log := log s |}.
Definition add_log (e : event) (s : state) : state :=
  {| heap := heap s; objects := objects s; log := log s ++ [e] |}.

(** ** Computations *)

Inductive fault := AssertionFailed | UndefinedBehaviour.

Inductive outcome (A : Type) :=
| Done (a : A) (s : state)
| Crash (f : fault).
Arguments Done {A} a s.
Arguments Crash {A} f.

Definition M (A : Type) : Type := state → outcome A.

Global Instance M_ret : MRet M := λ A a s, Done a s.
Global Instance M_bind : MBind M := λ A B f m s,
  match m s with
  | Done a s' => f a s'
  | Crash e => Crash e
  end.

Definition crash {A} (f : fault) : M A := λ _, Crash f.
Definition modify (f : state → state) : M unit := λ s, Done tt (f s).

Definition g_critical (func expr : string) : M unit :=
  modify (add_log (EvCritical func expr)).

(** [g_return_val_if_fail (cond, val)] in front of the rest [k] of a
    function body. *)
Definition g_return_val_if_fail {A} (cond : bool) (func expr : string)
    (val : A) (k : M A) : M A :=
  if cond then k else (g_critical func expr;; mret val).

(** [g_assert (cond)] in front of the rest of a function body. *)
Definition g_assert {A} (cond : bool) (k : M A) : M A :=
  if cond then k else crash AssertionFailed.

(** [*p] for a value pointer. *)
Definition deref (p : pointer) : M GtkAccessibleValue := λ s,
  match p with
  | Some l =>
      match heap s !! l with
      | Some v => Done v s
      | None => Crash UndefinedBehaviour
      end
  | None => Crash UndefinedBehaviour
  end.

(** [*p = v] for a pointer to a live value. *)
Definition assign (p : pointer) (v : GtkAccessibleValue) : M unit := λ s,
  match p with
  | Some l =>
      match heap s !! l with
      | Some _ => Done tt (set_heap (<[l:=v]> (heap s)) s)
      | None => Crash UndefinedBehaviour
      end
  | None => Crash UndefinedBehaviour
  end.

Definition set_fields (p : pointer) (f : subclass_fields) : M unit :=
  v ← deref p;
  assign p {| value_class := value_class v; ref_count := ref_count v; fields := f |}.

Definition set_ref_count (p : pointer) (n : Z) : M unit :=
  v ← deref p;
  assign p {| value_class := value_class v; ref_count := n; fields := fields v |}.

(** [g_malloc0 (instance_size)]: a block that is not in use, all zero.
    Read through the layout of the subclass the block is allocated for, a
    zeroed block has a zero number, a [NULL] string and a [NULL] reference.
    The block is typed by that class from the start: the assignment
    [res->value_class = value_class] of the allocator is part of
    [g_malloc0] here. *)
Definition zeroed (c : class_ptr) : subclass_fields :=
  match c with
  | addr_GTK_INT_ACCESSIBLE_VALUE => GtkIntAccessibleValue 0
  | addr_GTK_NUMBER_ACCESSIBLE_VALUE => GtkNumberAccessibleValue 0%float
  | addr_GTK_STRING_ACCESSIBLE_VALUE => GtkStringAccessibleValue None 0
  | addr_GTK_REFERENCE_ACCESSIBLE_VALUE => GtkReferenceAccessibleValue None
  end.

Definition g_malloc0 (c : class_ptr) : M loc := λ s,
  let l := fresh (dom (heap s)) in
  Done l (set_heap (<[l := {| value_class := c; ref_count := 0; fields := zeroed c |}]> (heap s)) s).

(** [g_free (self)] of a value. *)
Definition g_free (p : pointer) : M unit := λ s,
  match p with
  | Some l =>
      match heap s !! l with
      | Some _ => Done tt (add_log (EvFree l) (set_heap (delete l (heap s)) s))
      | None => Crash UndefinedBehaviour
      end
  | None => Done tt s
  end.

(** ** GLib: strings and weak references *)

(** [g_strdup (str)]: a copy with the same contents, [NULL] for [NULL]. *)
Definition g_strdup (str : option string) : option string := str.

(** [strlen (str)]; it reads through its argument. *)
Definition strlen (str : option string) : M Z :=
  match str with
  | Some s => mret (Z.of_nat (String.length s))
  | None => crash UndefinedBehaviour
  end.

(** [g_strcmp0]: [NULL] sorts before any string; the sign is what matters. *)
Definition g_strcmp0 (str1 str2 : option string) : Z :=
  match str1, str2 with
  | None, None => 0
  | None, Some _ => -1
  | Some _, None => 1
  | Some s1, Some s2 =>
      match String.compare s1 s2 with
      | Eq => 0
      | Lt => -1
      | Gt => 1
      end
  end.

(** [G_APPROX_VALUE (a, b, epsilon)] of gmacros.h:
    [(((a) > (b) ? (a) - (b) : (b) - (a)) < (epsilon))]. *)
Definition G_APPROX_VALUE (a b epsilon : float) : bool :=
  PrimFloat.ltb (if PrimFloat.ltb b a then PrimFloat.sub a b else PrimFloat.sub b a) epsilon.

(** The object behind a non-[NULL] object pointer; a pointer to a destroyed
    object must not be used. *)
Definition g_object (r : gpointer) : M GObject := λ s,
  match r with
  | Some o =>
      match objects s !! o with
      | Some ob => Done ob s
      | None => Crash UndefinedBehaviour
      end
  | None => Crash UndefinedBehaviour
  end.

(** [GTK_IS_ACCESSIBLE (ref)]: [FALSE] on [NULL]. *)
Definition GTK_IS_ACCESSIBLE (r : gpointer) : M bool :=
  match r with
  | None => mret false
  | Some _ => ob ← g_object r; mret (is_accessible ob)
  end.

Definition G_OBJECT_TYPE_NAME (r : gpointer) : M string :=
  ob ← g_object r; mret (g_type_name ob).

Definition set_weak_refs (o : gobject) (ob : GObject) (l : list loc) : M unit :=
  modify (λ s, set_objects
    (<[o := {| g_type_name := g_type_name ob; is_accessible := is_accessible ob;
               weak_refs := l |}]> (objects s)) s).

(** [g_object_weak_ref (object, remove_weak_ref, data)]. *)
Definition g_object_weak_ref (r : gpointer) (data : loc) : M unit :=
  ob ← g_object r;
  match r with
  | Some o => set_weak_refs o ob (weak_refs ob ++ [data])
  | None => crash UndefinedBehaviour
  end.

Fixpoint remove_first (data : loc) (l : list loc) : list loc :=
  match l with
  | [] => []
  | x :: l' => if decide (x = data) then l' else x :: remove_first data l'
  end.

(** [g_object_weak_unref (object, remove_weak_ref, data)]: drops the first
    matching registration and complains when there is none. The order of
    the registrations that stay is immaterial here, as each notification
    only clears the instance it was registered for. *)
Definition g_object_weak_unref (r : gpointer) (data : loc) : M unit :=
  ob ← g_object r;
  match r with
  | Some o =>
      if decide (data ∈ weak_refs ob)
      then set_weak_refs o ob (remove_first data (weak_refs ob))
      else g_critical "g_object_weak_unref" "couldn't find weak ref"
  | None => crash UndefinedBehaviour
  end.

(** A loop over a list, first element first. *)
Fixpoint for_each {A} (f : A → M unit) (l : list A) : M unit :=
  match l with
  | [] => mret tt
  | x :: l' => f x;; for_each f l'
  end.

(** The same call [n] times in a row. *)
Fixpoint repeatM (n : nat) (m : M unit) : M unit :=
  match n with
  | O => mret tt
  | S n' => m;; repeatM n' m
  end.

(** ** The value classes *)

Record GtkAccessibleValueClass := {
  type_name : string;
  instance_size : Z;
  init : option (pointer → M unit);
  finalize : option (pointer → M unit);
  print : option (pointer → string → M string);
  equal : option (pointer → pointer → M bool);
}.

(** Sizes as on an LP64 target: the parent is a pointer and an [int]. *)
Definition sizeof_GtkAccessibleValue : Z := 16.

(** Field reads through a cast to the subclass; the cast is only meaningful
    on an instance that has the subclass's layout. *)
Definition int_value (p : pointer) : M Z :=
  v ← deref p;
  match fields v with
  | GtkIntAccessibleValue x => mret x
  | _ => crash UndefinedBehaviour
  end.

Definition number_value (p : pointer) : M float :=
  v ← deref p;
  match fields v with
  | GtkNumberAccessibleValue x => mret x
  | _ => crash UndefinedBehaviour
  end.

Definition string_value (p : pointer) : M (option string) :=
  v ← deref p;
  match fields v with
  | GtkStringAccessibleValue x _ => mret x
  | _ => crash UndefinedBehaviour
  end.

Definition string_length (p : pointer) : M Z :=
  v ← deref p;
  match fields v with
  | GtkStringAccessibleValue _ n => mret n
  | _ => crash UndefinedBehaviour
  end.

Definition reference_ref (p : pointer) : M gpointer :=
  v ← deref p;
  match fields v with
  | GtkReferenceAccessibleValue r => mret r
  | _ => crash UndefinedBehaviour
  end.

(** Field writes through the same casts. *)
Definition set_int_value (p : pointer) (x : Z) : M unit :=
  _ ← int_value p; set_fields p (GtkIntAccessibleValue x).

Definition set_number_value (p : pointer) (x : float) : M unit :=
  _ ← number_value p; set_fields p (GtkNumberAccessibleValue x).

Definition set_string_value (p : pointer) (x : option string) : M unit :=
  n ← string_length p; set_fields p (GtkStringAccessibleValue x n).

Definition set_string_length (p : pointer) (n : Z) : M unit :=
  x ← string_value p; set_fields p (GtkStringAccessibleValue x n).

Definition set_reference_ref (p : pointer) (r : gpointer) : M unit :=
  _ ← reference_ref p; set_fields p (GtkReferenceAccessibleValue r).

(** ** Collection API *)

Inductive GtkAccessibleCollectType :=
| GTK_ACCESSIBLE_COLLECT_INVALID
| GTK_ACCESSIBLE_COLLECT_BOOLEAN
| GTK_ACCESSIBLE_COLLECT_INT
| GTK_ACCESSIBLE_COLLECT_TRISTATE
| GTK_ACCESSIBLE_COLLECT_ENUM
| GTK_ACCESSIBLE_COLLECT_NUMBER
| GTK_ACCESSIBLE_COLLECT_STRING
| GTK_ACCESSIBLE_COLLECT_REF.

(** The constructors the tables point to, as function addresses. *)
Inductive GCallback :=
| fn_gtk_boolean_accessible_value_new
| fn_gtk_checked_accessible_value_new
| fn_gtk_expanded_accessible_value_new
| fn_gtk_grabbed_accessible_value_new
| fn_gtk_invalid_accessible_value_new
| fn_gtk_pressed_accessible_value_new
| fn_gtk_selected_accessible_value_new
| fn_gtk_autocomplete_accessible_value_new
| fn_gtk_orientation_accessible_value_new
| fn_gtk_sort_accessible_value_new
| fn_gtk_int_accessible_value_new
| fn_gtk_number_accessible_value_new
| fn_gtk_string_accessible_value_new
| fn_gtk_reference_accessible_value_new.

Record GtkAccessibleCollect := {
  value : Z;
  ctype : GtkAccessibleCollectType;
  name : string;
  ctor : GCallback;
}.

(** Modelled from the spec: the enumerations [GtkAccessibleState] and
    [GtkAccessibleProperty] are declared in gtkenums.h, which is not among
    the sources. The tables are dense and indexed directly by the
    identifier, and the code switches on the [value] field of the row it
    finds there: an enumerator is the index of its row, counted from 0 in
    the order of the table. [GTK_ACCESSIBLE_STATE_NONE], which the state
    functions assert against, is reserved and has no row; it is the
    sentinel -1 before the first row. *)
Inductive GtkAccessibleState :=
| GTK_ACCESSIBLE_STATE_NONE
| GTK_ACCESSIBLE_STATE_BUSY
| GTK_ACCESSIBLE_STATE_CHECKED
| GTK_ACCESSIBLE_STATE_DISABLED
| GTK_ACCESSIBLE_STATE_EXPANDED
| GTK_ACCESSIBLE_STATE_GRABBED
| GTK_ACCESSIBLE_STATE_HIDDEN
| GTK_ACCESSIBLE_STATE_INVALID
| GTK_ACCESSIBLE_STATE_PRESSED
| GTK_ACCESSIBLE_STATE_SELECTED.

Global Instance GtkAccessibleState_eq_dec : EqDecision GtkAccessibleState.
Proof. solve_decision. Defined.

Definition state_int (st : GtkAccessibleState) : Z :=
  match st with
  | GTK_ACCESSIBLE_STATE_NONE => -1
  | GTK_ACCESSIBLE_STATE_BUSY => 0
  | GTK_ACCESSIBLE_STATE_CHECKED => 1
  | GTK_ACCESSIBLE_STATE_DISABLED => 2
  | GTK_ACCESSIBLE_STATE_EXPANDED => 3
  | GTK_ACCESSIBLE_STATE_GRABBED => 4
  | GTK_ACCESSIBLE_STATE_HIDDEN => 5
  | GTK_ACCESSIBLE_STATE_INVALID => 6
  | GTK_ACCESSIBLE_STATE_PRESSED => 7
  | GTK_ACCESSIBLE_STATE_SELECTED => 8
  end.

Inductive GtkAccessibleProperty :=
| GTK_ACCESSIBLE_PROPERTY_ACTIVE_DESCENDANT
| GTK_ACCESSIBLE_PROPERTY_AUTOCOMPLETE
| GTK_ACCESSIBLE_PROPERTY_CONTROLS
| GTK_ACCESSIBLE_PROPERTY_DESCRIBED_BY
| GTK_ACCESSIBLE_PROPERTY_FLOW_TO
| GTK_ACCESSIBLE_PROPERTY_HAS_POPUP
| GTK_ACCESSIBLE_PROPERTY_LABEL
| GTK_ACCESSIBLE_PROPERTY_LABELLED_BY
| GTK_ACCESSIBLE_PROPERTY_LEVEL
| GTK_ACCESSIBLE_PROPERTY_MULTI_LINE
| GTK_ACCESSIBLE_PROPERTY_MULTI_SELECTABLE
| GTK_ACCESSIBLE_PROPERTY_ORIENTATION
| GTK_ACCESSIBLE_PROPERTY_OWNS
| GTK_ACCESSIBLE_PROPERTY_POS_IN_SET
| GTK_ACCESSIBLE_PROPERTY_READ_ONLY
| GTK_ACCESSIBLE_PROPERTY_RELEVANT
| GTK_ACCESSIBLE_PROPERTY_REQUIRED
| GTK_ACCESSIBLE_PROPERTY_SET_SIZE
| GTK_ACCESSIBLE_PROPERTY_SORT
| GTK_ACCESSIBLE_PROPERTY_VALUE_MAX
| GTK_ACCESSIBLE_PROPERTY_VALUE_MIN
| GTK_ACCESSIBLE_PROPERTY_VALUE_NOW
| GTK_ACCESSIBLE_PROPERTY_VALUE_TEXT.

Global Instance GtkAccessibleProperty_eq_dec : EqDecision GtkAccessibleProperty.
Proof. solve_decision. Defined.

Definition property_int (p : GtkAccessibleProperty) : Z :=
  match p with
  | GTK_ACCESSIBLE_PROPERTY_ACTIVE_DESCENDANT => 0
  | GTK_ACCESSIBLE_PROPERTY_AUTOCOMPLETE => 1
  | GTK_ACCESSIBLE_PROPERTY_CONTROLS => 2
  | GTK_ACCESSIBLE_PROPERTY_DESCRIBED_BY => 3
  | GTK_ACCESSIBLE_PROPERTY_FLOW_TO => 4
  | GTK_ACCESSIBLE_PROPERTY_HAS_POPUP => 5
  | GTK_ACCESSIBLE_PROPERTY_LABEL => 6
  | GTK_ACCESSIBLE_PROPERTY_LABELLED_BY => 7
  | GTK_ACCESSIBLE_PROPERTY_LEVEL => 8
  | GTK_ACCESSIBLE_PROPERTY_MULTI_LINE => 9
  | GTK_ACCESSIBLE_PROPERTY_MULTI_SELECTABLE => 10
  | GTK_ACCESSIBLE_PROPERTY_ORIENTATION => 11
  | GTK_ACCESSIBLE_PROPERTY_OWNS => 12
  | GTK_ACCESSIBLE_PROPERTY_POS_IN_SET => 13
  | GTK_ACCESSIBLE_PROPERTY_READ_ONLY => 14
  | GTK_ACCESSIBLE_PROPERTY_RELEVANT => 15
  | GTK_ACCESSIBLE_PROPERTY_REQUIRED => 16
  | GTK_ACCESSIBLE_PROPERTY_SET_SIZE => 17
  | GTK_ACCESSIBLE_PROPERTY_SORT => 18
  | GTK_ACCESSIBLE_PROPERTY_VALUE_MAX => 19
  | GTK_ACCESSIBLE_PROPERTY_VALUE_MIN => 20
  | GTK_ACCESSIBLE_PROPERTY_VALUE_NOW => 21
  | GTK_ACCESSIBLE_PROPERTY_VALUE_TEXT => 22
  end.

Definition all_states : list GtkAccessibleState :=
  [ GTK_ACCESSIBLE_STATE_NONE; GTK_ACCESSIBLE_STATE_BUSY; GTK_ACCESSIBLE_STATE_CHECKED;
    GTK_ACCESSIBLE_STATE_DISABLED; GTK_ACCESSIBLE_STATE_EXPANDED;
    GTK_ACCESSIBLE_STATE_GRABBED; GTK_ACCESSIBLE_STATE_HIDDEN;
    GTK_ACCESSIBLE_STATE_INVALID; GTK_ACCESSIBLE_STATE_PRESSED;
    GTK_ACCESSIBLE_STATE_SELECTED ].

Definition all_properties : list GtkAccessibleProperty :=
  [ GTK_ACCESSIBLE_PROPERTY_ACTIVE_DESCENDANT; GTK_ACCESSIBLE_PROPERTY_AUTOCOMPLETE;
    GTK_ACCESSIBLE_PROPERTY_CONTROLS; GTK_ACCESSIBLE_PROPERTY_DESCRIBED_BY;
    GTK_ACCESSIBLE_PROPERTY_FLOW_TO; GTK_ACCESSIBLE_PROPERTY_HAS_POPUP;
    GTK_ACCESSIBLE_PROPERTY_LABEL; GTK_ACCESSIBLE_PROPERTY_LABELLED_BY;
    GTK_ACCESSIBLE_PROPERTY_LEVEL; GTK_ACCESSIBLE_PROPERTY_MULTI_LINE;
    GTK_ACCESSIBLE_PROPERTY_MULTI_SELECTABLE; GTK_ACCESSIBLE_PROPERTY_ORIENTATION;
    GTK_ACCESSIBLE_PROPERTY_OWNS; GTK_ACCESSIBLE_PROPERTY_POS_IN_SET;
    GTK_ACCESSIBLE_PROPERTY_READ_ONLY; GTK_ACCESSIBLE_PROPERTY_RELEVANT;
    GTK_ACCESSIBLE_PROPERTY_REQUIRED; GTK_ACCESSIBLE_PROPERTY_SET_SIZE;
    GTK_ACCESSIBLE_PROPERTY_SORT; GTK_ACCESSIBLE_PROPERTY_VALUE_MAX;
    GTK_ACCESSIBLE_PROPERTY_VALUE_MIN; GTK_ACCESSIBLE_PROPERTY_VALUE_NOW;
    GTK_ACCESSIBLE_PROPERTY_VALUE_TEXT ].

(** The enumerator an [int] stands for, as a [switch] on it finds it. *)
Definition state_of_int (z : Z) : option GtkAccessibleState :=
  find (λ st, bool_decide (state_int st = z)) all_states.
Definition property_of_int (z : Z) : option GtkAccessibleProperty :=
  find (λ p, bool_decide (property_int p = z)) all_properties.

Definition collect_states : list GtkAccessibleCollect := [
  {| value := state_int GTK_ACCESSIBLE_STATE_BUSY; ctype := GTK_ACCESSIBLE_COLLECT_BOOLEAN;
     name := "busy"; ctor := fn_gtk_boolean_accessible_value_new |};
  {| value := state_int GTK_ACCESSIBLE_STATE_CHECKED; ctype := GTK_ACCESSIBLE_COLLECT_ENUM;
     name := "checked"; ctor := fn_gtk_checked_accessible_value_new |};
  {| value := state_int GTK_ACCESSIBLE_STATE_DISABLED; ctype := GTK_ACCESSIBLE_COLLECT_BOOLEAN;
     name := "disabled"; ctor := fn_gtk_boolean_accessible_value_new |};
  {| value := state_int GTK_ACCESSIBLE_STATE_EXPANDED; ctype := GTK_ACCESSIBLE_COLLECT_TRISTATE;
     name := "expanded"; ctor := fn_gtk_expanded_accessible_value_new |};
  {| value := state_int GTK_ACCESSIBLE_STATE_GRABBED; ctype := GTK_ACCESSIBLE_COLLECT_TRISTATE;
     name := "grabbed"; ctor := fn_gtk_grabbed_accessible_value_new |};
  {| value := state_int GTK_ACCESSIBLE_STATE_HIDDEN; ctype := GTK_ACCESSIBLE_COLLECT_BOOLEAN;
     name := "hidden"; ctor := fn_gtk_boolean_accessible_value_new |};
  {| value := state_int GTK_ACCESSIBLE_STATE_INVALID; ctype := GTK_ACCESSIBLE_COLLECT_ENUM;
     name := "invalid"; ctor := fn_gtk_invalid_accessible_value_new |};
  {| value := state_int GTK_ACCESSIBLE_STATE_PRESSED; ctype := GTK_ACCESSIBLE_COLLECT_ENUM;
     name := "pressed"; ctor := fn_gtk_pressed_accessible_value_new |};
  {| value := state_int GTK_ACCESSIBLE_STATE_SELECTED; ctype := GTK_ACCESSIBLE_COLLECT_TRISTATE;
     name := "selected"; ctor := fn_gtk_selected_accessible_value_new |} ].

Definition collect_props : list GtkAccessibleCollect := [
  {| value := property_int GTK_ACCESSIBLE_PROPERTY_ACTIVE_DESCENDANT;
     ctype := GTK_ACCESSIBLE_COLLECT_REF; name := "activedescendant";
     ctor := fn_gtk_reference_accessible_value_new |};
  {| value := property_int GTK_ACCESSIBLE_PROPERTY_AUTOCOMPLETE;
     ctype := GTK_ACCESSIBLE_COLLECT_ENUM; name := "autocomplete";
     ctor := fn_gtk_autocomplete_accessible_value_new |};
  {| value := property_int GTK_ACCESSIBLE_PROPERTY_CONTROLS;
     ctype := GTK_ACCESSIBLE_COLLECT_REF; name := "controls";
     ctor := fn_gtk_reference_accessible_value_new |};
  {| value := property_int GTK_ACCESSIBLE_PROPERTY_DESCRIBED_BY;
     ctype := GTK_ACCESSIBLE_COLLECT_REF; name := "describedby";
     ctor := fn_gtk_reference_accessible_value_new |};
  {| value := property_int GTK_ACCESSIBLE_PROPERTY_FLOW_TO;
     ctype := GTK_ACCESSIBLE_COLLECT_REF; name := "flowto";
     ctor := fn_gtk_reference_accessible_value_new |};
  {| value := property_int GTK_ACCESSIBLE_PROPERTY_HAS_POPUP;
     ctype := GTK_ACCESSIBLE_COLLECT_BOOLEAN; name := "haspopup";
     ctor := fn_gtk_boolean_accessible_value_new |};
  {| value := property_int GTK_ACCESSIBLE_PROPERTY_LABEL;
     ctype := GTK_ACCESSIBLE_COLLECT_STRING; name := "label";
     ctor := fn_gtk_string_accessible_value_new |};
  {| value := property_int GTK_ACCESSIBLE_PROPERTY_LABELLED_BY;
     ctype := GTK_ACCESSIBLE_COLLECT_REF; name := "labelledby";
     ctor := fn_gtk_reference_accessible_value_new |};
  {| value := property_int GTK_ACCESSIBLE_PROPERTY_LEVEL;
     ctype := GTK_ACCESSIBLE_COLLECT_INT; name := "level";
     ctor := fn_gtk_int_accessible_value_new |};
  {| value := property_int GTK_ACCESSIBLE_PROPERTY_MULTI_LINE;
     ctype := GTK_ACCESSIBLE_COLLECT_BOOLEAN; name := "multiline";
     ctor := fn_gtk_boolean_accessible_value_new |};
  {| value := property_int GTK_ACCESSIBLE_PROPERTY_MULTI_SELECTABLE;
     ctype := GTK_ACCESSIBLE_COLLECT_BOOLEAN; name := "multiselectable";
     ctor := fn_gtk_boolean_accessible_value_new |};
  {| value := property_int GTK_ACCESSIBLE_PROPERTY_ORIENTATION;
     ctype := GTK_ACCESSIBLE_COLLECT_ENUM; name := "orientation";
     ctor := fn_gtk_orientation_accessible_value_new |};
  {| value := property_int GTK_ACCESSIBLE_PROPERTY_OWNS;
     ctype := GTK_ACCESSIBLE_COLLECT_REF; name := "owns";
     ctor := fn_gtk_reference_accessible_value_new |};
  {| value := property_int GTK_ACCESSIBLE_PROPERTY_POS_IN_SET;
     ctype := GTK_ACCESSIBLE_COLLECT_INT; name := "posinset";
     ctor := fn_gtk_int_accessible_value_new |};
  {| value := property_int GTK_ACCESSIBLE_PROPERTY_READ_ONLY;
     ctype := GTK_ACCESSIBLE_COLLECT_BOOLEAN; name := "readonly";
     ctor := fn_gtk_boolean_accessible_value_new |};
  {| value := property_int GTK_ACCESSIBLE_PROPERTY_RELEVANT;
     ctype := GTK_ACCESSIBLE_COLLECT_STRING; name := "relevant";
     ctor := fn_gtk_string_accessible_value_new |};
  {| value := property_int GTK_ACCESSIBLE_PROPERTY_REQUIRED;
     ctype := GTK_ACCESSIBLE_COLLECT_BOOLEAN; name := "required";
     ctor := fn_gtk_boolean_accessible_value_new |};
  {| value := property_int GTK_ACCESSIBLE_PROPERTY_SET_SIZE;
     ctype := GTK_ACCESSIBLE_COLLECT_INT; name := "setsize";
     ctor := fn_gtk_int_accessible_value_new |};
  {| value := property_int GTK_ACCESSIBLE_PROPERTY_SORT;
     ctype := GTK_ACCESSIBLE_COLLECT_ENUM; name := "sort";
     ctor := fn_gtk_sort_accessible_value_new |};
  {| value := property_int GTK_ACCESSIBLE_PROPERTY_VALUE_MAX;
     ctype := GTK_ACCESSIBLE_COLLECT_NUMBER; name := "valuemax";
     ctor := fn_gtk_number_accessible_value_new |};
  {| value := property_int GTK_ACCESSIBLE_PROPERTY_VALUE_MIN;
     ctype := GTK_ACCESSIBLE_COLLECT_NUMBER; name := "valuemin";
     ctor := fn_gtk_number_accessible_value_new |};
  {| value := property_int GTK_ACCESSIBLE_PROPERTY_VALUE_NOW;
     ctype := GTK_ACCESSIBLE_COLLECT_NUMBER; name := "valuenow";
     ctor := fn_gtk_number_accessible_value_new |};
  {| value := property_int GTK_ACCESSIBLE_PROPERTY_VALUE_TEXT;
     ctype := GTK_ACCESSIBLE_COLLECT_STRING; name := "valuetext";
     ctor := fn_gtk_string_accessible_value_new |} ].

(** [&table[index]]; the index must be inside the table. *)
Definition table_row (table : list GtkAccessibleCollect) (index : Z)
    : M GtkAccessibleCollect :=
  if index <? 0 then crash UndefinedBehaviour
  else
    match table !! Z.to_nat index with
    | Some row => mret row
    | None => crash UndefinedBehaviour
    end.

(** What the C library prints for ["%g"] and for ["%p"]. *)
Class Printf := {
  printf_g : float → string;
  printf_p : gobject → string;
}.

(** Modelled from the spec: the constructors of the hard-coded kinds
    (boolean, tristate, token) are defined in gtkaccessiblevaluestatic.c,
    which is not among the sources. They hand out statically allocated
    instances that GTK owns and that exist for the life time of the
    application: [static_instance] is the address of the instance that
    stands for the argument of a constructor ([NULL] where the constructor
    rejects it). These instances are not part of the heap of dynamic values
    and their reference counts are not tracked. The other fields are the
    enumerators of gtkenums.h that the defaults name. *)
Class HardCoded := {
  static_instance : GCallback → Z → pointer;
  GTK_ACCESSIBLE_CHECKED_UNDEFINED : Z;
  GTK_ACCESSIBLE_STATE_UNDEFINED : Z;
  GTK_ACCESSIBLE_INVALID_FALSE : Z;
  GTK_ACCESSIBLE_PRESSED_UNDEFINED : Z;
  GTK_ACCESSIBLE_AUTOCOMPLETE_NONE : Z;
  GTK_ORIENTATION_HORIZONTAL : Z;
  GTK_ACCESSIBLE_SORT_NONE : Z;
}.

Section AccessibleValue.

Context {libc : Printf} {gtk_static : HardCoded}.

(** *** Integers *)

Definition gtk_int_accessible_value_equal (value_a value_b : pointer) : M bool :=
  a ← int_value value_a;
  b ← int_value value_b;
  mret (a =? b).

Definition gtk_int_accessible_value_print (value : pointer) (buffer : string) : M string :=
  x ← int_value value;
  mret (buffer +:+ pretty x).

Definition GTK_INT_ACCESSIBLE_VALUE : GtkAccessibleValueClass := {|
  type_name := "GtkIntAccessibleValue";
  instance_size := 24;
  init := None;
  finalize := None;
  print := Some gtk_int_accessible_value_print;
  equal := Some gtk_int_accessible_value_equal;
|}.

(** *** Numbers *)

(** The literal [0.001]: the binary64 value nearest to it. *)
#[warnings="-inexact-float"]
Definition tolerance : float := 0.001%float.

Definition gtk_number_accessible_value_equal (value_a value_b : pointer) : M bool :=
  a ← number_value value_a;
  b ← number_value value_b;
  mret (G_APPROX_VALUE a b tolerance).

Definition gtk_number_accessible_value_print (value : pointer) (buffer : string) : M string :=
  x ← number_value value;
  mret (buffer +:+ printf_g x).

Definition GTK_NUMBER_ACCESSIBLE_VALUE : GtkAccessibleValueClass := {|
  type_name := "GtkNumberAccessibleValue";
  instance_size := 24;
  init := None;
  finalize := None;
  print := Some gtk_number_accessible_value_print;
  equal := Some gtk_number_accessible_value_equal;
|}.

(** *** Strings *)

(** [g_free (self->value)]: the copy is owned by the instance and goes with
    it; the field is read. *)
Definition gtk_string_accessible_value_finalize (value : pointer) : M unit :=
  _ ← string_value value; mret tt.

Definition gtk_string_accessible_value_equal (value_a value_b : pointer) : M bool :=
  la ← string_length value_a;
  lb ← string_length value_b;
  if negb (la =? lb) then mret false
  else
    a ← string_value value_a;
    b ← string_value value_b;
    mret (g_strcmp0 a b =? 0).

(** [g_string_append (buffer, self->value)]; on a [NULL] value GLib
    complains and leaves the buffer as it is. *)
Definition gtk_string_accessible_value_print (value : pointer) (buffer : string) : M string :=
  x ← string_value value;
  match x with
  | Some s => mret (buffer +:+ s)
  | None => g_critical "g_string_append" "val != NULL";; mret buffer
  end.

Definition GTK_STRING_ACCESSIBLE_VALUE : GtkAccessibleValueClass := {|
  type_name := "GtkStringAccessibleValue";
  instance_size := 32;
  init := None;
  finalize := Some gtk_string_accessible_value_finalize;
  print := Some gtk_string_accessible_value_print;
  equal := Some gtk_string_accessible_value_equal;
|}.

(** *** References *)

Definition remove_weak_ref (data : loc) (old_reference : gobject) : M unit :=
  set_reference_ref (Some data) None.

Definition gtk_reference_accessible_value_finalize (value : pointer) : M unit :=
  r ← reference_ref value;
  match r, value with
  | Some _, Some self => g_object_weak_unref r self
  | Some _, None => crash UndefinedBehaviour
  | None, _ => mret tt
  end.

Definition gtk_reference_accessible_value_equal (value_a value_b : pointer) : M bool :=
  a ← reference_ref value_a;
  b ← reference_ref value_b;
  mret (bool_decide (a = b)).

Definition gtk_reference_accessible_value_print (value : pointer) (buffer : string) : M string :=
  r ← reference_ref value;
  match r with
  | Some o =>
      name ← G_OBJECT_TYPE_NAME r;
      mret (buffer +:+ name +:+ "<" +:+ printf_p o +:+ ">")
  | None => mret (buffer +:+ "<null>")
  end.

Definition GTK_REFERENCE_ACCESSIBLE_VALUE : GtkAccessibleValueClass := {|
  type_name := "GtkReferenceAccessibleValue";
  instance_size := 24;
  init := None;
  finalize := Some gtk_reference_accessible_value_finalize;
  print := Some gtk_reference_accessible_value_print;
  equal := Some gtk_reference_accessible_value_equal;
|}.

(** [*value_class] for the address of a class structure. *)
Definition class_at (c : class_ptr) : GtkAccessibleValueClass :=
  match c with
  | addr_GTK_INT_ACCESSIBLE_VALUE => GTK_INT_ACCESSIBLE_VALUE
  | addr_GTK_NUMBER_ACCESSIBLE_VALUE => GTK_NUMBER_ACCESSIBLE_VALUE
  | addr_GTK_STRING_ACCESSIBLE_VALUE => GTK_STRING_ACCESSIBLE_VALUE
  | addr_GTK_REFERENCE_ACCESSIBLE_VALUE => GTK_REFERENCE_ACCESSIBLE_VALUE
  end.

(** ** The container *)

Definition gtk_accessible_value_alloc (value_class : option class_ptr) : M pointer :=
  g_return_val_if_fail (bool_decide (value_class ≠ None))
    "gtk_accessible_value_alloc" "value_class != NULL" None
    match value_class with
    | None => crash UndefinedBehaviour
    | Some c =>
        g_return_val_if_fail (sizeof_GtkAccessibleValue <=? instance_size (class_at c))
          "gtk_accessible_value_alloc"
          "value_class->instance_size >= sizeof (GtkAccessibleValue)" None
          (l ← g_malloc0 c;
           let res := Some l in
           set_ref_count res 1;;
           match init (class_at c) with
           | Some f => f res
           | None => mret tt
           end;;
           mret res)
    end.

Definition gtk_accessible_value_ref (self : pointer) : M pointer :=
  g_return_val_if_fail (bool_decide (self ≠ None))
    "gtk_accessible_value_ref" "self != NULL" None
    (v ← deref self;
     set_ref_count self (int_wrap (ref_count v + 1));;
     mret self).

Definition gtk_accessible_value_unref (self : pointer) : M unit :=
  g_return_val_if_fail (bool_decide (self ≠ None))
    "gtk_accessible_value_unref" "self != NULL" tt
    (v ← deref self;
     set_ref_count self (int_wrap (ref_count v - 1));;
     v ← deref self;
     if ref_count v =? 0 then
       match finalize (class_at (value_class v)), self with
       | Some f, Some l => modify (add_log (EvFinalize l));; f self
       | _, _ => mret tt
       end;;
       g_free self
     else mret tt).

(** The buffer is a [GString *]: [None] is [NULL], and the contents after
    the call are returned. *)
Definition gtk_accessible_value_print (self : pointer) (buffer : option string)
    : M (option string) :=
  g_return_val_if_fail (bool_decide (self ≠ None))
    "gtk_accessible_value_print" "self != NULL" buffer
    (g_return_val_if_fail (bool_decide (buffer ≠ None))
       "gtk_accessible_value_print" "buffer != NULL" buffer
       (v ← deref self;
        match print (class_at (value_class v)), buffer with
        | Some f, Some b => b' ← f self b; mret (Some b')
        | _, _ => mret buffer
        end)).

Definition gtk_accessible_value_to_string (self : pointer) : M (option string) :=
  g_return_val_if_fail (bool_decide (self ≠ None))
    "gtk_accessible_value_to_string" "self != NULL" None
    (let buffer := Some ""%string in
     gtk_accessible_value_print self buffer).

Definition gtk_accessible_value_equal (value_a value_b : pointer) : M bool :=
  if bool_decide (value_a = value_b) then mret true
  else if bool_decide (value_a = None) || bool_decide (value_b = None) then mret false
  else
    v ← deref value_a;
    match equal (class_at (value_class v)) with
    | Some f => f value_a value_b
    | None => crash UndefinedBehaviour
    end.

(** ** Constructors and accessors of the basic types *)

Definition gtk_int_accessible_value_new (value : Z) : M pointer :=
  res ← gtk_accessible_value_alloc (Some addr_GTK_INT_ACCESSIBLE_VALUE);
  set_int_value res value;;
  mret res.

Definition gtk_int_accessible_value_get (value : pointer) : M Z :=
  g_return_val_if_fail (bool_decide (value ≠ None))
    "gtk_int_accessible_value_get" "value != NULL" 0
    (v ← deref value;
     g_return_val_if_fail (bool_decide (value_class v = addr_GTK_INT_ACCESSIBLE_VALUE))
       "gtk_int_accessible_value_get" "value->value_class == &GTK_INT_ACCESSIBLE_VALUE" 0
       (int_value value)).

Definition gtk_number_accessible_value_new (value : float) : M pointer :=
  res ← gtk_accessible_value_alloc (Some addr_GTK_NUMBER_ACCESSIBLE_VALUE);
  set_number_value res value;;
  mret res.

Definition gtk_number_accessible_value_get (value : pointer) : M float :=
  g_return_val_if_fail (bool_decide (value ≠ None))
    "gtk_number_accessible_value_get" "value != NULL" 0%float
    (v ← deref value;
     g_return_val_if_fail (bool_decide (value_class v = addr_GTK_NUMBER_ACCESSIBLE_VALUE))
       "gtk_number_accessible_value_get" "value->value_class == &GTK_NUMBER_ACCESSIBLE_VALUE"
       0%float
       (number_value value)).

Definition gtk_string_accessible_value_new (str : option string) : M pointer :=
  res ← gtk_accessible_value_alloc (Some addr_GTK_STRING_ACCESSIBLE_VALUE);
  set_string_value res (g_strdup str);;
  n ← strlen str;
  set_string_length res n;;
  mret res.

Definition gtk_string_accessible_value_get (value : pointer) : M (option string) :=
  g_return_val_if_fail (bool_decide (value ≠ None))
    "gtk_string_accessible_value_get" "value != NULL" None
    (v ← deref value;
     g_return_val_if_fail (bool_decide (value_class v = addr_GTK_STRING_ACCESSIBLE_VALUE))
       "gtk_string_accessible_value_get" "value->value_class == &GTK_STRING_ACCESSIBLE_VALUE"
       None
       (string_value value)).

Definition gtk_reference_accessible_value_new (ref : gpointer) : M pointer :=
  ok ← GTK_IS_ACCESSIBLE ref;
  g_return_val_if_fail ok
    "gtk_reference_accessible_value_new" "GTK_IS_ACCESSIBLE (ref)" None
    (res ← gtk_accessible_value_alloc (Some addr_GTK_REFERENCE_ACCESSIBLE_VALUE);
     set_reference_ref res ref;;
     match res with
     | Some self => g_object_weak_ref ref self
     | None => crash UndefinedBehaviour
     end;;
     mret res).

Definition gtk_reference_accessible_value_get (value : pointer) : M gpointer :=
  g_return_val_if_fail (bool_decide (value ≠ None))
    "gtk_reference_accessible_value_get" "value != NULL" None
    (v ← deref value;
     g_return_val_if_fail (bool_decide (value_class v = addr_GTK_REFERENCE_ACCESSIBLE_VALUE))
       "gtk_reference_accessible_value_get"
       "value->value_class == &GTK_REFERENCE_ACCESSIBLE_VALUE" None
       (reference_ref value)).

(** The last reference to an object goes away: the registered
    [remove_weak_ref] notifications run, oldest first, and the object is
    gone. *)
Definition g_object_destroy (o : gobject) : M unit :=
  ob ← g_object (Some o);
  modify (λ s, set_objects (delete o (objects s)) s);;
  for_each (λ data, remove_weak_ref data o) (weak_refs ob).

(** ** The hard-coded kinds *)

(** A constructor of a hard-coded kind returns the static instance that
    stands for its argument (see [HardCoded]). *)
Definition hard_coded_new (f : GCallback) (v : Z) : M pointer :=
  mret (static_instance f v).

Definition gtk_boolean_accessible_value_new := hard_coded_new fn_gtk_boolean_accessible_value_new.
Definition gtk_checked_accessible_value_new := hard_coded_new fn_gtk_checked_accessible_value_new.
Definition gtk_expanded_accessible_value_new := hard_coded_new fn_gtk_expanded_accessible_value_new.
Definition gtk_grabbed_accessible_value_new := hard_coded_new fn_gtk_grabbed_accessible_value_new.
Definition gtk_invalid_accessible_value_new := hard_coded_new fn_gtk_invalid_accessible_value_new.
Definition gtk_pressed_accessible_value_new := hard_coded_new fn_gtk_pressed_accessible_value_new.
Definition gtk_selected_accessible_value_new := hard_coded_new fn_gtk_selected_accessible_value_new.
Definition gtk_autocomplete_accessible_value_new :=
  hard_coded_new fn_gtk_autocomplete_accessible_value_new.
Definition gtk_orientation_accessible_value_new :=
  hard_coded_new fn_gtk_orientation_accessible_value_new.
Definition gtk_sort_accessible_value_new := hard_coded_new fn_gtk_sort_accessible_value_new.

(** [FALSE] of [gboolean], which is an [int]. *)
Definition FALSE : Z := 0.

(** ** Calls through the constructor types *)

(** The call [ctor (value)] through a constructor type that takes an [int]
    ([gboolean], [int], an enumeration). A call through a pointer to an
    incompatible function type is undefined. *)
Definition call_int_ctor (f : GCallback) (v : Z) : M pointer :=
  match f with
  | fn_gtk_int_accessible_value_new => gtk_int_accessible_value_new v
  | fn_gtk_number_accessible_value_new
  | fn_gtk_string_accessible_value_new
  | fn_gtk_reference_accessible_value_new => crash UndefinedBehaviour
  | _ => hard_coded_new f v
  end.

(** The call [ctor (value)] through [GtkAccessibleValueNumberCtor]. *)
Definition call_number_ctor (f : GCallback) (v : float) : M pointer :=
  match f with
  | fn_gtk_number_accessible_value_new => gtk_number_accessible_value_new v
  | _ => crash UndefinedBehaviour
  end.

(** The call [ctor (value)] through [GtkAccessibleValueStringCtor] on a
    [const char *]. *)
Definition call_string_ctor (f : GCallback) (v : option string) : M pointer :=
  match f with
  | fn_gtk_string_accessible_value_new => gtk_string_accessible_value_new v
  | _ => crash UndefinedBehaviour
  end.

(** The call [ctor (value)] on a [gpointer]; the source goes through
    [GtkAccessibleValueStringCtor] here as well, a type with one pointer
    argument like [GtkAccessibleValueRefCtor]. *)
Definition call_ref_ctor (f : GCallback) (v : gpointer) : M pointer :=
  match f with
  | fn_gtk_reference_accessible_value_new => gtk_reference_accessible_value_new v
  | _ => crash UndefinedBehaviour
  end.

(** *** Argument sources *)

(** One variadic argument after the default promotions. *)
Inductive va_item :=
| va_int (v : Z)
| va_double (v : float)
| va_string (v : option string)
| va_pointer (v : gpointer).

Definition va_list := list va_item.

(** [va_arg] on the argument list: the next argument, which must have the type
    asked for; the list moves on. *)
Definition va_arg_int (args : va_list) : M (Z * va_list) :=
  match args with
  | va_int v :: rest => mret (v, rest)
  | _ => crash UndefinedBehaviour
  end.
Definition va_arg_double (args : va_list) : M (float * va_list) :=
  match args with
  | va_double v :: rest => mret (v, rest)
  | _ => crash UndefinedBehaviour
  end.
Definition va_arg_string (args : va_list) : M (option string * va_list) :=
  match args with
  | va_string v :: rest => mret (v, rest)
  | _ => crash UndefinedBehaviour
  end.
Definition va_arg_pointer (args : va_list) : M (gpointer * va_list) :=
  match args with
  | va_pointer v :: rest => mret (v, rest)
  | _ => crash UndefinedBehaviour
  end.

(** An initialised [GValue]: its type and contents. *)
Inductive GValue :=
| G_TYPE_BOOLEAN (v : Z)
| G_TYPE_INT (v : Z)
| G_TYPE_ENUM (v : Z)
| G_TYPE_DOUBLE (v : float)
| G_TYPE_STRING (v : option string)
| G_TYPE_OBJECT (v : gpointer).

(** The [g_value_get_*] accessors: on a value of another type they
    complain and return zero. *)
Definition g_value_get_boolean (v : GValue) : M Z :=
  match v with
  | G_TYPE_BOOLEAN b => mret b
  | _ => g_critical "g_value_get_boolean" "G_VALUE_HOLDS_BOOLEAN (value)";; mret 0
  end.
Definition g_value_get_int (v : GValue) : M Z :=
  match v with
  | G_TYPE_INT i => mret i
  | _ => g_critical "g_value_get_int" "G_VALUE_HOLDS_INT (value)";; mret 0
  end.
Definition g_value_get_enum (v : GValue) : M Z :=
  match v with
  | G_TYPE_ENUM i => mret i
  | _ => g_critical "g_value_get_enum" "G_VALUE_HOLDS_ENUM (value)";; mret 0
  end.
Definition g_value_get_double (v : GValue) : M float :=
  match v with
  | G_TYPE_DOUBLE d => mret d
  | _ => g_critical "g_value_get_double" "G_VALUE_HOLDS_DOUBLE (value)";; mret 0%float
  end.
Definition g_value_get_string (v : GValue) : M (option string) :=
  match v with
  | G_TYPE_STRING s => mret s
  | _ => g_critical "g_value_get_string" "G_VALUE_HOLDS_STRING (value)";; mret None
  end.
Definition g_value_get_object (v : GValue) : M gpointer :=
  match v with
  | G_TYPE_OBJECT o => mret o
  | _ => g_critical "g_value_get_object" "G_VALUE_HOLDS_OBJECT (value)";; mret None
  end.

(** *** States *)

Definition gtk_accessible_value_get_default_for_state (state : GtkAccessibleState)
    : M pointer :=
  g_assert (bool_decide (state ≠ GTK_ACCESSIBLE_STATE_NONE))
    (cstate ← table_row collect_states (state_int state);
     match state_of_int (value cstate) with
     | Some GTK_ACCESSIBLE_STATE_BUSY
     | Some GTK_ACCESSIBLE_STATE_DISABLED
     | Some GTK_ACCESSIBLE_STATE_HIDDEN =>
         gtk_boolean_accessible_value_new FALSE
     | Some GTK_ACCESSIBLE_STATE_CHECKED =>
         gtk_checked_accessible_value_new GTK_ACCESSIBLE_CHECKED_UNDEFINED
     | Some GTK_ACCESSIBLE_STATE_EXPANDED =>
         gtk_expanded_accessible_value_new GTK_ACCESSIBLE_STATE_UNDEFINED
     | Some GTK_ACCESSIBLE_STATE_GRABBED =>
         gtk_grabbed_accessible_value_new GTK_ACCESSIBLE_STATE_UNDEFINED
     | Some GTK_ACCESSIBLE_STATE_INVALID =>
         gtk_invalid_accessible_value_new GTK_ACCESSIBLE_INVALID_FALSE
     | Some GTK_ACCESSIBLE_STATE_PRESSED =>
         gtk_pressed_accessible_value_new GTK_ACCESSIBLE_PRESSED_UNDEFINED
     | Some GTK_ACCESSIBLE_STATE_SELECTED =>
         gtk_selected_accessible_value_new GTK_ACCESSIBLE_STATE_UNDEFINED
     | _ =>
         g_critical "gtk_accessible_value_get_default_for_state"
           ("Unknown value for accessible state " +:+ name cstate);;
         mret (None : pointer)
     end).

(** The [switch] on the collected type of a table row, reading the next
    variadic argument; the state and the property decoder spell out the
    same switch. *)
Definition collect_from_args (func : string) (cstate : GtkAccessibleCollect)
    (args : va_list) : M (pointer * va_list) :=
  match ctype cstate with
  | GTK_ACCESSIBLE_COLLECT_BOOLEAN =>
      '(v, args) ← va_arg_int args;
      res ← call_int_ctor (ctor cstate) v; mret (res, args)
  | GTK_ACCESSIBLE_COLLECT_INT =>
      '(v, args) ← va_arg_int args;
      res ← call_int_ctor (ctor cstate) v; mret (res, args)
  | GTK_ACCESSIBLE_COLLECT_TRISTATE =>
      '(v, args) ← va_arg_int args;
      res ← call_int_ctor (ctor cstate) v; mret (res, args)
  | GTK_ACCESSIBLE_COLLECT_ENUM =>
      '(v, args) ← va_arg_int args;
      res ← call_int_ctor (ctor cstate) v; mret (res, args)
  | GTK_ACCESSIBLE_COLLECT_NUMBER =>
      '(v, args) ← va_arg_double args;
      res ← call_number_ctor (ctor cstate) v; mret (res, args)
  | GTK_ACCESSIBLE_COLLECT_STRING =>
      '(v, args) ← va_arg_string args;
      res ← call_string_ctor (ctor cstate) v; mret (res, args)
  | GTK_ACCESSIBLE_COLLECT_REF =>
      '(v, args) ← va_arg_pointer args;
      res ← call_ref_ctor (ctor cstate) v; mret (res, args)
  | GTK_ACCESSIBLE_COLLECT_INVALID =>
      g_critical func ("Unknown type for accessible state " +:+ name cstate);;
      mret ((None : pointer), args)
  end.

(** The same [switch], reading a [GValue]. *)
Definition collect_from_value (func : string) (cstate : GtkAccessibleCollect)
    (v : GValue) : M pointer :=
  match ctype cstate with
  | GTK_ACCESSIBLE_COLLECT_BOOLEAN =>
      value_ ← g_value_get_boolean v; call_int_ctor (ctor cstate) value_
  | GTK_ACCESSIBLE_COLLECT_INT =>
      value_ ← g_value_get_int v; call_int_ctor (ctor cstate) value_
  | GTK_ACCESSIBLE_COLLECT_TRISTATE =>
      value_ ← g_value_get_int v; call_int_ctor (ctor cstate) value_
  | GTK_ACCESSIBLE_COLLECT_ENUM =>
      value_ ← g_value_get_enum v; call_int_ctor (ctor cstate) value_
  | GTK_ACCESSIBLE_COLLECT_NUMBER =>
      value_ ← g_value_get_double v; call_number_ctor (ctor cstate) value_
  | GTK_ACCESSIBLE_COLLECT_STRING =>
      value_ ← g_value_get_string v; call_string_ctor (ctor cstate) value_
  | GTK_ACCESSIBLE_COLLECT_REF =>
      value_ ← g_value_get_object v; call_ref_ctor (ctor cstate) value_
  | GTK_ACCESSIBLE_COLLECT_INVALID =>
      g_critical func ("Unknown value type for accessible state " +:+ name cstate);;
      mret (None : pointer)
  end.

Definition gtk_accessible_value_collect_for_state (state : GtkAccessibleState)
    (args : va_list) : M (pointer * va_list) :=
  g_assert (bool_decide (state ≠ GTK_ACCESSIBLE_STATE_NONE))
    (cstate ← table_row collect_states (state_int state);
     collect_from_args "gtk_accessible_value_collect_for_state" cstate args).

Definition gtk_accessible_value_collect_for_state_value (state : GtkAccessibleState)
    (v : GValue) : M pointer :=
  g_assert (bool_decide (state ≠ GTK_ACCESSIBLE_STATE_NONE))
    (cstate ← table_row collect_states (state_int state);
     collect_from_value "gtk_accessible_value_collect_for_state_value" cstate v).

(** *** Properties *)

Definition gtk_accessible_value_get_default_for_property
    (property : GtkAccessibleProperty) : M pointer :=
  cstate ← table_row collect_props (property_int property);
  match property_of_int (value cstate) with
  (* Reference properties *)
  | Some GTK_ACCESSIBLE_PROPERTY_ACTIVE_DESCENDANT
  | Some GTK_ACCESSIBLE_PROPERTY_CONTROLS
  | Some GTK_ACCESSIBLE_PROPERTY_DESCRIBED_BY
  | Some GTK_ACCESSIBLE_PROPERTY_FLOW_TO
  | Some GTK_ACCESSIBLE_PROPERTY_LABELLED_BY
  | Some GTK_ACCESSIBLE_PROPERTY_OWNS
  | Some GTK_ACCESSIBLE_PROPERTY_RELEVANT =>
      mret (None : pointer)
  (* Boolean properties *)
  | Some GTK_ACCESSIBLE_PROPERTY_HAS_POPUP
  | Some GTK_ACCESSIBLE_PROPERTY_MULTI_LINE
  | Some GTK_ACCESSIBLE_PROPERTY_MULTI_SELECTABLE
  | Some GTK_ACCESSIBLE_PROPERTY_READ_ONLY
  | Some GTK_ACCESSIBLE_PROPERTY_REQUIRED =>
      gtk_boolean_accessible_value_new FALSE
  (* Integer properties *)
  | Some GTK_ACCESSIBLE_PROPERTY_LEVEL
  | Some GTK_ACCESSIBLE_PROPERTY_POS_IN_SET
  | Some GTK_ACCESSIBLE_PROPERTY_SET_SIZE =>
      gtk_int_accessible_value_new 0
  (* Number properties *)
  | Some GTK_ACCESSIBLE_PROPERTY_VALUE_MAX
  | Some GTK_ACCESSIBLE_PROPERTY_VALUE_MIN
  | Some GTK_ACCESSIBLE_PROPERTY_VALUE_NOW =>
      gtk_number_accessible_value_new 0%float
  (* String properties *)
  | Some GTK_ACCESSIBLE_PROPERTY_LABEL
  | Some GTK_ACCESSIBLE_PROPERTY_VALUE_TEXT =>
      gtk_string_accessible_value_new (Some ""%string)
  (* Token properties *)
  | Some GTK_ACCESSIBLE_PROPERTY_AUTOCOMPLETE =>
      gtk_autocomplete_accessible_value_new GTK_ACCESSIBLE_AUTOCOMPLETE_NONE
  | Some GTK_ACCESSIBLE_PROPERTY_ORIENTATION =>
      gtk_orientation_accessible_value_new GTK_ORIENTATION_HORIZONTAL
  | Some GTK_ACCESSIBLE_PROPERTY_SORT =>
      gtk_sort_accessible_value_new GTK_ACCESSIBLE_SORT_NONE
  | None =>
      g_critical "gtk_accessible_value_get_default_for_property"
        ("Unknown value for accessible state " +:+ name cstate);;
      mret (None : pointer)
  end.

Definition gtk_accessible_value_collect_for_property (property : GtkAccessibleProperty)
    (args : va_list) : M (pointer * va_list) :=
  cstate ← table_row collect_props (property_int property);
  collect_from_args "gtk_accessible_value_collect_for_property" cstate args.

Definition gtk_accessible_value_collect_for_property_value
    (property : GtkAccessibleProperty) (v : GValue) : M pointer :=
  cstate ← table_row collect_props (property_int property);
  collect_from_value "gtk_accessible_value_collect_for_property_value" cstate v.

(** ** Vocabulary of the specifications *)

(** An instance as a constructor leaves it: one reference. *)
Definition new_value (c : class_ptr) (f : subclass_fields) : GtkAccessibleValue :=
  {| value_class := c; ref_count := 1; fields := f |}.

(** The address [g_malloc0] hands out next. *)
Definition next_loc (s : state) : loc := fresh (dom (heap s)).

(** The state with one more instance, at that address. *)
Definition with_new (c : class_ptr) (f : subclass_fields) (s : state) : state :=
  set_heap (<[next_loc s := new_value c f]> (heap s)) s.

(** An instance with other fields. *)
Definition with_fields (v : GtkAccessibleValue) (f : subclass_fields) : GtkAccessibleValue :=
  {| value_class := value_class v; ref_count := ref_count v; fields := f |}.

(** The state with one more registration on the object [o]. *)
Definition with_weak_ref (o : gobject) (ob : GObject) (data : loc) (s : state) : state :=
  set_objects (<[o := {| g_type_name := g_type_name ob; is_accessible := is_accessible ob;
                         weak_refs := weak_refs ob ++ [data] |}]> (objects s)) s.

(** The sign of a rounded result: the sign asked for, unless it is a NaN. *)
Definition sign_is (sg : bool) (X : spec_float) : Prop :=
  match X with
  | S754_nan => True
  | S754_zero s | S754_infinity s | S754_finite s _ _ => s = sg
  end.

(** A signed mantissa aligned to the exponent [ez], as [SFsub] forms it. *)
Definition aligned (sg : bool) (m : positive) (e ez : Z) : Z :=
  cond_Zopp sg (Zpos (fst (shl_align m e ez))).

(** [gtk_accessible_value_equal] on the results of two constructor calls,
    the first argument constructed first. *)
Definition equal_constructed (new_a new_b : M pointer) : M bool :=
  value_a ← new_a;
  value_b ← new_b;
  gtk_accessible_value_equal value_a value_b.

(** The literals of the two examples: the binary64 values nearest to them. *)
#[warnings="-inexact-float"]
Definition near_1_0005 : float := 1.0005%float.
#[warnings="-inexact-float"]
Definition near_1_002 : float := 1.002%float.

(** An instance with another reference count. *)
Definition with_count (v : GtkAccessibleValue) (n : Z) : GtkAccessibleValue :=
  {| value_class := value_class v; ref_count := n; fields := fields v |}.

(** One retain: [gtk_accessible_value_ref], its result dropped. *)
Definition retain (self : pointer) : M unit :=
  _ ← gtk_accessible_value_ref self; mret tt.

(** One release: [gtk_accessible_value_unref]. *)
Definition release (self : pointer) : M unit :=
  gtk_accessible_value_unref self.

(** What the constructors establish for an instance: its fields have the
    layout of its class, and a reference that is still linked is registered
    with its live object. *)
Definition well_formed_at (s : state) (l : loc) (v : GtkAccessibleValue) : Prop :=
  match value_class v, fields v with
  | addr_GTK_INT_ACCESSIBLE_VALUE, GtkIntAccessibleValue _ => True
  | addr_GTK_NUMBER_ACCESSIBLE_VALUE, GtkNumberAccessibleValue _ => True
  | addr_GTK_STRING_ACCESSIBLE_VALUE, GtkStringAccessibleValue _ _ => True
  | addr_GTK_REFERENCE_ACCESSIBLE_VALUE, GtkReferenceAccessibleValue None => True
  | addr_GTK_REFERENCE_ACCESSIBLE_VALUE, GtkReferenceAccessibleValue (Some o) =>
      ∃ ob, objects s !! o = Some ob ∧ l ∈ weak_refs ob
  | _, _ => False
  end.

(** The object table once the instance at [l] has been finalized. *)
Definition objects_without (l : loc) (v : GtkAccessibleValue) (s : state)
    : gmap gobject GObject :=
  match fields v with
  | GtkReferenceAccessibleValue (Some o) =>
      match objects s !! o with
      | Some ob =>
          <[o := {| g_type_name := g_type_name ob; is_accessible := is_accessible ob;
                    weak_refs := remove_first l (weak_refs ob) |}]> (objects s)
      | None => objects s
      end
  | _ => objects s
  end.

(** The finalize and free events of the last release. *)
Definition last_release_events (l : loc) (v : GtkAccessibleValue) : list event :=
  match finalize (class_at (value_class v)) with
  | Some _ => [EvFinalize l; EvFree l]
  | None => [EvFree l]
  end.

(** A typed input for a decoder: what the caller passes positionally, or
    puts in a [GValue]. *)
Inductive typed_input :=
| in_int (v : Z)
| in_double (v : float)
| in_string (v : string)
| in_object (v : gpointer).

Definition positional (i : typed_input) : va_item :=
  match i with
  | in_int v => va_int v
  | in_double v => va_double v
  | in_string v => va_string (Some v)
  | in_object v => va_pointer v
  end.

(** The [GValue] that holds the input for a collected type. *)
Definition boxed (t : GtkAccessibleCollectType) (i : typed_input) : GValue :=
  match i with
  | in_int v =>
      match t with
      | GTK_ACCESSIBLE_COLLECT_BOOLEAN => G_TYPE_BOOLEAN v
      | GTK_ACCESSIBLE_COLLECT_ENUM => G_TYPE_ENUM v
      | _ => G_TYPE_INT v
      end
  | in_double v => G_TYPE_DOUBLE v
  | in_string v => G_TYPE_STRING (Some v)
  | in_object v => G_TYPE_OBJECT v
  end.

(** The input has the type the row collects; a number is finite and an
    object pointer is [NULL] or points to a live object. *)
Definition fits (s : state) (t : GtkAccessibleCollectType) (i : typed_input) : Prop :=
  match t, i with
  | GTK_ACCESSIBLE_COLLECT_BOOLEAN, in_int _
  | GTK_ACCESSIBLE_COLLECT_INT, in_int _
  | GTK_ACCESSIBLE_COLLECT_TRISTATE, in_int _
  | GTK_ACCESSIBLE_COLLECT_ENUM, in_int _ => True
  | GTK_ACCESSIBLE_COLLECT_NUMBER, in_double x => is_finite x = true
  | GTK_ACCESSIBLE_COLLECT_STRING, in_string _ => True
  | GTK_ACCESSIBLE_COLLECT_REF, in_object None => True
  | GTK_ACCESSIBLE_COLLECT_REF, in_object (Some o) => is_Some (objects s !! o)
  | _, _ => False
  end.

(** The call of a registered constructor on a typed input. *)
Definition invoke (f : GCallback) (i : typed_input) : M pointer :=
  match i with
  | in_int v => call_int_ctor f v
  | in_double v => call_number_ctor f v
  | in_string v => call_string_ctor f (Some v)
  | in_object v => call_ref_ctor f v
  end.

(** A row as the tables have them: the constructor takes what the collected
    type reads. *)
Definition row_consistent (row : GtkAccessibleCollect) : Prop :=
  match ctype row with
  | GTK_ACCESSIBLE_COLLECT_INVALID => False
  | GTK_ACCESSIBLE_COLLECT_BOOLEAN
  | GTK_ACCESSIBLE_COLLECT_TRISTATE
  | GTK_ACCESSIBLE_COLLECT_ENUM =>
      ∀ v, call_int_ctor (ctor row) v = hard_coded_new (ctor row) v
  | GTK_ACCESSIBLE_COLLECT_INT => ctor row = fn_gtk_int_accessible_value_new
  | GTK_ACCESSIBLE_COLLECT_NUMBER => ctor row = fn_gtk_number_accessible_value_new
  | GTK_ACCESSIBLE_COLLECT_STRING => ctor row = fn_gtk_string_accessible_value_new
  | GTK_ACCESSIBLE_COLLECT_REF => ctor row = fn_gtk_reference_accessible_value_new
  end.

(** The fields have the layout of the class. *)
Definition layout_ok (v : GtkAccessibleValue) : Prop :=
  match value_class v, fields v with
  | addr_GTK_INT_ACCESSIBLE_VALUE, GtkIntAccessibleValue _
  | addr_GTK_NUMBER_ACCESSIBLE_VALUE, GtkNumberAccessibleValue _
  | addr_GTK_STRING_ACCESSIBLE_VALUE, GtkStringAccessibleValue _ _
  | addr_GTK_REFERENCE_ACCESSIBLE_VALUE, GtkReferenceAccessibleValue _ => True
  | _, _ => False
  end.

(** The invariant of the heap and the object table: instances have the
    layout of their class; a linked reference points to a live object on
    which it is registered; every registration belongs to a live reference
    that points back; nothing is registered twice. *)
Record wf (s : state) : Prop := {
  wf_layout : ∀ l v, heap s !! l = Some v → layout_ok v;
  wf_linked : ∀ l v o,
    heap s !! l = Some v → fields v = GtkReferenceAccessibleValue (Some o) →
    ∃ ob, objects s !! o = Some ob ∧ l ∈ weak_refs ob;
  wf_registered : ∀ o ob d,
    objects s !! o = Some ob → d ∈ weak_refs ob →
    ∃ v, heap s !! d = Some v ∧ fields v = GtkReferenceAccessibleValue (Some o);
  wf_once : ∀ o ob, objects s !! o = Some ob → NoDup (weak_refs ob);
}.

(** Every instance is still there, of the same class, and with the same
    fields unless it is a reference that has been cleared. *)
Definition evolves (s s' : state) : Prop :=
  ∀ l v, heap s !! l = Some v →
    ∃ v', heap s' !! l = Some v' ∧ value_class v' = value_class v ∧
          (fields v' = fields v ∨ fields v' = GtkReferenceAccessibleValue None).

(** What a call other than a release does to the state: it keeps the
    invariant and every instance. *)
Definition steps_to (s s' : state) : Prop := (wf s → wf s') ∧ evolves s s'.

(** A computation that only takes such steps. *)
Definition respects {A} (m : M A) : Prop := ∀ s a s', m s = Done a s' → steps_to s s'.

(** What a release does: as any other call, except that the instance it is
    applied to may be gone afterwards. *)
Definition releases (l : loc) (s s' : state) : Prop :=
  (wf s → wf s') ∧
  ∀ l1 v, heap s !! l1 = Some v →
    (l1 = l ∧ heap s' !! l1 = None) ∨
    ∃ v', heap s' !! l1 = Some v' ∧ value_class v' = value_class v ∧
          (fields v' = fields v ∨ fields v' = GtkReferenceAccessibleValue None).

(** A new object comes to life, with no weak references yet. *)
Definition g_object_new (name : string) (accessible : bool) : M gobject := λ s,
  let o := fresh (dom (objects s)) in
  Done o (set_objects (<[o := {| g_type_name := name; is_accessible := accessible;
                                 weak_refs := [] |}]> (objects s)) s).

(** A reference instance after its notification has run. *)
Definition cleared (v : GtkAccessibleValue) : GtkAccessibleValue :=
  with_fields v (GtkReferenceAccessibleValue None).

(** The calls a program can make: the functions of the file, and objects
    coming to life and being destroyed. *)
Inductive call :=
| call_alloc (value_class : option class_ptr)
| call_ref (self : pointer)
| call_unref (self : pointer)
| call_print (self : pointer) (buffer : option string)
| call_to_string (self : pointer)
| call_equal (value_a value_b : pointer)
| call_int_new (v : Z)
| call_int_get (p : pointer)
| call_number_new (v : float)
| call_number_get (p : pointer)
| call_string_new (str : option string)
| call_string_get (p : pointer)
| call_reference_new (r : gpointer)
| call_reference_get (p : pointer)
| call_get_default_for_state (st : GtkAccessibleState)
| call_collect_for_state (st : GtkAccessibleState) (args : va_list)
| call_collect_for_state_value (st : GtkAccessibleState) (v : GValue)
| call_get_default_for_property (p : GtkAccessibleProperty)
| call_collect_for_property (p : GtkAccessibleProperty) (args : va_list)
| call_collect_for_property_value (p : GtkAccessibleProperty) (v : GValue)
| call_object_new (name : string) (accessible : bool)
| call_object_destroy (o : gobject).

(** A call whose result is dropped. *)
Definition ignore {A} (m : M A) : M unit := _ ← m; mret tt.

(** What a call does to the state. *)
Definition exec (c : call) : M unit :=
  match c with
  | call_alloc value_class => ignore (gtk_accessible_value_alloc value_class)
  | call_ref self => ignore (gtk_accessible_value_ref self)
  | call_unref self => gtk_accessible_value_unref self
  | call_print self buffer => ignore (gtk_accessible_value_print self buffer)
  | call_to_string self => ignore (gtk_accessible_value_to_string self)
  | call_equal value_a value_b => ignore (gtk_accessible_value_equal value_a value_b)
  | call_int_new v => ignore (gtk_int_accessible_value_new v)
  | call_int_get p => ignore (gtk_int_accessible_value_get p)
  | call_number_new v => ignore (gtk_number_accessible_value_new v)
  | call_number_get p => ignore (gtk_number_accessible_value_get p)
  | call_string_new str => ignore (gtk_string_accessible_value_new str)
  | call_string_get p => ignore (gtk_string_accessible_value_get p)
  | call_reference_new r => ignore (gtk_reference_accessible_value_new r)
  | call_reference_get p => ignore (gtk_reference_accessible_value_get p)
  | call_get_default_for_state st => ignore (gtk_accessible_value_get_default_for_state st)
  | call_collect_for_state st args =>
      ignore (gtk_accessible_value_collect_for_state st args)
  | call_collect_for_state_value st v =>
      ignore (gtk_accessible_value_collect_for_state_value st v)
  | call_get_default_for_property p =>
      ignore (gtk_accessible_value_get_default_for_property p)
  | call_collect_for_property p args =>
      ignore (gtk_accessible_value_collect_for_property p args)
  | call_collect_for_property_value p v =>
      ignore (gtk_accessible_value_collect_for_property_value p v)
  | call_object_new name accessible => ignore (g_object_new name accessible)
  | call_object_destroy o => g_object_destroy o
  end.

(** The state at program start: no instance, no object, nothing logged. *)
Definition init_state : state := {| heap := ∅; objects := ∅; log := [] |}.

(** The states a program can be in. *)
Inductive reachable : state → Prop :=
| reachable_init : reachable init_state
| reachable_step c s s' : reachable s → exec c s = Done tt s' → reachable s'.

(** Calls made while the instance at [l] is kept: it is still allocated
    after each of them. *)
Inductive keeping (l : loc) : state → state → Prop :=
| keeping_done s : keeping l s s
| keeping_call c s s1 s2 :
    exec c s = Done tt s1 → is_Some (heap s1 !! l) → keeping l s1 s2 → keeping l s s2.

(** The instance at [l] is a reference whose link has been cleared. *)
Definition is_cleared_reference (l : loc) (s : state) : Prop :=
  ∃ v, heap s !! l = Some v ∧
       value_class v = addr_GTK_REFERENCE_ACCESSIBLE_VALUE ∧
       fields v = GtkReferenceAccessibleValue None.

(** *** Vocabulary of the further properties *)

(** A diagnostic of [g_critical] or [g_return_if_fail]. *)
Definition is_critical (e : event) : Prop :=
  match e with
  | EvCritical _ _ => True
  | _ => False
  end.

(** Between the two states nothing happened but diagnostics: the heap and
    the object table are the same, and the log grew by criticals only. *)
Definition only_logs (s s' : state) : Prop :=
  heap s' = heap s ∧ objects s' = objects s ∧
  ∃ lg, log s' = log s ++ lg ∧ Forall is_critical lg.

(** A computation that, when it returns, has done nothing but that. *)
Definition reads_only {A} (m : M A) : Prop :=
  ∀ s a s', m s = Done a s' → only_logs s s'.

(** The reference count of every live instance satisfies [P]. *)
Definition all_counts (P : Z → Prop) (s : state) : Prop :=
  ∀ l v, heap s !! l = Some v → P (ref_count v).

(** A computation that keeps it so. *)
Definition keeps_counts (P : Z → Prop) {A} (m : M A) : Prop :=
  ∀ s a s', m s = Done a s' → all_counts P s → all_counts P s'.

(** The states a program can be in after [n] calls. *)
Inductive reachable_in : nat → state → Prop :=
| reachable_in_init : reachable_in 0 init_state
| reachable_in_step n c s s' :
    reachable_in n s → exec c s = Done tt s' → reachable_in (S n) s'.

(** What a live instance prints as: the decimal of an integer, ["%g"] of a
    number, the contents of a string (nothing for a [NULL] one), and for a
    reference the type name and the address of the object, or ["<null>"]. *)
Definition rendering (s : state) (v : GtkAccessibleValue) : string :=
  match fields v with
  | GtkIntAccessibleValue x => pretty x
  | GtkNumberAccessibleValue x => printf_g x
  | GtkStringAccessibleValue (Some str) _ => str
  | GtkStringAccessibleValue None _ => ""
  | GtkReferenceAccessibleValue (Some o) =>
      match objects s !! o with
      | Some ob => g_type_name ob +:+ "<" +:+ printf_p o +:+ ">"
      | None => ""
      end
  | GtkReferenceAccessibleValue None => "<null>"
  end.

(** The [GValue] has the type that the accessor used for the collected
    type asks for. *)
Definition holds (t : GtkAccessibleCollectType) (v : GValue) : bool :=
  match t, v with
  | GTK_ACCESSIBLE_COLLECT_BOOLEAN, G_TYPE_BOOLEAN _
  | GTK_ACCESSIBLE_COLLECT_INT, G_TYPE_INT _
  | GTK_ACCESSIBLE_COLLECT_TRISTATE, G_TYPE_INT _
  | GTK_ACCESSIBLE_COLLECT_ENUM, G_TYPE_ENUM _
  | GTK_ACCESSIBLE_COLLECT_NUMBER, G_TYPE_DOUBLE _
  | GTK_ACCESSIBLE_COLLECT_STRING, G_TYPE_STRING _
  | GTK_ACCESSIBLE_COLLECT_REF, G_TYPE_OBJECT _ => true
  | _, _ => false
  end.

(** The zero of the type a row collects: [0], [0.0], the empty string,
    [NULL]. *)
Definition zero_input (t : GtkAccessibleCollectType) : typed_input :=
  match t with
  | GTK_ACCESSIBLE_COLLECT_NUMBER => in_double 0
  | GTK_ACCESSIBLE_COLLECT_STRING => in_string ""
  | GTK_ACCESSIBLE_COLLECT_REF => in_object None
  | _ => in_int 0
  end.

(** The collected types of the hard-coded kinds. *)
Definition hard_coded (t : GtkAccessibleCollectType) : Prop :=
  t = GTK_ACCESSIBLE_COLLECT_BOOLEAN ∨ t = GTK_ACCESSIBLE_COLLECT_TRISTATE ∨
  t = GTK_ACCESSIBLE_COLLECT_ENUM.

(** The collected types of the dynamic kinds that have a default. *)
Definition dynamic (t : GtkAccessibleCollectType) : Prop :=
  t = GTK_ACCESSIBLE_COLLECT_INT ∨ t = GTK_ACCESSIBLE_COLLECT_NUMBER ∨
  t = GTK_ACCESSIBLE_COLLECT_STRING.

(** The answer of the [equal] function of a class on the fields of two of
    its instances. *)
Definition same_payload (f g : subclass_fields) : bool :=
  match f, g with
  | GtkIntAccessibleValue x, GtkIntAccessibleValue y => x =? y
  | GtkNumberAccessibleValue x, GtkNumberAccessibleValue y => G_APPROX_VALUE x y tolerance
  | GtkStringAccessibleValue a n, GtkStringAccessibleValue b m =>
      (n =? m) && (g_strcmp0 a b =? 0)
  | GtkReferenceAccessibleValue r, GtkReferenceAccessibleValue r' => bool_decide (r = r')
  | _, _ => false
  end.

(** A construction whose result is released at once. *)
Definition construct_and_release (new : M pointer) : M unit :=
  value ← new; gtk_accessible_value_unref value.

(** The state with the same heap and objects and [events] more in the log. *)
Definition logged (events : list event) (s : state) : state :=
  {| heap := heap s; objects := objects s; log := log s ++ events |}.

(** ** Reasoning about computations *)

Lemma bind_Done {A B} (m : M A) (f : A → M B) s a s' :
  m s = Done a s' → (m ≫= f) s = f a s'.
Proof. intros H. unfold mbind, M_bind. by rewrite H. Qed.

Lemma bind_Crash {A B} (m : M A) (f : A → M B) s e :
  m s = Crash e → (m ≫= f) s = Crash e.
Proof. intros H. unfold mbind, M_bind. by rewrite H. Qed.

Lemma ret_Done {A} (a : A) s : mret (M := M) a s = Done a s.
Proof. done. Qed.

Lemma deref_live l v s : heap s !! l = Some v → deref (Some l) s = Done v s.
Proof. intros H. unfold deref. by rewrite H. Qed.

Lemma assign_live l v w s :
  heap s !! l = Some v → assign (Some l) w s = Done tt (set_heap (<[l:=w]> (heap s)) s).
Proof. intros H. unfold assign. by rewrite H. Qed.

Lemma set_fields_live l v f s :
  heap s !! l = Some v →
  set_fields (Some l) f s =
  Done tt (set_heap (<[l := {| value_class := value_class v; ref_count := ref_count v;
                              fields := f |}]> (heap s)) s).
Proof.
  intros H. unfold set_fields.
  rewrite (bind_Done _ _ _ _ _ (deref_live _ _ _ H)). by apply assign_live with v.
Qed.

Lemma set_ref_count_live l v n s :
  heap s !! l = Some v →
  set_ref_count (Some l) n s =
  Done tt (set_heap (<[l := {| value_class := value_class v; ref_count := n;
                              fields := fields v |}]> (heap s)) s).
Proof.
  intros H. unfold set_ref_count.
  rewrite (bind_Done _ _ _ _ _ (deref_live _ _ _ H)). by apply assign_live with v.
Qed.

Lemma set_heap_heap h s : heap (set_heap h s) = h.
Proof. done. Qed.

Lemma set_heap_set_heap h h' s : set_heap h (set_heap h' s) = set_heap h s.
Proof. done. Qed.

Lemma set_heap_id s : set_heap (heap s) s = s.
Proof. by destruct s. Qed.

Lemma next_loc_fresh s : heap s !! next_loc s = None.
Proof. unfold next_loc. apply (not_elem_of_dom (D := gset loc)), is_fresh. Qed.

Lemma with_new_lookup c f s : heap (with_new c f s) !! next_loc s = Some (new_value c f).
Proof. apply lookup_insert_eq. Qed.

Lemma with_new_lookup_old c f s l v :
  heap s !! l = Some v → heap (with_new c f s) !! l = Some v.
Proof.
  intros H. unfold with_new. rewrite set_heap_heap, lookup_insert_ne; [done|].
  intros <-. by rewrite next_loc_fresh in H.
Qed.

Lemma gtk_accessible_value_alloc_spec c s :
  gtk_accessible_value_alloc (Some c) s = Done (Some (next_loc s)) (with_new c (zeroed c) s).
Proof.
  unfold gtk_accessible_value_alloc, g_return_val_if_fail.
  rewrite bool_decide_true by done.
  assert ((sizeof_GtkAccessibleValue <=? instance_size (class_at c)) = true) as ->
    by (by destruct c).
  assert (init (class_at c) = None) as -> by (by destruct c).
  unfold g_malloc0, set_ref_count, deref, assign, mbind, M_bind, mret, M_ret, set_heap.
  simpl. rewrite lookup_insert_eq. simpl. rewrite lookup_insert_eq. simpl.
  by rewrite insert_insert_eq.
Qed.

Lemma int_value_live l v s :
  heap s !! l = Some v →
  int_value (Some l) s =
  match fields v with GtkIntAccessibleValue x => Done x s | _ => Crash UndefinedBehaviour end.
Proof.
  intros H. unfold int_value. rewrite (bind_Done _ _ _ _ _ (deref_live _ _ _ H)).
  by destruct (fields v).
Qed.

Lemma number_value_live l v s :
  heap s !! l = Some v →
  number_value (Some l) s =
  match fields v with GtkNumberAccessibleValue x => Done x s | _ => Crash UndefinedBehaviour end.
Proof.
  intros H. unfold number_value. rewrite (bind_Done _ _ _ _ _ (deref_live _ _ _ H)).
  by destruct (fields v).
Qed.

Lemma string_value_live l v s :
  heap s !! l = Some v →
  string_value (Some l) s =
  match fields v with
  | GtkStringAccessibleValue x _ => Done x s
  | _ => Crash UndefinedBehaviour
  end.
Proof.
  intros H. unfold string_value. rewrite (bind_Done _ _ _ _ _ (deref_live _ _ _ H)).
  by destruct (fields v).
Qed.

Lemma string_length_live l v s :
  heap s !! l = Some v →
  string_length (Some l) s =
  match fields v with
  | GtkStringAccessibleValue _ n => Done n s
  | _ => Crash UndefinedBehaviour
  end.
Proof.
  intros H. unfold string_length. rewrite (bind_Done _ _ _ _ _ (deref_live _ _ _ H)).
  by destruct (fields v).
Qed.

Lemma reference_ref_live l v s :
  heap s !! l = Some v →
  reference_ref (Some l) s =
  match fields v with
  | GtkReferenceAccessibleValue r => Done r s
  | _ => Crash UndefinedBehaviour
  end.
Proof.
  intros H. unfold reference_ref. rewrite (bind_Done _ _ _ _ _ (deref_live _ _ _ H)).
  by destruct (fields v).
Qed.

Lemma set_int_value_live l v x y s :
  heap s !! l = Some v → fields v = GtkIntAccessibleValue y →
  set_int_value (Some l) x s =
  Done tt (set_heap (<[l := with_fields v (GtkIntAccessibleValue x)]> (heap s)) s).
Proof.
  intros H Hf. unfold set_int_value.
  erewrite bind_Done; [by apply set_fields_live|].
  by rewrite (int_value_live _ _ _ H), Hf.
Qed.

Lemma set_number_value_live l v x y s :
  heap s !! l = Some v → fields v = GtkNumberAccessibleValue y →
  set_number_value (Some l) x s =
  Done tt (set_heap (<[l := with_fields v (GtkNumberAccessibleValue x)]> (heap s)) s).
Proof.
  intros H Hf. unfold set_number_value.
  erewrite bind_Done; [by apply set_fields_live|].
  by rewrite (number_value_live _ _ _ H), Hf.
Qed.

Lemma set_string_value_live l v x y n s :
  heap s !! l = Some v → fields v = GtkStringAccessibleValue y n →
  set_string_value (Some l) x s =
  Done tt (set_heap (<[l := with_fields v (GtkStringAccessibleValue x n)]> (heap s)) s).
Proof.
  intros H Hf. unfold set_string_value.
  erewrite bind_Done; [by apply set_fields_live|].
  by rewrite (string_length_live _ _ _ H), Hf.
Qed.

Lemma set_string_length_live l v x n m s :
  heap s !! l = Some v → fields v = GtkStringAccessibleValue x n →
  set_string_length (Some l) m s =
  Done tt (set_heap (<[l := with_fields v (GtkStringAccessibleValue x m)]> (heap s)) s).
Proof.
  intros H Hf. unfold set_string_length.
  erewrite bind_Done; [by apply set_fields_live|].
  by rewrite (string_value_live _ _ _ H), Hf.
Qed.

Lemma set_reference_ref_live l v r r' s :
  heap s !! l = Some v → fields v = GtkReferenceAccessibleValue r' →
  set_reference_ref (Some l) r s =
  Done tt (set_heap (<[l := with_fields v (GtkReferenceAccessibleValue r)]> (heap s)) s).
Proof.
  intros H Hf. unfold set_reference_ref.
  erewrite bind_Done; [by apply set_fields_live|].
  by rewrite (reference_ref_live _ _ _ H), Hf.
Qed.

Lemma with_new_overwrite c f g s :
  set_heap (<[next_loc s := with_fields (new_value c f) g]> (heap (with_new c f s)))
    (with_new c f s) = with_new c g s.
Proof.
  unfold with_new. rewrite set_heap_set_heap, set_heap_heap. by rewrite insert_insert_eq.
Qed.

Lemma gtk_int_accessible_value_new_spec x s :
  gtk_int_accessible_value_new x s =
  Done (Some (next_loc s)) (with_new addr_GTK_INT_ACCESSIBLE_VALUE (GtkIntAccessibleValue x) s).
Proof.
  unfold gtk_int_accessible_value_new.
  rewrite (bind_Done _ _ _ _ _ (gtk_accessible_value_alloc_spec _ _)).
  erewrite bind_Done;
    [|by eapply set_int_value_live; [apply with_new_lookup|]].
  by rewrite with_new_overwrite.
Qed.

Lemma gtk_number_accessible_value_new_spec x s :
  gtk_number_accessible_value_new x s =
  Done (Some (next_loc s))
    (with_new addr_GTK_NUMBER_ACCESSIBLE_VALUE (GtkNumberAccessibleValue x) s).
Proof.
  unfold gtk_number_accessible_value_new.
  rewrite (bind_Done _ _ _ _ _ (gtk_accessible_value_alloc_spec _ _)).
  erewrite bind_Done;
    [|by eapply set_number_value_live; [apply with_new_lookup|]].
  by rewrite with_new_overwrite.
Qed.

Lemma gtk_string_accessible_value_new_spec str s :
  gtk_string_accessible_value_new (Some str) s =
  Done (Some (next_loc s))
    (with_new addr_GTK_STRING_ACCESSIBLE_VALUE
       (GtkStringAccessibleValue (Some str) (Z.of_nat (String.length str))) s).
Proof.
  unfold gtk_string_accessible_value_new, g_strdup.
  rewrite (bind_Done _ _ _ _ _ (gtk_accessible_value_alloc_spec _ _)).
  erewrite bind_Done;
    [|by eapply set_string_value_live; [apply with_new_lookup|]].
  rewrite with_new_overwrite.
  erewrite bind_Done; [|reflexivity].
  erewrite bind_Done;
    [|by eapply set_string_length_live; [apply with_new_lookup|]].
  by rewrite with_new_overwrite.
Qed.

(** ** Equality *)

Lemma gtk_accessible_value_equal_dispatch la lb v s :
  la ≠ lb → heap s !! la = Some v →
  gtk_accessible_value_equal (Some la) (Some lb) s =
  match equal (class_at (value_class v)) with
  | Some f => f (Some la) (Some lb) s
  | None => Crash UndefinedBehaviour
  end.
Proof.
  intros Hne H. unfold gtk_accessible_value_equal.
  rewrite bool_decide_false by congruence.
  rewrite !bool_decide_false by done. simpl.
  rewrite (bind_Done _ _ _ _ _ (deref_live _ _ _ H)).
  by destruct (equal _).
Qed.

(** C2: [gtk_accessible_value_equal] is NULL-safe. The same pointer twice,
    [NULL] included, is equal without a look at the instances; exactly one
    [NULL] is unequal; two distinct non-[NULL] pointers are compared by the
    [equal] function of the class of the first, applied to both. *)
Theorem gtk_accessible_value_equal_null_safe (s : state) (value_a value_b : pointer) :
  (value_a = value_b → gtk_accessible_value_equal value_a value_b s = Done true s) ∧
  (value_a ≠ value_b → value_a = None ∨ value_b = None →
   gtk_accessible_value_equal value_a value_b s = Done false s) ∧
  (∀ v, value_a ≠ value_b → value_a ≠ None → value_b ≠ None →
        deref value_a s = Done v s →
        ∃ f, equal (class_at (value_class v)) = Some f ∧
             gtk_accessible_value_equal value_a value_b s = f value_a value_b s).
Proof.
  split; [|split].
  - intros ->. unfold gtk_accessible_value_equal. by rewrite bool_decide_true.
  - intros Hne Hnull. unfold gtk_accessible_value_equal.
    rewrite bool_decide_false by done.
    destruct Hnull as [-> | ->]; simpl; [done|].
    by rewrite orb_true_r.
  - intros v Hne Ha Hb Hv.
    destruct value_a as [la|]; [|done]. destruct value_b as [lb|]; [|done].
    unfold deref in Hv. destruct (heap s !! la) as [v'|] eqn:Hla; [|done].
    injection Hv as ->.
    rewrite (gtk_accessible_value_equal_dispatch la lb v) by congruence.
    destruct (value_class v); simpl; eauto.
Qed.

(** ** Strings: construction, printing, conversion *)

Lemma gtk_string_accessible_value_print_spec l v str n buffer s :
  heap s !! l = Some v →
  fields v = GtkStringAccessibleValue (Some str) n →
  gtk_string_accessible_value_print (Some l) buffer s = Done (buffer +:+ str) s.
Proof.
  intros H Hf. unfold gtk_string_accessible_value_print.
  assert (string_value (Some l) s = Done (Some str) s) as Hs
    by (by rewrite (string_value_live _ _ _ H), Hf).
  by rewrite (bind_Done _ _ _ _ _ Hs).
Qed.

Lemma gtk_accessible_value_to_string_string l v str n s :
  heap s !! l = Some v →
  value_class v = addr_GTK_STRING_ACCESSIBLE_VALUE →
  fields v = GtkStringAccessibleValue (Some str) n →
  gtk_accessible_value_to_string (Some l) s = Done (Some str) s.
Proof.
  intros H Hc Hf.
  unfold gtk_accessible_value_to_string, gtk_accessible_value_print, g_return_val_if_fail.
  rewrite !bool_decide_true by done.
  rewrite (bind_Done _ _ _ _ _ (deref_live _ _ _ H)), Hc. simpl.
  by rewrite (bind_Done _ _ _ _ _ (gtk_string_accessible_value_print_spec _ _ _ _ _ _ H Hf)).
Qed.

Lemma gtk_accessible_value_print_string l v str n buffer s :
  heap s !! l = Some v →
  value_class v = addr_GTK_STRING_ACCESSIBLE_VALUE →
  fields v = GtkStringAccessibleValue (Some str) n →
  gtk_accessible_value_print (Some l) (Some buffer) s = Done (Some (buffer +:+ str)) s.
Proof.
  intros H Hc Hf. unfold gtk_accessible_value_print, g_return_val_if_fail.
  rewrite !bool_decide_true by done.
  rewrite (bind_Done _ _ _ _ _ (deref_live _ _ _ H)), Hc. simpl.
  by rewrite (bind_Done _ _ _ _ _ (gtk_string_accessible_value_print_spec _ _ _ _ _ _ H Hf)).
Qed.

(** C8: the string kind round-trips. For every string [str], the
    constructor returns a fresh instance of the string class with one
    reference, holding a copy of [str] and its length; printing that
    instance appends [str] to the buffer, unmodified; and
    [gtk_accessible_value_to_string] on it returns exactly [str], leaving
    the state as it is. *)
Theorem gtk_string_accessible_value_round_trip (s : state) (str : string) :
  ∃ l s',
    gtk_string_accessible_value_new (Some str) s = Done (Some l) s' ∧
    heap s !! l = None ∧
    heap s' !! l =
      Some {| value_class := addr_GTK_STRING_ACCESSIBLE_VALUE; ref_count := 1;
              fields := GtkStringAccessibleValue (g_strdup (Some str))
                          (Z.of_nat (String.length str)) |} ∧
    (∀ buffer, gtk_accessible_value_print (Some l) (Some buffer) s' =
               Done (Some (buffer +:+ str)) s') ∧
    gtk_accessible_value_to_string (Some l) s' = Done (Some str) s'.
Proof.
  eexists _, _. split; [apply gtk_string_accessible_value_new_spec|].
  split; [apply next_loc_fresh|]. split; [apply with_new_lookup|]. split.
  - intros buffer.
    eapply gtk_accessible_value_print_string; [apply with_new_lookup|done..].
  - eapply gtk_accessible_value_to_string_string; [apply with_new_lookup|done..].
Qed.

(** ** Typed accessors *)

(** C10: a typed accessor called on [NULL], or on a live instance of another
    class, does not fault and leaves heap and objects as they are: it logs
    the failed precondition and returns the neutral result, [0] for the
    integer and number accessors and [NULL] for the string and reference
    accessors. *)
Theorem typed_accessors_fail_softly (s : state) :
  gtk_int_accessible_value_get None s =
    Done 0 (add_log (EvCritical "gtk_int_accessible_value_get" "value != NULL") s) ∧
  gtk_number_accessible_value_get None s =
    Done 0%float (add_log (EvCritical "gtk_number_accessible_value_get" "value != NULL") s) ∧
  gtk_string_accessible_value_get None s =
    Done None (add_log (EvCritical "gtk_string_accessible_value_get" "value != NULL") s) ∧
  gtk_reference_accessible_value_get None s =
    Done None (add_log (EvCritical "gtk_reference_accessible_value_get" "value != NULL") s) ∧
  ∀ l v, heap s !! l = Some v →
    (value_class v ≠ addr_GTK_INT_ACCESSIBLE_VALUE →
     gtk_int_accessible_value_get (Some l) s =
       Done 0 (add_log (EvCritical "gtk_int_accessible_value_get"
                          "value->value_class == &GTK_INT_ACCESSIBLE_VALUE") s)) ∧
    (value_class v ≠ addr_GTK_NUMBER_ACCESSIBLE_VALUE →
     gtk_number_accessible_value_get (Some l) s =
       Done 0%float (add_log (EvCritical "gtk_number_accessible_value_get"
                                "value->value_class == &GTK_NUMBER_ACCESSIBLE_VALUE") s)) ∧
    (value_class v ≠ addr_GTK_STRING_ACCESSIBLE_VALUE →
     gtk_string_accessible_value_get (Some l) s =
       Done None (add_log (EvCritical "gtk_string_accessible_value_get"
                             "value->value_class == &GTK_STRING_ACCESSIBLE_VALUE") s)) ∧
    (value_class v ≠ addr_GTK_REFERENCE_ACCESSIBLE_VALUE →
     gtk_reference_accessible_value_get (Some l) s =
       Done None (add_log (EvCritical "gtk_reference_accessible_value_get"
                             "value->value_class == &GTK_REFERENCE_ACCESSIBLE_VALUE") s)).
Proof.
  repeat split; try done.
  all: intros Hc.
  all: unfold gtk_int_accessible_value_get, gtk_number_accessible_value_get,
         gtk_string_accessible_value_get, gtk_reference_accessible_value_get,
         g_return_val_if_fail.
  all: rewrite bool_decide_true by done.
  all: rewrite (bind_Done _ _ _ _ _ (deref_live _ _ _ H)).
  all: by rewrite bool_decide_false.
Qed.

(** ** Kind-specific equality on live instances *)

Lemma gtk_int_accessible_value_equal_spec la lb va vb x y s :
  heap s !! la = Some va → fields va = GtkIntAccessibleValue x →
  heap s !! lb = Some vb → fields vb = GtkIntAccessibleValue y →
  gtk_int_accessible_value_equal (Some la) (Some lb) s = Done (x =? y) s.
Proof.
  intros Ha Hfa Hb Hfb. unfold gtk_int_accessible_value_equal.
  assert (int_value (Some la) s = Done x s) as H1
    by (by rewrite (int_value_live _ _ _ Ha), Hfa).
  assert (int_value (Some lb) s = Done y s) as H2
    by (by rewrite (int_value_live _ _ _ Hb), Hfb).
  by rewrite (bind_Done _ _ _ _ _ H1), (bind_Done _ _ _ _ _ H2).
Qed.

Lemma gtk_number_accessible_value_equal_spec la lb va vb x y s :
  heap s !! la = Some va → fields va = GtkNumberAccessibleValue x →
  heap s !! lb = Some vb → fields vb = GtkNumberAccessibleValue y →
  gtk_number_accessible_value_equal (Some la) (Some lb) s =
  Done (G_APPROX_VALUE x y tolerance) s.
Proof.
  intros Ha Hfa Hb Hfb. unfold gtk_number_accessible_value_equal.
  assert (number_value (Some la) s = Done x s) as H1
    by (by rewrite (number_value_live _ _ _ Ha), Hfa).
  assert (number_value (Some lb) s = Done y s) as H2
    by (by rewrite (number_value_live _ _ _ Hb), Hfb).
  by rewrite (bind_Done _ _ _ _ _ H1), (bind_Done _ _ _ _ _ H2).
Qed.

Lemma g_strcmp0_eq a b : (g_strcmp0 (Some a) (Some b) =? 0) = bool_decide (a = b).
Proof.
  unfold g_strcmp0. destruct (String.compare a b) eqn:E.
  - apply String.compare_eq_iff in E. by rewrite bool_decide_true.
  - rewrite bool_decide_false; [done|]. intros ->.
    pose proof (String.compare_antisym b b) as H. by rewrite E in H.
  - rewrite bool_decide_false; [done|]. intros ->.
    pose proof (String.compare_antisym b b) as H. by rewrite E in H.
Qed.

Lemma gtk_string_accessible_value_equal_spec la lb va vb a b s :
  heap s !! la = Some va →
  fields va = GtkStringAccessibleValue (Some a) (Z.of_nat (String.length a)) →
  heap s !! lb = Some vb →
  fields vb = GtkStringAccessibleValue (Some b) (Z.of_nat (String.length b)) →
  gtk_string_accessible_value_equal (Some la) (Some lb) s = Done (bool_decide (a = b)) s.
Proof.
  intros Ha Hfa Hb Hfb. unfold gtk_string_accessible_value_equal.
  assert (string_length (Some la) s = Done (Z.of_nat (String.length a)) s) as H1
    by (by rewrite (string_length_live _ _ _ Ha), Hfa).
  assert (string_length (Some lb) s = Done (Z.of_nat (String.length b)) s) as H2
    by (by rewrite (string_length_live _ _ _ Hb), Hfb).
  assert (string_value (Some la) s = Done (Some a) s) as H3
    by (by rewrite (string_value_live _ _ _ Ha), Hfa).
  assert (string_value (Some lb) s = Done (Some b) s) as H4
    by (by rewrite (string_value_live _ _ _ Hb), Hfb).
  rewrite (bind_Done _ _ _ _ _ H1), (bind_Done _ _ _ _ _ H2).
  destruct (Z.of_nat (String.length a) =? Z.of_nat (String.length b)) eqn:E; simpl.
  - by rewrite (bind_Done _ _ _ _ _ H3), (bind_Done _ _ _ _ _ H4), ret_Done, g_strcmp0_eq.
  - rewrite bool_decide_false; [done|]. intros ->. by rewrite Z.eqb_refl in E.
Qed.

Lemma gtk_reference_accessible_value_equal_spec la lb va vb r r' s :
  heap s !! la = Some va → fields va = GtkReferenceAccessibleValue r →
  heap s !! lb = Some vb → fields vb = GtkReferenceAccessibleValue r' →
  gtk_reference_accessible_value_equal (Some la) (Some lb) s = Done (bool_decide (r = r')) s.
Proof.
  intros Ha Hfa Hb Hfb. unfold gtk_reference_accessible_value_equal.
  assert (reference_ref (Some la) s = Done r s) as H1
    by (by rewrite (reference_ref_live _ _ _ Ha), Hfa).
  assert (reference_ref (Some lb) s = Done r' s) as H2
    by (by rewrite (reference_ref_live _ _ _ Hb), Hfb).
  by rewrite (bind_Done _ _ _ _ _ H1), (bind_Done _ _ _ _ _ H2).
Qed.

(** ** The reference constructor *)

Lemma g_object_live o ob s : objects s !! o = Some ob → g_object (Some o) s = Done ob s.
Proof. intros H. unfold g_object. by rewrite H. Qed.

Lemma g_object_weak_ref_spec o ob data s :
  objects s !! o = Some ob →
  g_object_weak_ref (Some o) data s = Done tt (with_weak_ref o ob data s).
Proof.
  intros H. unfold g_object_weak_ref.
  by rewrite (bind_Done _ _ _ _ _ (g_object_live _ _ _ H)).
Qed.

Lemma gtk_reference_accessible_value_new_spec o ob s :
  objects s !! o = Some ob → is_accessible ob = true →
  gtk_reference_accessible_value_new (Some o) s =
  Done (Some (next_loc s))
    (with_weak_ref o ob (next_loc s)
       (with_new addr_GTK_REFERENCE_ACCESSIBLE_VALUE (GtkReferenceAccessibleValue (Some o)) s)).
Proof.
  intros H Hacc. unfold gtk_reference_accessible_value_new, GTK_IS_ACCESSIBLE.
  erewrite bind_Done; cycle 1.
  { by rewrite (bind_Done _ _ _ _ _ (g_object_live _ _ _ H)), ret_Done, Hacc. }
  unfold g_return_val_if_fail.
  rewrite (bind_Done _ _ _ _ _ (gtk_accessible_value_alloc_spec _ _)).
  erewrite bind_Done;
    [|by eapply set_reference_ref_live; [apply with_new_lookup|]].
  rewrite with_new_overwrite.
  by erewrite bind_Done; [|by apply g_object_weak_ref_spec].
Qed.

Lemma gtk_reference_accessible_value_new_NULL s :
  gtk_reference_accessible_value_new None s =
  Done None (add_log (EvCritical "gtk_reference_accessible_value_new"
                        "GTK_IS_ACCESSIBLE (ref)") s).
Proof. done. Qed.

(** ** Binary64 facts behind the number kind *)

Lemma SFltb_irrefl X : SFltb X X = false.
Proof.
  unfold SFltb. destruct X as [[]|[]| |[] m e]; simpl; try done.
  all: rewrite Z.compare_refl, ?Pos.compare_cont_refl; done.
Qed.

Lemma float_ltb_irrefl x : PrimFloat.ltb x x = false.
Proof. rewrite FloatAxioms.ltb_spec. apply SFltb_irrefl. Qed.

Lemma Prim2SF_infinity : Prim2SF infinity = S754_infinity false.
Proof. by vm_compute. Qed.

Lemma is_finite_true_cases x :
  is_finite x = true →
  (∃ sg, Prim2SF x = S754_zero sg) ∨ (∃ sg m e, Prim2SF x = S754_finite sg m e).
Proof.
  unfold is_finite, is_nan, is_infinity.
  rewrite !FloatAxioms.eqb_spec, FloatAxioms.abs_spec, Prim2SF_infinity.
  destruct (Prim2SF x) as [sg|sg| |sg m e]; eauto.
  - by destruct sg.
  - done.
Qed.

Lemma is_finite_false_cases x :
  is_finite x = false →
  Prim2SF x = S754_nan ∨ (∃ sg, Prim2SF x = S754_infinity sg).
Proof.
  unfold is_finite, is_nan, is_infinity.
  rewrite !FloatAxioms.eqb_spec, FloatAxioms.abs_spec, Prim2SF_infinity.
  destruct (Prim2SF x) as [sg|sg| |sg m e]; eauto.
  - intros H. destruct sg; vm_compute in H; discriminate.
  - unfold SFeqb. simpl. rewrite Z.compare_refl, Pos.compare_cont_refl. by destruct sg.
Qed.

(** A number is within the tolerance of itself exactly when it is finite:
    the difference of an infinity or a NaN with itself is a NaN, which is
    below nothing. *)
Lemma G_APPROX_VALUE_diag x : G_APPROX_VALUE x x tolerance = is_finite x.
Proof.
  unfold G_APPROX_VALUE.
  rewrite float_ltb_irrefl, FloatAxioms.ltb_spec, FloatAxioms.sub_spec.
  destruct (is_finite x) eqn:Hfin.
  - destruct (is_finite_true_cases x Hfin) as [[sg ->]|(sg & m & e & ->)].
    + by destruct sg; vm_compute.
    + unfold SF64sub, SFsub. rewrite Z.sub_diag. by vm_compute.
  - destruct (is_finite_false_cases x Hfin) as [->|[sg ->]].
    + done.
    + by destruct sg.
Qed.

Lemma binary_round_aux_sign sx mx ex lx :
  sign_is sx (binary_round_aux prec emax sx mx ex lx).
Proof.
  unfold binary_round_aux.
  destruct (shr_fexp _ _ _ _ _) as [mrs' e'].
  destruct (shr_fexp _ _ _ _ _) as [mrs'' e''].
  destruct (shr_m mrs''); simpl; try done. by destruct (_ <=? _).
Qed.

Lemma binary_round_sign sx mx ex : sign_is sx (binary_round prec emax sx mx ex).
Proof.
  unfold binary_round. destruct (shl_align _ _ _) as [mz ez]. apply binary_round_aux_sign.
Qed.

Lemma binary_round_opp mx ex :
  binary_round prec emax true mx ex = SFopp (binary_round prec emax false mx ex).
Proof.
  unfold binary_round. destruct (shl_align _ _ _) as [mz ez].
  unfold binary_round_aux.
  destruct (shr_fexp _ _ _ _ _) as [mrs' e'].
  destruct (shr_fexp _ _ _ _ _) as [mrs'' e''].
  destruct (shr_m mrs''); simpl; try done. by destruct (_ <=? _).
Qed.

Lemma SFltb_abs_nonneg X E :
  sign_is false X → SFltb (SFabs X) E = SFltb X E.
Proof. destruct X as [sx|sx| |sx m e]; simpl; intros; by subst. Qed.

Lemma SFltb_abs_opp X E :
  sign_is false X → SFltb (SFabs (SFopp X)) E = SFltb X E.
Proof. destruct X as [sx|sx| |sx m e]; simpl; intros; by subst. Qed.

Lemma SFltb_zero_sign s s' E : SFltb (S754_zero s) E = SFltb (S754_zero s') E.
Proof. done. Qed.

Lemma iter_xO_pow m d : Zpos (Pos.iter xO m d) = Zpos m * 2 ^ Zpos d.
Proof.
  induction d as [|d IH] using Pos.peano_ind.
  - simpl. lia.
  - rewrite Pos.iter_succ, Pos2Z.inj_succ, Z.pow_succ_r by lia.
    rewrite Pos2Z.inj_xO, IH. lia.
Qed.

Lemma shl_align_value m e ez :
  ez ≤ e → Zpos (fst (shl_align m e ez)) = Zpos m * 2 ^ (e - ez).
Proof.
  intros Hle. unfold shl_align. destruct (ez - e) as [|d|d] eqn:E; simpl.
  - replace (e - ez) with 0 by lia. lia.
  - lia.
  - rewrite iter_xO_pow. f_equal. f_equal. lia.
Qed.

Lemma digits2_pos_bounds m :
  2 ^ (Zpos (digits2_pos m) - 1) ≤ Zpos m < 2 ^ Zpos (digits2_pos m).
Proof.
  induction m as [m IH|m IH|]; simpl digits2_pos.
  - rewrite Pos2Z.inj_succ, Z.pow_succ_r by lia.
    replace (Z.succ (Zpos (digits2_pos m)) - 1) with (Z.succ (Zpos (digits2_pos m) - 1)) by lia.
    rewrite Z.pow_succ_r by lia. lia.
  - rewrite Pos2Z.inj_succ, Z.pow_succ_r by lia.
    replace (Z.succ (Zpos (digits2_pos m)) - 1) with (Z.succ (Zpos (digits2_pos m) - 1)) by lia.
    rewrite Z.pow_succ_r by lia. lia.
  - simpl. lia.
Qed.

Lemma bounded_facts m e :
  bounded prec emax m e = true →
  -1074 ≤ e ∧ Zpos m < 2 ^ 53 ∧ (e = -1074 ∨ 2 ^ 52 ≤ Zpos m).
Proof.
  unfold bounded, canonical_mantissa, fexp, emin, prec, emax.
  intros [Hc _]%andb_prop. apply Z.eqb_eq in Hc.
  pose proof (digits2_pos_bounds m) as [Hlo Hhi].
  set (d := Zpos (digits2_pos m)) in *.
  assert (0 < d) by (unfold d; lia).
  assert (d ≤ 53) as Hd by lia.
  split; [lia|]. split.
  - eapply Z.lt_le_trans; [exact Hhi|]. apply Z.pow_le_mono_r; lia.
  - destruct (decide (e = -1074)) as [|Hne]; [by left|right].
    assert (d = 53) as Hd53 by lia. rewrite Hd53 in Hlo. exact Hlo.
Qed.

Lemma pow2_ge_2 n : 0 < n → 2 ≤ 2 ^ n.
Proof. intros Hn. change 2 with (2 ^ 1) at 1. apply Z.pow_le_mono_r; lia. Qed.

Lemma difference_sign sA mA eA sB mB eB :
  bounded prec emax mA eA = true → bounded prec emax mB eB = true →
  let D := aligned sA mA eA (Z.min eA eB) - aligned sB mB eB (Z.min eA eB) in
  if SFltb (S754_finite sB mB eB) (S754_finite sA mA eA) then 0 < D else D ≤ 0.
Proof.
  intros HA HB. unfold aligned.
  rewrite !shl_align_value by lia.
  destruct (bounded_facts _ _ HA) as (HeA & HmA & HnA).
  destruct (bounded_facts _ _ HB) as (HeB & HmB & HnB).
  unfold SFltb, SFcompare.
  assert (0 < Zpos mA) as HpA by lia. assert (0 < Zpos mB) as HpB by lia.
  destruct (Z.compare_spec eB eA) as [Heq|Hlt|Hgt].
  - subst eB. rewrite Z.min_id, Z.sub_diag, Z.pow_0_r, !Z.mul_1_r.
    rewrite Pos.compare_cont_spec. simpl Pos.switch_Eq.
    destruct (Pos.compare_spec mB mA); destruct sA, sB; simpl; lia.
  - rewrite Z.min_r by lia. rewrite Z.sub_diag, Z.pow_0_r, Z.mul_1_r.
    pose proof (pow2_ge_2 (eA - eB) ltac:(lia)) as HP.
    destruct HnA as [?|HnA]; [lia|].
    destruct sA, sB; simpl; nia.
  - rewrite Z.min_l by lia. rewrite Z.sub_diag, Z.pow_0_r, Z.mul_1_r.
    pose proof (pow2_ge_2 (eB - eA) ltac:(lia)) as HP.
    destruct HnB as [?|HnB]; [lia|].
    destruct sA, sB; simpl; nia.
Qed.

Lemma SFsub_finite sA mA eA sB mB eB :
  SF64sub (S754_finite sA mA eA) (S754_finite sB mB eB) =
  binary_normalize prec emax
    (aligned sA mA eA (Z.min eA eB) - aligned sB mB eB (Z.min eA eB)) (Z.min eA eB) false.
Proof. done. Qed.

Lemma SFsub_abs_finite sA mA eA sB mB eB E :
  bounded prec emax mA eA = true → bounded prec emax mB eB = true →
  let A := S754_finite sA mA eA in
  let B := S754_finite sB mB eB in
  SFltb (if SFltb B A then SF64sub A B else SF64sub B A) E = SFltb (SFabs (SF64sub A B)) E.
Proof.
  intros HA HB A B. pose proof (difference_sign sA mA eA sB mB eB HA HB) as HD.
  unfold A, B. rewrite !SFsub_finite. rewrite (Z.min_comm eB eA).
  simpl in HD. set (a := aligned sA mA eA _) in *. set (b := aligned sB mB eB _) in *.
  destruct (SFltb _ _).
  - destruct (a - b) as [|p|p] eqn:E1; try lia. simpl.
    symmetry. apply SFltb_abs_nonneg, binary_round_sign.
  - destruct (a - b) as [|p|p] eqn:E1; try lia.
    + replace (b - a) with 0 by lia. done.
    + replace (b - a) with (Zpos p) by lia. simpl.
      rewrite binary_round_opp. symmetry. apply SFltb_abs_opp, binary_round_sign.
Qed.

Lemma SFsub_abs A B E :
  valid_binary A = true → valid_binary B = true →
  SFltb (if SFltb B A then SF64sub A B else SF64sub B A) E = SFltb (SFabs (SF64sub A B)) E.
Proof.
  intros HA HB.
  destruct A as [sA|sA| |sA mA eA], B as [sB|sB| |sB mB eB];
    try (by apply SFsub_abs_finite);
    try (by destruct sA); try (by destruct sB);
    try (by destruct sA, sB, E as [[]|[]| |[] ? ?]).
  done.
Qed.

(** The conditional of [G_APPROX_VALUE] is the absolute value of the
    rounded difference, as far as a comparison can tell. *)
Lemma G_APPROX_VALUE_abs a b epsilon :
  G_APPROX_VALUE a b epsilon = PrimFloat.ltb (abs (a - b)) epsilon.
Proof.
  unfold G_APPROX_VALUE.
  assert (Prim2SF (if PrimFloat.ltb b a then a - b else b - a)%float =
          if SFltb (Prim2SF b) (Prim2SF a)
          then SF64sub (Prim2SF a) (Prim2SF b) else SF64sub (Prim2SF b) (Prim2SF a)) as Hif.
  { rewrite FloatAxioms.ltb_spec. destruct (SFltb _ _); apply FloatAxioms.sub_spec. }
  rewrite (FloatAxioms.ltb_spec _ epsilon), Hif.
  rewrite (FloatAxioms.ltb_spec _ epsilon), FloatAxioms.abs_spec, FloatAxioms.sub_spec.
  apply SFsub_abs; apply Prim2SF_valid.
Qed.
(** ** Equality of freshly constructed instances *)

Lemma next_loc_ne_live l v s : heap s !! l = Some v → l ≠ next_loc s.
Proof. intros H ->. by rewrite next_loc_fresh in H. Qed.

Lemma equal_constructed_int x y s :
  equal_constructed (gtk_int_accessible_value_new x) (gtk_int_accessible_value_new y) s =
  Done (x =? y)
    (with_new addr_GTK_INT_ACCESSIBLE_VALUE (GtkIntAccessibleValue y)
       (with_new addr_GTK_INT_ACCESSIBLE_VALUE (GtkIntAccessibleValue x) s)).
Proof.
  unfold equal_constructed.
  rewrite (bind_Done _ _ _ _ _ (gtk_int_accessible_value_new_spec _ _)).
  rewrite (bind_Done _ _ _ _ _ (gtk_int_accessible_value_new_spec _ _)).
  set (s1 := with_new _ _ s). set (s2 := with_new _ _ s1).
  assert (heap s1 !! next_loc s = Some (new_value addr_GTK_INT_ACCESSIBLE_VALUE
            (GtkIntAccessibleValue x))) as H1 by apply with_new_lookup.
  assert (heap s2 !! next_loc s = Some (new_value addr_GTK_INT_ACCESSIBLE_VALUE
            (GtkIntAccessibleValue x))) as H2 by (by apply with_new_lookup_old).
  assert (heap s2 !! next_loc s1 = Some (new_value addr_GTK_INT_ACCESSIBLE_VALUE
            (GtkIntAccessibleValue y))) as H3 by apply with_new_lookup.
  rewrite (gtk_accessible_value_equal_dispatch _ _ _ _ (next_loc_ne_live _ _ _ H1) H2).
  simpl. by eapply gtk_int_accessible_value_equal_spec.
Qed.

Lemma equal_constructed_number x y s :
  equal_constructed (gtk_number_accessible_value_new x) (gtk_number_accessible_value_new y) s =
  Done (G_APPROX_VALUE x y tolerance)
    (with_new addr_GTK_NUMBER_ACCESSIBLE_VALUE (GtkNumberAccessibleValue y)
       (with_new addr_GTK_NUMBER_ACCESSIBLE_VALUE (GtkNumberAccessibleValue x) s)).
Proof.
  unfold equal_constructed.
  rewrite (bind_Done _ _ _ _ _ (gtk_number_accessible_value_new_spec _ _)).
  rewrite (bind_Done _ _ _ _ _ (gtk_number_accessible_value_new_spec _ _)).
  set (s1 := with_new _ _ s). set (s2 := with_new _ _ s1).
  assert (heap s1 !! next_loc s = Some (new_value addr_GTK_NUMBER_ACCESSIBLE_VALUE
            (GtkNumberAccessibleValue x))) as H1 by apply with_new_lookup.
  assert (heap s2 !! next_loc s = Some (new_value addr_GTK_NUMBER_ACCESSIBLE_VALUE
            (GtkNumberAccessibleValue x))) as H2 by (by apply with_new_lookup_old).
  assert (heap s2 !! next_loc s1 = Some (new_value addr_GTK_NUMBER_ACCESSIBLE_VALUE
            (GtkNumberAccessibleValue y))) as H3 by apply with_new_lookup.
  rewrite (gtk_accessible_value_equal_dispatch _ _ _ _ (next_loc_ne_live _ _ _ H1) H2).
  simpl. by eapply gtk_number_accessible_value_equal_spec.
Qed.

Lemma equal_constructed_string a b s :
  equal_constructed (gtk_string_accessible_value_new (Some a))
    (gtk_string_accessible_value_new (Some b)) s =
  Done (bool_decide (a = b))
    (with_new addr_GTK_STRING_ACCESSIBLE_VALUE
       (GtkStringAccessibleValue (Some b) (Z.of_nat (String.length b)))
       (with_new addr_GTK_STRING_ACCESSIBLE_VALUE
          (GtkStringAccessibleValue (Some a) (Z.of_nat (String.length a))) s)).
Proof.
  unfold equal_constructed.
  rewrite (bind_Done _ _ _ _ _ (gtk_string_accessible_value_new_spec _ _)).
  rewrite (bind_Done _ _ _ _ _ (gtk_string_accessible_value_new_spec _ _)).
  set (s1 := with_new _ _ s). set (s2 := with_new _ _ s1).
  assert (heap s1 !! next_loc s = Some (new_value addr_GTK_STRING_ACCESSIBLE_VALUE
            (GtkStringAccessibleValue (Some a) (Z.of_nat (String.length a))))) as H1
    by apply with_new_lookup.
  assert (heap s2 !! next_loc s = Some (new_value addr_GTK_STRING_ACCESSIBLE_VALUE
            (GtkStringAccessibleValue (Some a) (Z.of_nat (String.length a))))) as H2
    by (by apply with_new_lookup_old).
  assert (heap s2 !! next_loc s1 = Some (new_value addr_GTK_STRING_ACCESSIBLE_VALUE
            (GtkStringAccessibleValue (Some b) (Z.of_nat (String.length b))))) as H3
    by apply with_new_lookup.
  rewrite (gtk_accessible_value_equal_dispatch _ _ _ _ (next_loc_ne_live _ _ _ H1) H2).
  simpl. by eapply gtk_string_accessible_value_equal_spec.
Qed.

Lemma two_references_equal o o' ob ob' s :
  objects s !! o = Some ob → is_accessible ob = true →
  objects s !! o' = Some ob' → is_accessible ob' = true →
  ∃ a s1 b s2,
    gtk_reference_accessible_value_new (Some o) s = Done a s1 ∧
    gtk_reference_accessible_value_new (Some o') s1 = Done b s2 ∧
    gtk_accessible_value_equal a b s2 = Done (bool_decide (o = o')) s2.
Proof.
  intros Ho Ha Ho' Ha'.
  pose proof (gtk_reference_accessible_value_new_spec _ _ _ Ho Ha) as Hn1.
  set (s1 := with_weak_ref _ _ _ _) in Hn1.
  assert (∃ ob1, objects s1 !! o' = Some ob1 ∧ is_accessible ob1 = true) as (ob1 & Ho1 & Ha1).
  { unfold s1, with_weak_ref. simpl. destruct (decide (o = o')) as [->|Hne].
    - rewrite lookup_insert_eq. eexists. split; [done|]. simpl. congruence.
    - rewrite lookup_insert_ne by done. eauto. }
  pose proof (gtk_reference_accessible_value_new_spec _ _ _ Ho1 Ha1) as Hn2.
  set (s2 := with_weak_ref _ _ _ _) in Hn2.
  exists (Some (next_loc s)), s1, (Some (next_loc s1)), s2.
  split; [exact Hn1|]. split; [exact Hn2|].
  assert (heap s1 !! next_loc s = Some (new_value addr_GTK_REFERENCE_ACCESSIBLE_VALUE
            (GtkReferenceAccessibleValue (Some o)))) as H1 by apply with_new_lookup.
  assert (heap s2 !! next_loc s = Some (new_value addr_GTK_REFERENCE_ACCESSIBLE_VALUE
            (GtkReferenceAccessibleValue (Some o)))) as H2
    by (by apply (with_new_lookup_old _ _ s1)).
  assert (heap s2 !! next_loc s1 = Some (new_value addr_GTK_REFERENCE_ACCESSIBLE_VALUE
            (GtkReferenceAccessibleValue (Some o')))) as H3
    by apply (with_new_lookup _ _ s1).
  rewrite (gtk_accessible_value_equal_dispatch _ _ _ _ (next_loc_ne_live _ _ _ H1) H2).
  simpl. erewrite gtk_reference_accessible_value_equal_spec by done.
  f_equal. apply bool_decide_ext. split; congruence.
Qed.

Lemma equal_constructed_reference o o' ob ob' s :
  objects s !! o = Some ob → is_accessible ob = true →
  objects s !! o' = Some ob' → is_accessible ob' = true →
  ∃ s',
    equal_constructed (gtk_reference_accessible_value_new (Some o))
      (gtk_reference_accessible_value_new (Some o')) s =
    Done (bool_decide (o = o')) s'.
Proof.
  intros Ho Ha Ho' Ha'.
  destruct (two_references_equal o o' ob ob' s) as (a & s1 & b & s2 & H1 & H2 & H3);
    [done..|].
  exists s2. unfold equal_constructed.
  by rewrite (bind_Done _ _ _ _ _ H1), (bind_Done _ _ _ _ _ H2).
Qed.

(** C3, as amended: two instances constructed from payloads [p] and [p']
    compare by the rule of their kind: exact equality for integers and
    strings, identity of the object for references, [G_APPROX_VALUE] with
    tolerance 0.001 for numbers. So equal payloads give equal instances
    and different payloads unequal ones for integers, strings and
    references, and for numbers a payload is equal to itself exactly when
    it is finite. *)
Theorem equal_constructed_by_kind (s : state) :
  (∀ x y, ∃ s',
     equal_constructed (gtk_int_accessible_value_new x) (gtk_int_accessible_value_new y) s =
     Done (bool_decide (x = y)) s') ∧
  (∀ a b, ∃ s',
     equal_constructed (gtk_string_accessible_value_new (Some a))
       (gtk_string_accessible_value_new (Some b)) s =
     Done (bool_decide (a = b)) s') ∧
  (∀ o o' ob ob',
     objects s !! o = Some ob → is_accessible ob = true →
     objects s !! o' = Some ob' → is_accessible ob' = true →
     ∃ s',
       equal_constructed (gtk_reference_accessible_value_new (Some o))
         (gtk_reference_accessible_value_new (Some o')) s =
       Done (bool_decide (o = o')) s') ∧
  (∀ x y, ∃ s',
     equal_constructed (gtk_number_accessible_value_new x)
       (gtk_number_accessible_value_new y) s =
     Done (G_APPROX_VALUE x y tolerance) s') ∧
  (∀ x, ∃ s',
     equal_constructed (gtk_number_accessible_value_new x)
       (gtk_number_accessible_value_new x) s =
     Done (is_finite x) s').
Proof.
  repeat split.
  - intros x y. eexists. rewrite equal_constructed_int. f_equal.
    destruct (Z.eqb_spec x y); [by rewrite bool_decide_true|by rewrite bool_decide_false].
  - intros a b. eexists. apply equal_constructed_string.
  - intros o o' ob ob' Ho Ha Ho' Ha'. by eapply equal_constructed_reference.
  - intros x y. eexists. apply equal_constructed_number.
  - intros x. eexists. by rewrite equal_constructed_number, G_APPROX_VALUE_diag.
Qed.

(** C4: number values compare with tolerance 0.001. A value constructed
    from 1.0 is equal to one constructed from 1.0005 and not equal to one
    constructed from 1.002; two distinct number instances with payloads
    [x] and [y] are equal exactly when the absolute value of the binary64
    difference [x - y] is strictly below the binary64 number 0.001. *)
Theorem number_equality_tolerance (s : state) :
  (∃ s', equal_constructed (gtk_number_accessible_value_new 1%float)
           (gtk_number_accessible_value_new near_1_0005) s = Done true s') ∧
  (∃ s', equal_constructed (gtk_number_accessible_value_new 1%float)
           (gtk_number_accessible_value_new near_1_002) s = Done false s') ∧
  (∀ x y, ∃ s',
     equal_constructed (gtk_number_accessible_value_new x)
       (gtk_number_accessible_value_new y) s =
     Done (PrimFloat.ltb (abs (x - y)) tolerance) s') ∧
  (∀ la lb va vb x y,
     la ≠ lb →
     heap s !! la = Some va → value_class va = addr_GTK_NUMBER_ACCESSIBLE_VALUE →
     fields va = GtkNumberAccessibleValue x →
     heap s !! lb = Some vb → fields vb = GtkNumberAccessibleValue y →
     gtk_accessible_value_equal (Some la) (Some lb) s =
     Done (PrimFloat.ltb (abs (x - y)) tolerance) s).
Proof.
  split; [|split; [|split]].
  - eexists. by rewrite equal_constructed_number.
  - eexists. by rewrite equal_constructed_number.
  - intros x y. eexists. by rewrite equal_constructed_number, G_APPROX_VALUE_abs.
  - intros la lb va vb x y Hne Ha Hc Hfa Hb Hfb.
    rewrite (gtk_accessible_value_equal_dispatch _ _ _ _ Hne Ha), Hc. simpl.
    rewrite <- G_APPROX_VALUE_abs. by eapply gtk_number_accessible_value_equal_spec.
Qed.

(** ** Reference counting *)

Lemma int_wrap_id z : INT_MIN ≤ z ≤ INT_MAX → int_wrap z = z.
Proof.
  unfold int_wrap, INT_MIN, INT_MAX. intros Hz. rewrite Z.mod_small; lia.
Qed.

Lemma int_wrap_range z : INT_MIN ≤ int_wrap z ≤ INT_MAX.
Proof.
  unfold int_wrap, INT_MIN, INT_MAX.
  pose proof (Z.mod_pos_bound (z - -2147483648) (2 ^ 32) ltac:(lia)). lia.
Qed.

Lemma gtk_accessible_value_ref_spec l v s :
  heap s !! l = Some v →
  gtk_accessible_value_ref (Some l) s =
  Done (Some l) (set_heap (<[l := with_count v (int_wrap (ref_count v + 1))]> (heap s)) s).
Proof.
  intros H. unfold gtk_accessible_value_ref, g_return_val_if_fail.
  rewrite bool_decide_true by done.
  rewrite (bind_Done _ _ _ _ _ (deref_live _ _ _ H)).
  by rewrite (bind_Done _ _ _ _ _ (set_ref_count_live _ _ _ _ H)).
Qed.

(** The overflow case: a retain at [INT_MAX] leaves the instance live with
    the count [INT_MIN]. *)
Lemma gtk_accessible_value_ref_at_INT_MAX l v s :
  heap s !! l = Some v → ref_count v = INT_MAX →
  gtk_accessible_value_ref (Some l) s =
  Done (Some l) (set_heap (<[l := with_count v INT_MIN]> (heap s)) s).
Proof.
  intros H Hmax. rewrite (gtk_accessible_value_ref_spec l v s H). by rewrite Hmax.
Qed.

Lemma gtk_accessible_value_unref_keep l v s :
  heap s !! l = Some v → int_wrap (ref_count v - 1) ≠ 0 →
  gtk_accessible_value_unref (Some l) s =
  Done tt (set_heap (<[l := with_count v (int_wrap (ref_count v - 1))]> (heap s)) s).
Proof.
  intros H Hrc. unfold gtk_accessible_value_unref, g_return_val_if_fail.
  rewrite bool_decide_true by done.
  rewrite (bind_Done _ _ _ _ _ (deref_live _ _ _ H)).
  rewrite (bind_Done _ _ _ _ _ (set_ref_count_live _ _ _ _ H)).
  erewrite bind_Done; [|apply deref_live, lookup_insert_eq].
  simpl. destruct (Z.eqb_spec (int_wrap (ref_count v - 1)) 0); [done|done].
Qed.

(** The part of [gtk_accessible_value_unref] that runs once the count has
    reached zero. *)
Lemma gtk_accessible_value_unref_last l v s :
  heap s !! l = Some v → int_wrap (ref_count v - 1) = 0 →
  gtk_accessible_value_unref (Some l) s =
  (match finalize (class_at (value_class v)) with
   | Some f => modify (add_log (EvFinalize l));; f (Some l)
   | None => mret tt
   end;; g_free (Some l))
    (set_heap (<[l := with_count v 0]> (heap s)) s).
Proof.
  intros H Hrc. unfold gtk_accessible_value_unref, g_return_val_if_fail.
  rewrite bool_decide_true by done.
  rewrite (bind_Done _ _ _ _ _ (deref_live _ _ _ H)).
  rewrite (bind_Done _ _ _ _ _ (set_ref_count_live _ _ _ _ H)).
  erewrite bind_Done; [|apply deref_live, lookup_insert_eq].
  rewrite Hrc. simpl. by destruct (finalize _).
Qed.

Lemma retain_spec l v s :
  heap s !! l = Some v →
  retain (Some l) s =
  Done tt (set_heap (<[l := with_count v (int_wrap (ref_count v + 1))]> (heap s)) s).
Proof.
  intros H. unfold retain.
  by rewrite (bind_Done _ _ _ _ _ (gtk_accessible_value_ref_spec _ _ _ H)).
Qed.

Lemma with_count_id v : with_count v (ref_count v) = v.
Proof. by destruct v. Qed.

Lemma with_count_with_count v n m : with_count (with_count v n) m = with_count v m.
Proof. done. Qed.

Lemma set_count_id l v s :
  heap s !! l = Some v → set_heap (<[l := with_count v (ref_count v)]> (heap s)) s = s.
Proof. intros H. by rewrite with_count_id, insert_id, set_heap_id. Qed.

(** Retains that stay inside the range of the count add up. *)
Lemma repeat_retain n l v s :
  heap s !! l = Some v →
  INT_MIN ≤ ref_count v → ref_count v + Z.of_nat n ≤ INT_MAX →
  repeatM n (retain (Some l)) s =
  Done tt (set_heap (<[l := with_count v (ref_count v + Z.of_nat n)]> (heap s)) s).
Proof.
  revert s v. induction n as [|n IH]; intros s v H Hlo Hhi.
  - simpl. by rewrite Z.add_0_r, set_count_id.
  - cbn [repeatM]. rewrite (bind_Done _ _ _ _ _ (retain_spec _ _ _ H)).
    rewrite int_wrap_id by lia.
    erewrite IH; [|apply lookup_insert_eq|simpl; lia..].
    rewrite set_heap_set_heap, set_heap_heap, insert_insert_eq, with_count_with_count.
    assert (ref_count (with_count v (ref_count v + 1)) + Z.of_nat n =
            ref_count v + Z.of_nat (S n)) as -> by (simpl; lia).
    done.
Qed.

(** Releases that leave at least one reference take one off each. *)
Lemma repeat_release n l v s :
  heap s !! l = Some v → Z.of_nat n < ref_count v → ref_count v ≤ INT_MAX →
  repeatM n (release (Some l)) s =
  Done tt (set_heap (<[l := with_count v (ref_count v - Z.of_nat n)]> (heap s)) s).
Proof.
  revert s v. induction n as [|n IH]; intros s v H Hn Hhi.
  - simpl. by rewrite Z.sub_0_r, set_count_id.
  - cbn [repeatM]. unfold release at 1.
    assert (int_wrap (ref_count v - 1) = ref_count v - 1) as Hw
      by (apply int_wrap_id; unfold INT_MIN; lia).
    rewrite (bind_Done _ _ _ _ _ (gtk_accessible_value_unref_keep _ _ _ H ltac:(lia))).
    rewrite Hw.
    erewrite IH; [|apply lookup_insert_eq|simpl; lia..].
    rewrite set_heap_set_heap, set_heap_heap, insert_insert_eq, with_count_with_count.
    assert (ref_count (with_count v (ref_count v - 1)) - Z.of_nat n =
            ref_count v - Z.of_nat (S n)) as -> by (simpl; lia).
    done.
Qed.

Lemma gtk_accessible_value_unref_last_spec l v s :
  heap s !! l = Some v → int_wrap (ref_count v - 1) = 0 → well_formed_at s l v →
  gtk_accessible_value_unref (Some l) s =
  Done tt {| heap := delete l (heap s);
             objects := objects_without l v s;
             log := log s ++ last_release_events l v |}.
Proof.
  intros H Hrc Hwf. rewrite (gtk_accessible_value_unref_last _ _ _ H Hrc).
  set (s1 := set_heap _ s).
  assert (heap s1 !! l = Some (with_count v 0)) as H1 by apply lookup_insert_eq.
  unfold well_formed_at in Hwf. unfold last_release_events, objects_without.
  destruct v as [c rc f]. simpl in *.
  destruct c, f as [x|x|x n|[o|]]; try done; simpl.
  - unfold g_free, mbind, M_bind, mret, M_ret. simpl. rewrite lookup_insert_eq.
    unfold add_log, set_heap. simpl. by rewrite delete_insert_eq.
  - unfold g_free, mbind, M_bind, mret, M_ret. simpl. rewrite lookup_insert_eq.
    unfold add_log, set_heap. simpl. by rewrite delete_insert_eq.
  - unfold g_free, gtk_string_accessible_value_finalize, string_value, deref, modify,
      mbind, M_bind, mret, M_ret. simpl. rewrite lookup_insert_eq. simpl.
    rewrite lookup_insert_eq. unfold add_log, set_heap. simpl.
    by rewrite delete_insert_eq, <- app_assoc.
  - destruct Hwf as (ob & Hob & Hin). rewrite Hob.
    unfold g_free, gtk_reference_accessible_value_finalize, reference_ref, deref, modify,
      g_object_weak_unref, g_object, set_weak_refs, mbind, M_bind, mret, M_ret. simpl.
    rewrite lookup_insert_eq. simpl. rewrite Hob. rewrite decide_True by done. simpl.
    rewrite lookup_insert_eq. unfold add_log, set_heap, set_objects. simpl.
    by rewrite delete_insert_eq, <- app_assoc.
  - unfold g_free, gtk_reference_accessible_value_finalize, reference_ref, deref, modify,
      mbind, M_bind, mret, M_ret. simpl. rewrite lookup_insert_eq. simpl.
    rewrite lookup_insert_eq. unfold add_log, set_heap. simpl.
    by rewrite delete_insert_eq, <- app_assoc.
Qed.

(** C5, as amended: on a live instance with one reference, [n] calls of
    [gtk_accessible_value_ref] followed by [n] calls of
    [gtk_accessible_value_unref], for an [n] of at most [INT_MAX - 1] so
    that the count stays in the range of its [int], give back the very
    same state: the count is 1 again, class and fields are as before, and
    nothing was finalized or freed. One more [gtk_accessible_value_unref]
    runs the finalize function of the class once, if the class has one
    (string, reference; integer and number have none), and then frees the
    instance. *)
Theorem retain_release_balance (s : state) (l : loc) (v : GtkAccessibleValue) (n : nat) :
  heap s !! l = Some v → ref_count v = 1 → well_formed_at s l v →
  Z.of_nat n ≤ INT_MAX - 1 →
  (repeatM n (retain (Some l));; repeatM n (release (Some l))) s = Done tt s ∧
  ∃ s',
    release (Some l) s = Done tt s' ∧
    heap s' = delete l (heap s) ∧
    log s' = log s ++ last_release_events l v ∧
    last_release_events l v =
      match value_class v with
      | addr_GTK_STRING_ACCESSIBLE_VALUE | addr_GTK_REFERENCE_ACCESSIBLE_VALUE =>
          [EvFinalize l; EvFree l]
      | addr_GTK_INT_ACCESSIBLE_VALUE | addr_GTK_NUMBER_ACCESSIBLE_VALUE => [EvFree l]
      end.
Proof.
  intros H Hrc Hwf Hn. split.
  - rewrite (bind_Done _ _ _ _ _ (repeat_retain n _ _ _ H ltac:(unfold INT_MIN; lia)
                                    ltac:(lia))).
    erewrite repeat_release; [|apply lookup_insert_eq|simpl; lia..].
    rewrite set_heap_set_heap, set_heap_heap, insert_insert_eq, with_count_with_count.
    simpl. replace (ref_count v + Z.of_nat n - Z.of_nat n) with (ref_count v) by lia.
    by rewrite set_count_id.
  - eexists. split; [apply gtk_accessible_value_unref_last_spec; [done|by rewrite Hrc|done]|].
    split; [done|]. split; [done|].
    unfold last_release_events. by destruct (value_class v).
Qed.

(** ** Defaults *)

Lemma table_row_states st :
  st ≠ GTK_ACCESSIBLE_STATE_NONE →
  ∃ row, collect_states !! Z.to_nat (state_int st) = Some row ∧
         table_row collect_states (state_int st) = mret row ∧
         state_of_int (value row) = Some st.
Proof. intros H. destruct st; try done; eexists; by repeat split. Qed.

Lemma table_row_props p :
  ∃ row, collect_props !! Z.to_nat (property_int p) = Some row ∧
         table_row collect_props (property_int p) = mret row ∧
         property_of_int (value row) = Some p.
Proof. destruct p; eexists; by repeat split. Qed.

Lemma default_for_state_BUSY s :
  gtk_accessible_value_get_default_for_state GTK_ACCESSIBLE_STATE_BUSY s =
  gtk_boolean_accessible_value_new FALSE s.
Proof. done. Qed.

Lemma default_for_property_string_group p s :
  p = GTK_ACCESSIBLE_PROPERTY_LABEL ∨ p = GTK_ACCESSIBLE_PROPERTY_VALUE_TEXT →
  gtk_accessible_value_get_default_for_property p s =
  gtk_string_accessible_value_new (Some ""%string) s.
Proof. by intros [-> | ->]. Qed.

Lemma default_for_property_reference_group p s :
  p ∈ [ GTK_ACCESSIBLE_PROPERTY_ACTIVE_DESCENDANT; GTK_ACCESSIBLE_PROPERTY_CONTROLS;
        GTK_ACCESSIBLE_PROPERTY_DESCRIBED_BY; GTK_ACCESSIBLE_PROPERTY_FLOW_TO;
        GTK_ACCESSIBLE_PROPERTY_LABELLED_BY; GTK_ACCESSIBLE_PROPERTY_OWNS;
        GTK_ACCESSIBLE_PROPERTY_RELEVANT ] →
  gtk_accessible_value_get_default_for_property p s = Done None s.
Proof. intros H. repeat (apply elem_of_cons in H as [-> | H]; [done|]). by apply elem_of_nil in H. Qed.

(** C9: the default of the busy state is equal to the boolean value for
    [FALSE], the default of the label property is equal to a string value
    constructed from the empty string, and the active-descendant property
    has no default: the result is [NULL] and nothing is logged. *)
Theorem default_values_busy_label_active_descendant (s : state) :
  (∃ s', equal_constructed
           (gtk_accessible_value_get_default_for_state GTK_ACCESSIBLE_STATE_BUSY)
           (gtk_boolean_accessible_value_new FALSE) s = Done true s') ∧
  (∃ s', equal_constructed
           (gtk_accessible_value_get_default_for_property GTK_ACCESSIBLE_PROPERTY_LABEL)
           (gtk_string_accessible_value_new (Some ""%string)) s = Done true s') ∧
  gtk_accessible_value_get_default_for_property GTK_ACCESSIBLE_PROPERTY_ACTIVE_DESCENDANT s =
    Done None s.
Proof.
  split; [|split].
  - exists s. unfold equal_constructed.
    erewrite bind_Done; [|apply default_for_state_BUSY].
    erewrite bind_Done; [|reflexivity].
    unfold gtk_accessible_value_equal. by rewrite bool_decide_true.
  - eexists.
    pose proof (equal_constructed_string "" "" s) as H. unfold equal_constructed in *.
    unfold mbind, M_bind in *.
    rewrite default_for_property_string_group by auto. exact H.
  - done.
Qed.

(** C1 fails on the code: [GTK_ACCESSIBLE_PROPERTY_RELEVANT] is collected as
    a string in [collect_props], but its default is taken in the branch of
    the reference properties, which returns [NULL]; the other two string
    properties get a value constructed from the empty string. *)
Theorem default_for_property_relevant_is_NULL (s : state) :
  (∃ row, collect_props !! Z.to_nat (property_int GTK_ACCESSIBLE_PROPERTY_RELEVANT) = Some row ∧
          ctype row = GTK_ACCESSIBLE_COLLECT_STRING) ∧
  gtk_accessible_value_get_default_for_property GTK_ACCESSIBLE_PROPERTY_RELEVANT s =
    Done None s ∧
  gtk_string_accessible_value_new (Some ""%string) s ≠ Done None s ∧
  (∀ p row, collect_props !! Z.to_nat (property_int p) = Some row →
            ctype row = GTK_ACCESSIBLE_COLLECT_STRING →
            p ≠ GTK_ACCESSIBLE_PROPERTY_RELEVANT →
            gtk_accessible_value_get_default_for_property p s =
            gtk_string_accessible_value_new (Some ""%string) s).
Proof.
  split; [by eexists|]. split; [done|]. split.
  - by rewrite gtk_string_accessible_value_new_spec.
  - intros p row Hrow Hty Hp. destruct p; simpl in Hrow; injection Hrow as <-; done.
Qed.

(** ** The two decoders *)

Lemma collect_from_args_invoke func row i rest s :
  fits s (ctype row) i →
  collect_from_args func row (positional i :: rest) =
  (res ← invoke (ctor row) i; mret (res, rest)).
Proof. destruct row as [? [] ? ?], i as [| | |[]]; by simpl. Qed.

Lemma collect_from_value_invoke func row i s :
  fits s (ctype row) i →
  collect_from_value func row (boxed (ctype row) i) = invoke (ctor row) i.
Proof. destruct row as [? [] ? ?], i as [| | |[]]; by simpl. Qed.

Lemma equal_constructed_steps (new_a new_b : M pointer) s a s1 b s2 r s' :
  new_a s = Done a s1 → new_b s1 = Done b s2 →
  equal_constructed new_a new_b s = Done r s' →
  gtk_accessible_value_equal a b s2 = Done r s'.
Proof.
  intros Ha Hb. unfold equal_constructed.
  by rewrite (bind_Done _ _ _ _ _ Ha), (bind_Done _ _ _ _ _ Hb).
Qed.

Lemma gtk_reference_accessible_value_new_not_accessible o ob s :
  objects s !! o = Some ob → is_accessible ob = false →
  gtk_reference_accessible_value_new (Some o) s =
  Done None (add_log (EvCritical "gtk_reference_accessible_value_new"
                        "GTK_IS_ACCESSIBLE (ref)") s).
Proof.
  intros H Hacc. unfold gtk_reference_accessible_value_new, GTK_IS_ACCESSIBLE.
  erewrite bind_Done; cycle 1.
  { by rewrite (bind_Done _ _ _ _ _ (g_object_live _ _ _ H)), ret_Done, Hacc. }
  done.
Qed.

Lemma collect_states_consistent row : row ∈ collect_states → row_consistent row.
Proof.
  intros H. unfold collect_states in H.
  repeat (apply elem_of_cons in H as [-> | H]; [by unfold row_consistent; simpl|]).
  by apply elem_of_nil in H.
Qed.

Lemma collect_props_consistent row : row ∈ collect_props → row_consistent row.
Proof.
  intros H. unfold collect_props in H.
  repeat (apply elem_of_cons in H as [-> | H]; [by unfold row_consistent; simpl|]).
  by apply elem_of_nil in H.
Qed.

Lemma invoke_twice_equal row i s :
  row_consistent row → fits s (ctype row) i →
  ∃ a s1 b s2,
    invoke (ctor row) i s = Done a s1 ∧
    invoke (ctor row) i s1 = Done b s2 ∧
    gtk_accessible_value_equal a b s2 = Done true s2.
Proof.
  destruct row as [z t nm f]. unfold row_consistent. simpl.
  destruct t, i as [v|x|str|[o|]]; try done; simpl.
  - (* boolean *)
    intros -> _. exists (static_instance f v), s, (static_instance f v), s.
    repeat split. unfold gtk_accessible_value_equal. by rewrite bool_decide_true.
  - (* int *)
    intros -> _. eexists _, _, _, _.
    split; [apply gtk_int_accessible_value_new_spec|].
    split; [apply gtk_int_accessible_value_new_spec|].
    eapply equal_constructed_steps; [apply gtk_int_accessible_value_new_spec..|].
    by rewrite equal_constructed_int, Z.eqb_refl.
  - (* tristate *)
    intros -> _. exists (static_instance f v), s, (static_instance f v), s.
    repeat split. unfold gtk_accessible_value_equal. by rewrite bool_decide_true.
  - (* enum *)
    intros -> _. exists (static_instance f v), s, (static_instance f v), s.
    repeat split. unfold gtk_accessible_value_equal. by rewrite bool_decide_true.
  - (* number *)
    intros -> Hfin. eexists _, _, _, _.
    split; [apply gtk_number_accessible_value_new_spec|].
    split; [apply gtk_number_accessible_value_new_spec|].
    eapply equal_constructed_steps; [apply gtk_number_accessible_value_new_spec..|].
    by rewrite equal_constructed_number, G_APPROX_VALUE_diag, Hfin.
  - (* string *)
    intros -> _. eexists _, _, _, _.
    split; [apply gtk_string_accessible_value_new_spec|].
    split; [apply gtk_string_accessible_value_new_spec|].
    eapply equal_constructed_steps; [apply gtk_string_accessible_value_new_spec..|].
    by rewrite equal_constructed_string, bool_decide_true.
  - (* reference to a live object *)
    intros -> [ob Hob]. destruct (is_accessible ob) eqn:Hacc.
    + destruct (two_references_equal o o ob ob s) as (a & s1 & b & s2 & H1 & H2 & H3);
        [done..|].
      rewrite bool_decide_true in H3 by done. by exists a, s1, b, s2.
    + eexists _, _, _, _.
      split; [by apply (gtk_reference_accessible_value_new_not_accessible o ob)|].
      split; [by apply (gtk_reference_accessible_value_new_not_accessible o ob)|].
      done.
  - (* NULL reference *)
    intros -> _. eexists _, _, _, _. repeat split.
Qed.

Lemma row_decoders_agree func func' row i rest s :
  row_consistent row → fits s (ctype row) i →
  ∃ a s1 b s2,
    collect_from_args func row (positional i :: rest) s = Done (a, rest) s1 ∧
    collect_from_value func' row (boxed (ctype row) i) s1 = Done b s2 ∧
    gtk_accessible_value_equal a b s2 = Done true s2.
Proof.
  intros Hrow Hfits.
  destruct (invoke_twice_equal row i s Hrow Hfits) as (a & s1 & b & s2 & H1 & H2 & H3).
  exists a, s1, b, s2.
  rewrite (collect_from_args_invoke _ _ _ _ s Hfits).
  rewrite (collect_from_value_invoke _ _ _ s Hfits).
  by rewrite (bind_Done _ _ _ _ _ H1).
Qed.

(** C7, as amended: for every property and every state, and for every
    typed input of the type its table row collects, where a number is
    finite and an object pointer is [NULL] or points to a live object, the
    decoder that reads the next variadic argument and the decoder that
    reads a [GValue] both call the constructor registered in the row on
    that input; both return, the first leaves the rest of the argument
    list, and the two results are equal for [gtk_accessible_value_equal]. *)
Theorem decoders_agree (s : state) (i : typed_input) (rest : va_list) :
  (∀ property row,
     collect_props !! Z.to_nat (property_int property) = Some row →
     fits s (ctype row) i →
     (∀ s0, gtk_accessible_value_collect_for_property property (positional i :: rest) s0 =
            (res ← invoke (ctor row) i; mret (res, rest)) s0) ∧
     (∀ s0, gtk_accessible_value_collect_for_property_value property (boxed (ctype row) i) s0 =
            invoke (ctor row) i s0) ∧
     ∃ a s1 b s2,
       gtk_accessible_value_collect_for_property property (positional i :: rest) s =
         Done (a, rest) s1 ∧
       gtk_accessible_value_collect_for_property_value property (boxed (ctype row) i) s1 =
         Done b s2 ∧
       gtk_accessible_value_equal a b s2 = Done true s2) ∧
  (∀ state row,
     state ≠ GTK_ACCESSIBLE_STATE_NONE →
     collect_states !! Z.to_nat (state_int state) = Some row →
     fits s (ctype row) i →
     (∀ s0, gtk_accessible_value_collect_for_state state (positional i :: rest) s0 =
            (res ← invoke (ctor row) i; mret (res, rest)) s0) ∧
     (∀ s0, gtk_accessible_value_collect_for_state_value state (boxed (ctype row) i) s0 =
            invoke (ctor row) i s0) ∧
     ∃ a s1 b s2,
       gtk_accessible_value_collect_for_state state (positional i :: rest) s =
         Done (a, rest) s1 ∧
       gtk_accessible_value_collect_for_state_value state (boxed (ctype row) i) s1 =
         Done b s2 ∧
       gtk_accessible_value_equal a b s2 = Done true s2).
Proof.
  split.
  - intros property row Hrow Hfits.
    destruct (table_row_props property) as (row' & Hrow' & Htab & _).
    assert (row' = row) as -> by congruence.
    assert (row_consistent row) as Hcons
      by (eapply collect_props_consistent, list_elem_of_lookup_2, Hrow).
    unfold gtk_accessible_value_collect_for_property,
      gtk_accessible_value_collect_for_property_value.
    rewrite Htab. split; [|split].
    + intros s0. by rewrite <- (collect_from_args_invoke
        "gtk_accessible_value_collect_for_property" _ _ _ s Hfits).
    + intros s0. by rewrite <- (collect_from_value_invoke
        "gtk_accessible_value_collect_for_property_value" _ _ s Hfits).
    + by apply row_decoders_agree.
  - intros state row Hst Hrow Hfits.
    destruct (table_row_states state Hst) as (row' & Hrow' & Htab & _).
    assert (row' = row) as -> by congruence.
    assert (row_consistent row) as Hcons
      by (eapply collect_states_consistent, list_elem_of_lookup_2, Hrow).
    unfold gtk_accessible_value_collect_for_state,
      gtk_accessible_value_collect_for_state_value, g_assert.
    rewrite bool_decide_true by done. rewrite Htab. split; [|split].
    + intros s0. by rewrite <- (collect_from_args_invoke
        "gtk_accessible_value_collect_for_state" _ _ _ s Hfits).
    + intros s0. by rewrite <- (collect_from_value_invoke
        "gtk_accessible_value_collect_for_state_value" _ _ s Hfits).
    + by apply row_decoders_agree.
Qed.

(** ** Object life time and the weak link *)

Lemma evolves_refl s : evolves s s.
Proof. intros l v Hv. eauto. Qed.

Lemma evolves_trans s1 s2 s3 : evolves s1 s2 → evolves s2 s3 → evolves s1 s3.
Proof.
  intros H12 H23 l v Hv.
  destruct (H12 l v Hv) as (v2 & Hv2 & Hc2 & Hf2).
  destruct (H23 l v2 Hv2) as (v3 & Hv3 & Hc3 & Hf3).
  exists v3. split; [done|]. split; [congruence|].
  destruct Hf3 as [Hf3|Hf3]; [|by right]. destruct Hf2 as [Hf2|Hf2]; [left|right]; congruence.
Qed.

Lemma steps_to_refl s : steps_to s s.
Proof. split; [done|apply evolves_refl]. Qed.

Lemma steps_to_trans s1 s2 s3 : steps_to s1 s2 → steps_to s2 s3 → steps_to s1 s3.
Proof. intros [Hw1 He1] [Hw2 He2]. split; [auto|by eapply evolves_trans]. Qed.

(** A state with the same heap and objects: only the log differs. *)
Lemma steps_to_same_store s s' :
  heap s' = heap s → objects s' = objects s → steps_to s s'.
Proof.
  intros Hh Ho. split.
  - intros [W1 W2 W3 W4]. split; rewrite ?Hh, ?Ho; eauto.
  - intros l v Hv. rewrite Hh. eauto.
Qed.

Lemma respects_ret {A} (a : A) : respects (mret a).
Proof. intros s a' s' [= <- <-]. apply steps_to_refl. Qed.

Lemma respects_crash {A} e : respects (crash (A := A) e).
Proof. by intros s a s' ?. Qed.

Lemma respects_bind {A B} (m : M A) (f : A → M B) :
  respects m → (∀ a, respects (f a)) → respects (m ≫= f).
Proof.
  intros Hm Hf s b s'. unfold mbind, M_bind.
  destruct (m s) as [a s1|] eqn:E; [|done].
  intros Hfa. eapply steps_to_trans; [by eapply Hm|by eapply Hf].
Qed.

Lemma respects_g_critical func expr : respects (g_critical func expr).
Proof. intros s a s' [= _ <-]. by apply steps_to_same_store. Qed.

Lemma respects_g_return_val_if_fail {A} c func expr (val : A) k :
  respects k → respects (g_return_val_if_fail c func expr val k).
Proof.
  intros Hk. unfold g_return_val_if_fail. destruct c; [done|].
  apply respects_bind; [apply respects_g_critical|intros; apply respects_ret].
Qed.

Lemma respects_g_assert {A} c (k : M A) : respects k → respects (g_assert c k).
Proof. intros Hk. unfold g_assert. destruct c; [done|apply respects_crash]. Qed.

Lemma respects_deref p : respects (deref p).
Proof.
  intros s a s'. unfold deref. destruct p as [l|]; [|done].
  destruct (heap s !! l); [|done]. intros [= _ <-]. apply steps_to_refl.
Qed.

Lemma respects_g_object r : respects (g_object r).
Proof.
  intros s a s'. unfold g_object. destruct r as [o|]; [|done].
  destruct (objects s !! o); [|done]. intros [= _ <-]. apply steps_to_refl.
Qed.

Local Ltac respects_read :=
  repeat first
    [ apply respects_ret | apply respects_crash | apply respects_deref
    | apply respects_g_object | apply respects_g_critical
    | apply respects_bind; [|intros ?]
    | match goal with |- respects (match ?x with _ => _ end) => destruct x end ].

Lemma respects_int_value p : respects (int_value p).
Proof. unfold int_value. respects_read. Qed.
Lemma respects_number_value p : respects (number_value p).
Proof. unfold number_value. respects_read. Qed.
Lemma respects_string_value p : respects (string_value p).
Proof. unfold string_value. respects_read. Qed.
Lemma respects_string_length p : respects (string_length p).
Proof. unfold string_length. respects_read. Qed.
Lemma respects_reference_ref p : respects (reference_ref p).
Proof. unfold reference_ref. respects_read. Qed.

Local Ltac respects_step :=
  repeat first
    [ apply respects_ret | apply respects_crash | apply respects_deref
    | apply respects_g_object | apply respects_g_critical
    | apply respects_int_value | apply respects_number_value
    | apply respects_string_value | apply respects_string_length
    | apply respects_reference_ref
    | apply respects_g_return_val_if_fail | apply respects_g_assert
    | apply respects_bind; [|intros ?]
    | match goal with |- respects (match ?x with _ => _ end) => destruct x eqn:? end
    | match goal with |- respects (if ?x then _ else _) => destruct x end ].

(** *** Calls that only read *)

Lemma respects_class_equal c f a b :
  equal (class_at c) = Some f → respects (f a b).
Proof.
  destruct c; intros [= <-].
  - unfold gtk_int_accessible_value_equal. respects_step.
  - unfold gtk_number_accessible_value_equal. respects_step.
  - unfold gtk_string_accessible_value_equal. respects_step.
  - unfold gtk_reference_accessible_value_equal. respects_step.
Qed.

Lemma respects_class_print c f p b :
  print (class_at c) = Some f → respects (f p b).
Proof.
  destruct c; intros [= <-].
  - unfold gtk_int_accessible_value_print. respects_step.
  - unfold gtk_number_accessible_value_print. respects_step.
  - unfold gtk_string_accessible_value_print. respects_step.
  - unfold gtk_reference_accessible_value_print, G_OBJECT_TYPE_NAME. respects_step.
Qed.

Lemma respects_gtk_accessible_value_equal a b : respects (gtk_accessible_value_equal a b).
Proof.
  unfold gtk_accessible_value_equal. respects_step.
  by eapply respects_class_equal.
Qed.

Lemma respects_gtk_accessible_value_print p b : respects (gtk_accessible_value_print p b).
Proof.
  unfold gtk_accessible_value_print. respects_step.
  by eapply respects_class_print.
Qed.

Lemma respects_gtk_accessible_value_to_string p :
  respects (gtk_accessible_value_to_string p).
Proof.
  unfold gtk_accessible_value_to_string.
  apply respects_g_return_val_if_fail, respects_gtk_accessible_value_print.
Qed.

Lemma respects_gtk_int_accessible_value_get p : respects (gtk_int_accessible_value_get p).
Proof. unfold gtk_int_accessible_value_get. respects_step. Qed.
Lemma respects_gtk_number_accessible_value_get p :
  respects (gtk_number_accessible_value_get p).
Proof. unfold gtk_number_accessible_value_get. respects_step. Qed.
Lemma respects_gtk_string_accessible_value_get p :
  respects (gtk_string_accessible_value_get p).
Proof. unfold gtk_string_accessible_value_get. respects_step. Qed.
Lemma respects_gtk_reference_accessible_value_get p :
  respects (gtk_reference_accessible_value_get p).
Proof. unfold gtk_reference_accessible_value_get. respects_step. Qed.

(** *** Calls that allocate *)

Lemma evolves_with_new c f s : evolves s (with_new c f s).
Proof. intros l v Hv. exists v. by split; [apply with_new_lookup_old|auto]. Qed.

Lemma wf_with_new c f s :
  layout_ok (new_value c f) → (∀ o, f ≠ GtkReferenceAccessibleValue (Some o)) →
  wf s → wf (with_new c f s).
Proof.
  intros Hlay Hf [W1 W2 W3 W4]. split.
  - intros l v. unfold with_new. rewrite set_heap_heap, lookup_insert.
    case_decide; [by intros [= <-]|eauto].
  - intros l v o. unfold with_new at 1. rewrite set_heap_heap, lookup_insert.
    case_decide; [intros [= <-] Hv; by destruct (Hf o)|]. apply W2.
  - intros o ob d Ho Hd. destruct (W3 o ob d Ho Hd) as (v & Hv & Hfv).
    exists v. by split; [apply with_new_lookup_old|].
  - apply W4.
Qed.

Lemma steps_to_with_new c f s :
  layout_ok (new_value c f) → (∀ o, f ≠ GtkReferenceAccessibleValue (Some o)) →
  steps_to s (with_new c f s).
Proof. intros. split; [by apply wf_with_new|apply evolves_with_new]. Qed.

Lemma respects_gtk_accessible_value_alloc c : respects (gtk_accessible_value_alloc c).
Proof.
  destruct c as [c|].
  - intros s a s'. rewrite gtk_accessible_value_alloc_spec. intros [= _ <-].
    apply steps_to_with_new; by destruct c.
  - unfold gtk_accessible_value_alloc. respects_step.
Qed.

Lemma respects_gtk_int_accessible_value_new x : respects (gtk_int_accessible_value_new x).
Proof.
  intros s a s'. rewrite gtk_int_accessible_value_new_spec. intros [= _ <-].
  by apply steps_to_with_new.
Qed.

Lemma respects_gtk_number_accessible_value_new x :
  respects (gtk_number_accessible_value_new x).
Proof.
  intros s a s'. rewrite gtk_number_accessible_value_new_spec. intros [= _ <-].
  by apply steps_to_with_new.
Qed.

Lemma gtk_string_accessible_value_new_NULL s :
  gtk_string_accessible_value_new None s = Crash UndefinedBehaviour.
Proof.
  unfold gtk_string_accessible_value_new, g_strdup.
  rewrite (bind_Done _ _ _ _ _ (gtk_accessible_value_alloc_spec _ _)).
  erewrite bind_Done;
    [|by eapply set_string_value_live; [apply with_new_lookup|]].
  done.
Qed.

Lemma respects_gtk_string_accessible_value_new str :
  respects (gtk_string_accessible_value_new str).
Proof.
  intros s a s'. destruct str as [str|].
  - rewrite gtk_string_accessible_value_new_spec. intros [= _ <-].
    by apply steps_to_with_new.
  - by rewrite gtk_string_accessible_value_new_NULL.
Qed.

Lemma not_registered_fresh s o ob :
  wf s → objects s !! o = Some ob → next_loc s ∉ weak_refs ob.
Proof.
  intros W Ho Hin. destruct (wf_registered s W o ob _ Ho Hin) as (v & Hv & _).
  by rewrite next_loc_fresh in Hv.
Qed.

Lemma wf_new_reference o ob s :
  objects s !! o = Some ob → wf s →
  wf (with_weak_ref o ob (next_loc s)
        (with_new addr_GTK_REFERENCE_ACCESSIBLE_VALUE
           (GtkReferenceAccessibleValue (Some o)) s)).
Proof.
  intros Ho W. pose proof W as [W1 W2 W3 W4]. split.
  - intros l v. simpl. rewrite lookup_insert.
    case_decide; [by intros [= <-]|eauto].
  - intros l v o'. simpl. rewrite lookup_insert. case_decide as Hl.
    + intros [= <-] [= <-]. rewrite lookup_insert_eq. eexists. split; [done|].
      simpl. rewrite elem_of_app, list_elem_of_singleton. by right.
    + intros Hv Hfv. destruct (W2 l v o' Hv Hfv) as (ob1 & Ho1 & Hin).
      destruct (decide (o = o')) as [<-|Hne].
      * rewrite lookup_insert_eq. eexists. split; [done|]. simpl.
        rewrite elem_of_app. left. congruence.
      * rewrite lookup_insert_ne by done. eauto.
  - intros o1 ob1 d. simpl. rewrite lookup_insert. case_decide as Ho1.
    + subst o1. intros [= <-]. simpl. rewrite elem_of_app, list_elem_of_singleton.
      intros [Hd| ->].
      * destruct (W3 o ob d Ho Hd) as (v & Hv & Hfv). exists v.
        rewrite lookup_insert_ne; [done|]. intros <-. by rewrite next_loc_fresh in Hv.
      * rewrite lookup_insert_eq. by eexists.
    + intros Hob1 Hd. destruct (W3 o1 ob1 d Hob1 Hd) as (v & Hv & Hfv). exists v.
      rewrite lookup_insert_ne; [done|]. intros <-. by rewrite next_loc_fresh in Hv.
  - intros o1 ob1. simpl. rewrite lookup_insert. case_decide as Ho1.
    + subst o1. intros [= <-]. simpl. apply NoDup_app. split; [by eapply W4|].
      split; [|apply NoDup_singleton].
      intros x Hx ->%list_elem_of_singleton. by eapply not_registered_fresh.
    + apply W4.
Qed.

Lemma respects_gtk_reference_accessible_value_new r :
  respects (gtk_reference_accessible_value_new r).
Proof.
  destruct r as [o|]; cycle 1.
  { intros s a s'. rewrite gtk_reference_accessible_value_new_NULL. intros [= _ <-].
    by apply steps_to_same_store. }
  intros s a s'. destruct (objects s !! o) as [ob|] eqn:Ho.
  - destruct (is_accessible ob) eqn:Hacc.
    + rewrite (gtk_reference_accessible_value_new_spec o ob) by done. intros [= _ <-].
      split; [by apply wf_new_reference|].
      intros l v Hv. exists v. split; [|auto]. by apply (with_new_lookup_old _ _ s).
    + rewrite (gtk_reference_accessible_value_new_not_accessible o ob) by done.
      intros [= _ <-]. by apply steps_to_same_store.
  - unfold gtk_reference_accessible_value_new, GTK_IS_ACCESSIBLE, g_object, mbind, M_bind.
    by rewrite Ho.
Qed.

(** *** Reference counting *)

Lemma steps_to_update l v v' s :
  heap s !! l = Some v → value_class v' = value_class v → fields v' = fields v →
  steps_to s (set_heap (<[l := v']> (heap s)) s).
Proof.
  intros Hv Hc Hf. split.
  - intros [W1 W2 W3 W4]. split.
    + intros l1 v1. rewrite set_heap_heap, lookup_insert. case_decide; [|eauto].
      intros [= <-]. specialize (W1 l v Hv). unfold layout_ok in *. by rewrite Hc, Hf.
    + intros l1 v1 o. rewrite set_heap_heap, lookup_insert. case_decide as Hl; [|apply W2].
      subst l1. intros [= <-] Hfv. apply (W2 l v o Hv). congruence.
    + intros o ob d Ho Hd. destruct (W3 o ob d Ho Hd) as (vd & Hvd & Hfd).
      rewrite set_heap_heap, lookup_insert. case_decide as Hl; [|eauto].
      subst d. exists v'. split; [done|]. congruence.
    + apply W4.
  - intros l1 v1 Hv1. rewrite set_heap_heap, lookup_insert. case_decide as Hl; [|eauto].
    subst l1. exists v'. split; [done|]. assert (v1 = v) as -> by congruence. auto.
Qed.

Lemma respects_gtk_accessible_value_ref p : respects (gtk_accessible_value_ref p).
Proof.
  destruct p as [l|]; [|unfold gtk_accessible_value_ref; respects_step].
  intros s a s'. destruct (heap s !! l) as [v|] eqn:Hv.
  - rewrite (gtk_accessible_value_ref_spec _ _ _ Hv). intros [= _ <-].
    by eapply steps_to_update.
  - unfold gtk_accessible_value_ref, g_return_val_if_fail, deref, mbind, M_bind.
    rewrite bool_decide_true by done. by rewrite Hv.
Qed.

Lemma elem_of_remove_first x d l : x ∈ remove_first d l → x ∈ l.
Proof.
  induction l as [|y l IH]; simpl; [done|]. case_decide.
  - intros. by apply elem_of_cons; right.
  - rewrite !elem_of_cons. intros [->|Hx]; auto.
Qed.

Lemma elem_of_remove_first_ne x d l : x ≠ d → x ∈ l → x ∈ remove_first d l.
Proof.
  intros Hne. induction l as [|y l IH]; simpl; [done|]. rewrite elem_of_cons.
  case_decide.
  - intros [->|Hx]; [congruence|done].
  - rewrite elem_of_cons. intros [->|Hx]; auto.
Qed.

Lemma remove_first_NoDup d l : NoDup l → NoDup (remove_first d l) ∧ d ∉ remove_first d l.
Proof.
  induction 1 as [|y l Hy Hl IH]; simpl.
  - split; [constructor|apply not_elem_of_nil].
  - case_decide.
    + subst y. by split.
    + destruct IH as [IH1 IH2]. split.
      * constructor; [|done]. intros Hin. by apply Hy, elem_of_remove_first with d.
      * rewrite elem_of_cons. intros [->|Hin]; [done|by apply IH2].
Qed.

(** The finalize functions leave the heap alone. *)
Lemma finalize_heap c f l s a s' :
  finalize (class_at c) = Some f → f (Some l) s = Done a s' → heap s' = heap s.
Proof.
  destruct c; intros [= <-].
  - unfold gtk_string_accessible_value_finalize, string_value, deref, mbind, M_bind.
    destruct (heap s !! l) as [v|]; [|done]. destruct (fields v); try done.
    by intros [= _ <-].
  - unfold gtk_reference_accessible_value_finalize, reference_ref, deref, mbind, M_bind.
    destruct (heap s !! l) as [v|]; [|done]. destruct (fields v) as [| | |[o|]]; try done.
    + unfold g_object_weak_unref, g_object, mbind, M_bind. simpl.
      destruct (objects s !! o) as [ob|]; [|done]. case_decide; by intros [= _ <-].
    + by intros [= _ <-].
Qed.

Lemma wf_well_formed_at s l v : wf s → heap s !! l = Some v → well_formed_at s l v.
Proof.
  intros [W1 W2 W3 W4] Hv. specialize (W1 l v Hv). unfold layout_ok, well_formed_at in *.
  destruct (value_class v), (fields v) as [| | |[o|]] eqn:Hf; try done.
  by eapply W2.
Qed.

Lemma wf_release_last l v lg s :
  wf s → heap s !! l = Some v →
  wf {| heap := delete l (heap s); objects := objects_without l v s; log := lg |}.
Proof.
  intros W Hv. pose proof (wf_well_formed_at s l v W Hv) as Hat.
  pose proof W as [W1 W2 W3 W4]. unfold objects_without.
  destruct (fields v) as [| | |[o|]] eqn:Hf.
  1-3,5: split; simpl.
  1,5,9,13: by intros l1 v1 [_ ?]%lookup_delete_Some; eauto.
  1,4,7,10: by intros l1 v1 o1 [_ ?]%lookup_delete_Some; eauto.
  1,3,5,7: intros o1 ob1 d Ho1 Hd; destruct (W3 o1 ob1 d Ho1 Hd) as (vd & Hvd & Hfd);
    exists vd; split; [|done]; apply lookup_delete_Some; split; [|done];
    intros <-; congruence.
  1-4: done.
  assert (∃ ob, objects s !! o = Some ob ∧ l ∈ weak_refs ob) as (ob & Ho & Hl)
    by (by eapply W2).
  rewrite Ho. destruct (remove_first_NoDup l (weak_refs ob) (W4 o ob Ho)) as [Hnd Hnot].
  split; simpl.
  - intros l1 v1 [_ ?]%lookup_delete_Some. eauto.
  - intros l1 v1 o1 [Hne Hv1]%lookup_delete_Some Hf1.
    destruct (W2 l1 v1 o1 Hv1 Hf1) as (ob1 & Ho1 & Hin).
    rewrite lookup_insert. case_decide as Ho'.
    + subst o1. eexists. split; [done|]. simpl.
      apply elem_of_remove_first_ne; [done|]. congruence.
    + eauto.
  - intros o1 ob1 d. rewrite lookup_insert. case_decide as Ho'.
    + subst o1. intros [= <-]. simpl. intros Hd.
      destruct (W3 o ob d Ho (elem_of_remove_first _ _ _ Hd)) as (vd & Hvd & Hfd).
      exists vd. split; [|done]. apply lookup_delete_Some. split; [|done].
      intros <-. done.
    + intros Ho1 Hd. destruct (W3 o1 ob1 d Ho1 Hd) as (vd & Hvd & Hfd).
      exists vd. split; [|done]. apply lookup_delete_Some. split; [|done].
      intros <-. congruence.
  - intros o1 ob1. rewrite lookup_insert. case_decide; [|apply W4].
    by intros [= <-].
Qed.

Lemma steps_to_releases l s s' : steps_to s s' → releases l s s'.
Proof. intros [Hw He]. split; [done|]. intros l1 v Hv. right. by apply He. Qed.

Lemma gtk_accessible_value_unref_releases l s s' :
  gtk_accessible_value_unref (Some l) s = Done tt s' → releases l s s'.
Proof.
  destruct (heap s !! l) as [v|] eqn:Hv; cycle 1.
  { unfold gtk_accessible_value_unref, g_return_val_if_fail, deref, mbind, M_bind.
    rewrite bool_decide_true by done. by rewrite Hv. }
  destruct (decide (int_wrap (ref_count v - 1) = 0)) as [Hrc|Hrc]; cycle 1.
  { rewrite (gtk_accessible_value_unref_keep _ _ _ Hv Hrc). intros [= <-].
    by eapply steps_to_releases, steps_to_update. }
  intros Hun. split.
  - intros W. rewrite (gtk_accessible_value_unref_last_spec l v s) in Hun
      by eauto using wf_well_formed_at.
    injection Hun as <-. by apply wf_release_last.
  - rewrite (gtk_accessible_value_unref_last _ _ _ Hv Hrc) in Hun.
    set (s1 := set_heap _ s) in Hun.
    assert (∃ s2, heap s2 = heap s1 ∧ g_free (Some l) s2 = Done tt s') as (s2 & Hh2 & Hfree).
    { unfold mbind, M_bind in Hun.
      destruct (finalize (class_at (value_class v))) as [f|] eqn:Hfin.
      - unfold modify in Hun.
        destruct (f (Some l) (add_log (EvFinalize l) s1)) as [[] s2|] eqn:Hf; [|done].
        exists s2. split; [|done]. by rewrite (finalize_heap _ _ _ _ _ _ Hfin Hf).
      - exists s1. by split. }
    unfold g_free in Hfree. rewrite Hh2 in Hfree. unfold s1 in Hfree at 1.
    rewrite set_heap_heap, lookup_insert_eq in Hfree. injection Hfree as <-.
    intros l1 v1 Hv1. simpl.
    rewrite delete_insert_eq. destruct (decide (l1 = l)) as [->|Hne].
    + left. by rewrite lookup_delete_eq.
    + right. exists v1. rewrite lookup_delete_ne by done. auto.
Qed.

(** *** The decoders and the defaults *)

Lemma respects_hard_coded_new f v : respects (hard_coded_new f v).
Proof. apply respects_ret. Qed.

Lemma respects_call_int_ctor f v : respects (call_int_ctor f v).
Proof.
  destruct f; simpl;
    first [apply respects_hard_coded_new | apply respects_crash
          | apply respects_gtk_int_accessible_value_new].
Qed.

Lemma respects_call_number_ctor f v : respects (call_number_ctor f v).
Proof.
  destruct f; simpl;
    first [apply respects_crash | apply respects_gtk_number_accessible_value_new].
Qed.

Lemma respects_call_string_ctor f v : respects (call_string_ctor f v).
Proof.
  destruct f; simpl;
    first [apply respects_crash | apply respects_gtk_string_accessible_value_new].
Qed.

Lemma respects_call_ref_ctor f v : respects (call_ref_ctor f v).
Proof.
  destruct f; simpl;
    first [apply respects_crash | apply respects_gtk_reference_accessible_value_new].
Qed.

Lemma respects_table_row table index : respects (table_row table index).
Proof. unfold table_row. respects_step. Qed.

Local Ltac respects_call :=
  repeat first
    [ apply respects_ret | apply respects_crash | apply respects_g_critical
    | apply respects_table_row | apply respects_g_assert
    | apply respects_call_int_ctor | apply respects_call_number_ctor
    | apply respects_call_string_ctor | apply respects_call_ref_ctor
    | apply respects_hard_coded_new
    | apply respects_gtk_int_accessible_value_new
    | apply respects_gtk_number_accessible_value_new
    | apply respects_gtk_string_accessible_value_new
    | apply respects_bind; [|intros ?]
    | match goal with |- respects (match ?x with _ => _ end) => destruct x end ].

Lemma respects_collect_from_args func cstate args :
  respects (collect_from_args func cstate args).
Proof.
  unfold collect_from_args, va_arg_int, va_arg_double, va_arg_string, va_arg_pointer.
  respects_call.
Qed.

Lemma respects_collect_from_value func cstate v :
  respects (collect_from_value func cstate v).
Proof.
  unfold collect_from_value, g_value_get_boolean, g_value_get_int, g_value_get_enum,
    g_value_get_double, g_value_get_string, g_value_get_object.
  respects_call.
Qed.

Lemma respects_get_default_for_state st :
  respects (gtk_accessible_value_get_default_for_state st).
Proof. unfold gtk_accessible_value_get_default_for_state. respects_call. Qed.

Lemma respects_get_default_for_property p :
  respects (gtk_accessible_value_get_default_for_property p).
Proof. unfold gtk_accessible_value_get_default_for_property. respects_call. Qed.

Lemma respects_collect_for_state st args :
  respects (gtk_accessible_value_collect_for_state st args).
Proof.
  unfold gtk_accessible_value_collect_for_state.
  apply respects_g_assert, respects_bind; [apply respects_table_row|intros ?].
  apply respects_collect_from_args.
Qed.

Lemma respects_collect_for_state_value st v :
  respects (gtk_accessible_value_collect_for_state_value st v).
Proof.
  unfold gtk_accessible_value_collect_for_state_value.
  apply respects_g_assert, respects_bind; [apply respects_table_row|intros ?].
  apply respects_collect_from_value.
Qed.

Lemma respects_collect_for_property p args :
  respects (gtk_accessible_value_collect_for_property p args).
Proof.
  unfold gtk_accessible_value_collect_for_property.
  apply respects_bind; [apply respects_table_row|intros ?].
  apply respects_collect_from_args.
Qed.

Lemma respects_collect_for_property_value p v :
  respects (gtk_accessible_value_collect_for_property_value p v).
Proof.
  unfold gtk_accessible_value_collect_for_property_value.
  apply respects_bind; [apply respects_table_row|intros ?].
  apply respects_collect_from_value.
Qed.

(** *** Objects come and go *)

Lemma respects_g_object_new name accessible : respects (g_object_new name accessible).
Proof.
  intros s o s' [= <- <-].
  assert (objects s !! fresh (dom (objects s)) = None) as Hfresh
    by apply (not_elem_of_dom (D := gset gobject)), is_fresh.
  split; [|by intros l v Hv; exists v; auto].
  intros [W1 W2 W3 W4]. split; simpl.
  - apply W1.
  - intros l v o Hv Hf. destruct (W2 l v o Hv Hf) as (ob & Ho & Hin).
    exists ob. split; [|done]. rewrite lookup_insert_ne; [done|]. intros <-. congruence.
  - intros o ob d. rewrite lookup_insert. case_decide; [|apply W3].
    intros [= <-]. simpl. by intros ?%elem_of_nil.
  - intros o ob. rewrite lookup_insert. case_decide; [|apply W4].
    intros [= <-]. simpl. constructor.
Qed.

Lemma remove_weak_ref_inv d o s s' :
  remove_weak_ref d o s = Done tt s' →
  ∃ v r, heap s !! d = Some v ∧ fields v = GtkReferenceAccessibleValue r ∧
         s' = set_heap (<[d := cleared v]> (heap s)) s.
Proof.
  unfold remove_weak_ref. destruct (heap s !! d) as [v|] eqn:Hv; cycle 1.
  { unfold set_reference_ref, reference_ref, deref, mbind, M_bind. by rewrite Hv. }
  destruct (fields v) as [| | |r] eqn:Hf.
  1-3: unfold set_reference_ref, mbind, M_bind;
       by rewrite (reference_ref_live _ _ _ Hv), Hf.
  rewrite (set_reference_ref_live _ _ _ _ _ Hv Hf). intros [= <-]. by exists v, r.
Qed.

(** The heap after the notifications for the registrations [ds] have run. *)
Lemma for_each_remove_weak_ref_inv ds o s s' :
  for_each (λ data, remove_weak_ref data o) ds s = Done tt s' →
  objects s' = objects s ∧ log s' = log s ∧
  ∀ l, heap s' !! l = if decide (l ∈ ds) then cleared <$> heap s !! l else heap s !! l.
Proof.
  revert s. induction ds as [|d ds IH]; intros s.
  - intros [= <-]. split; [done|]. split; [done|]. intros l.
    by rewrite decide_False by apply not_elem_of_nil.
  - cbn [for_each]. unfold mbind at 1, M_bind at 1.
    destruct (remove_weak_ref d o s) as [[] s1|] eqn:Hd; [|done].
    destruct (remove_weak_ref_inv _ _ _ _ Hd) as (v & r & Hv & Hf & ->).
    intros Hrest. destruct (IH _ Hrest) as (Ho & Hl & Hh).
    split; [done|]. split; [done|]. intros l. rewrite Hh, set_heap_heap.
    destruct (decide (l = d)) as [->|Hne].
    + rewrite lookup_insert_eq, Hv. rewrite (decide_True (P := d ∈ d :: ds)) by left.
      by case_decide.
    + rewrite lookup_insert_ne by done.
      destruct (decide (l ∈ ds)) as [Hin|Hin].
      * by rewrite decide_True by (by right).
      * rewrite decide_False; [done|]. by intros [?|?]%elem_of_cons.
Qed.

(** The notifications run to the end when every registration belongs to a
    live reference. *)
Lemma for_each_remove_weak_ref_runs ds o s :
  (∀ d, d ∈ ds → ∃ v r, heap s !! d = Some v ∧ fields v = GtkReferenceAccessibleValue r) →
  ∃ s', for_each (λ data, remove_weak_ref data o) ds s = Done tt s'.
Proof.
  revert s. induction ds as [|d ds IH]; intros s Hds; [by eexists|].
  destruct (Hds d) as (v & r & Hv & Hf); [by left|].
  assert (remove_weak_ref d o s = Done tt (set_heap (<[d := cleared v]> (heap s)) s)) as Hd
    by apply (set_reference_ref_live _ _ _ _ _ Hv Hf).
  cbn [for_each]. setoid_rewrite (bind_Done _ _ _ _ _ Hd).
  apply IH. intros d' Hd'. rewrite set_heap_heap, lookup_insert.
  case_decide; [by eexists _, _|]. apply Hds. by right.
Qed.

Lemma g_object_destroy_inv o s s' :
  g_object_destroy o s = Done tt s' →
  ∃ ob, objects s !! o = Some ob ∧ objects s' = delete o (objects s) ∧
        ∀ l, heap s' !! l =
             if decide (l ∈ weak_refs ob) then cleared <$> heap s !! l else heap s !! l.
Proof.
  unfold g_object_destroy, g_object, mbind at 1, M_bind at 1.
  destruct (objects s !! o) as [ob|] eqn:Ho; [|done].
  unfold mbind, M_bind, modify. intros Hfor.
  destruct (for_each_remove_weak_ref_inv _ _ _ _ Hfor) as (Hobj & _ & Hheap).
  exists ob. by repeat split.
Qed.

Lemma respects_g_object_destroy o : respects (g_object_destroy o).
Proof.
  intros s [] s' Hd. destruct (g_object_destroy_inv _ _ _ Hd) as (ob & Ho & Hobj & Hheap).
  split.
  - intros [W1 W2 W3 W4]. split.
    + intros l v. rewrite Hheap. case_decide as Hin; [|apply W1].
      destruct (W3 o ob l Ho Hin) as (v0 & Hv0 & Hf0). rewrite Hv0. intros [= <-].
      specialize (W1 l v0 Hv0). unfold layout_ok in *. simpl.
      rewrite Hf0 in W1. by destruct (value_class v0).
    + intros l v o1. rewrite Hheap, Hobj. case_decide as Hin.
      * destruct (heap s !! l); [|done]. by intros [= <-].
      * intros Hv Hf. destruct (W2 l v o1 Hv Hf) as (ob1 & Ho1 & Hin1).
        exists ob1. split; [|done]. rewrite lookup_delete_ne; [done|].
        intros <-. congruence.
    + intros o1 ob1 d. rewrite Hobj. intros [Hne Ho1]%lookup_delete_Some Hd1.
      destruct (W3 o1 ob1 d Ho1 Hd1) as (v & Hv & Hf).
      exists v. split; [|done]. rewrite Hheap, decide_False; [done|].
      intros Hin. destruct (W3 o ob d Ho Hin) as (v' & Hv' & Hf'). congruence.
    + intros o1 ob1. rewrite Hobj. intros [_ Ho1]%lookup_delete_Some. by eapply W4.
  - intros l v Hv. rewrite Hheap, Hv. case_decide; [|eauto].
    eexists. split; [done|]. simpl. auto.
Qed.

(** *** The calls a program can make, and the states it can reach *)

Lemma respects_ignore {A} (m : M A) : respects m → respects (ignore m).
Proof. intros Hm. apply respects_bind; [done|intros; apply respects_ret]. Qed.

Lemma exec_releases c s s' :
  exec c s = Done tt s' → ∃ l, releases l s s'.
Proof.
  destruct c; simpl;
    try (intros Hc; exists 1%positive; apply steps_to_releases; revert Hc;
         first [ apply respects_ignore | idtac ];
         first
           [ apply respects_gtk_accessible_value_alloc
           | apply respects_gtk_accessible_value_ref
           | apply respects_gtk_accessible_value_print
           | apply respects_gtk_accessible_value_to_string
           | apply respects_gtk_accessible_value_equal
           | apply respects_gtk_int_accessible_value_new
           | apply respects_gtk_int_accessible_value_get
           | apply respects_gtk_number_accessible_value_new
           | apply respects_gtk_number_accessible_value_get
           | apply respects_gtk_string_accessible_value_new
           | apply respects_gtk_string_accessible_value_get
           | apply respects_gtk_reference_accessible_value_new
           | apply respects_gtk_reference_accessible_value_get
           | apply respects_get_default_for_state
           | apply respects_collect_for_state
           | apply respects_collect_for_state_value
           | apply respects_get_default_for_property
           | apply respects_collect_for_property
           | apply respects_collect_for_property_value
           | apply respects_g_object_new
           | apply respects_g_object_destroy ]).
  destruct self as [l|].
  - intros Hun. exists l. by apply gtk_accessible_value_unref_releases.
  - intros Hun. exists 1%positive. apply steps_to_releases. revert Hun.
    unfold gtk_accessible_value_unref. respects_step.
Qed.

Lemma wf_init_state : wf init_state.
Proof. split; simpl; intros *; by rewrite lookup_empty. Qed.

Lemma reachable_wf s : reachable s → wf s.
Proof.
  induction 1 as [|c s s' _ IH Hc]; [apply wf_init_state|].
  destruct (exec_releases _ _ _ Hc) as (l & Hw & _). auto.
Qed.

(** A cleared reference that is kept stays a cleared reference. *)
Lemma keeping_cleared l s s' :
  keeping l s s' → is_cleared_reference l s → is_cleared_reference l s'.
Proof.
  induction 1 as [|c s s1 s2 Hc Hlive _ IH]; [done|].
  intros (v & Hv & Hcl & Hf). apply IH.
  destruct (exec_releases _ _ _ Hc) as (l0 & _ & Hframe).
  destruct (Hframe l v Hv) as [[_ Hgone]|(v' & Hv' & Hc' & Hf')].
  - rewrite Hgone in Hlive. by destruct Hlive.
  - exists v'. split; [done|]. split; [congruence|]. destruct Hf'; congruence.
Qed.

Lemma keeping_reachable l s s' : keeping l s s' → reachable s → reachable s'.
Proof. induction 1; eauto using reachable_step. Qed.

(** *** Reading a cleared reference *)

Lemma cleared_reference_print l buffer s :
  is_cleared_reference l s →
  gtk_accessible_value_print (Some l) (Some buffer) s =
  Done (Some (buffer +:+ "<null>")) s.
Proof.
  intros (v & Hv & Hc & Hf).
  unfold gtk_accessible_value_print, g_return_val_if_fail.
  rewrite !bool_decide_true by done.
  rewrite (bind_Done _ _ _ _ _ (deref_live _ _ _ Hv)), Hc. simpl.
  unfold gtk_reference_accessible_value_print.
  assert (reference_ref (Some l) s = Done None s) as Hr
    by (by rewrite (reference_ref_live _ _ _ Hv), Hf).
  erewrite bind_Done; [reflexivity|]. by rewrite (bind_Done _ _ _ _ _ Hr).
Qed.

Lemma cleared_reference_to_string l s :
  is_cleared_reference l s →
  gtk_accessible_value_to_string (Some l) s = Done (Some "<null>"%string) s.
Proof.
  intros Hl. unfold gtk_accessible_value_to_string, g_return_val_if_fail.
  rewrite bool_decide_true by done. by rewrite cleared_reference_print.
Qed.

Lemma cleared_reference_get l s :
  is_cleared_reference l s →
  gtk_reference_accessible_value_get (Some l) s = Done None s.
Proof.
  intros (v & Hv & Hc & Hf).
  unfold gtk_reference_accessible_value_get, g_return_val_if_fail.
  rewrite bool_decide_true by done.
  rewrite (bind_Done _ _ _ _ _ (deref_live _ _ _ Hv)), Hc.
  rewrite bool_decide_true by done. by rewrite (reference_ref_live _ _ _ Hv), Hf.
Qed.

Lemma cleared_reference_equal l l' v' r' s :
  is_cleared_reference l s →
  heap s !! l' = Some v' →
  value_class v' = addr_GTK_REFERENCE_ACCESSIBLE_VALUE →
  fields v' = GtkReferenceAccessibleValue r' →
  gtk_accessible_value_equal (Some l) (Some l') s = Done (bool_decide (r' = None)) s ∧
  gtk_accessible_value_equal (Some l') (Some l) s = Done (bool_decide (r' = None)) s.
Proof.
  intros (v & Hv & Hc & Hf) Hv' Hc' Hf'.
  destruct (decide (l = l')) as [<-|Hne].
  - assert (r' = None) as -> by congruence.
    unfold gtk_accessible_value_equal. by rewrite !bool_decide_true.
  - split.
    + rewrite (gtk_accessible_value_equal_dispatch _ _ _ _ Hne Hv), Hc. simpl.
      erewrite gtk_reference_accessible_value_equal_spec by done.
      f_equal. by apply bool_decide_ext.
    + rewrite (gtk_accessible_value_equal_dispatch l' l v') by done. rewrite Hc'. simpl.
      rewrite (gtk_reference_accessible_value_equal_spec l' l v' v r' None) by done.
      f_equal. by apply bool_decide_ext.
Qed.

(** C6: in a state the program can reach, let the instance at [l] be a
    reference linked to the object [o]. When [o] is destroyed, the
    notification registered by the constructor runs and clears the link;
    the instance stays allocated. From then on, after any further calls
    that keep the instance, it prints as ["<null>"], its accessor returns
    [NULL], [gtk_accessible_value_equal] compares it as a [NULL] reference
    with any other reference instance, and no reference instance of the
    state is linked to an object that is gone. *)
Theorem destroyed_object_clears_reference (s : state) (l : loc)
    (v : GtkAccessibleValue) (o : gobject) :
  reachable s →
  heap s !! l = Some v →
  fields v = GtkReferenceAccessibleValue (Some o) →
  ∃ s1,
    g_object_destroy o s = Done tt s1 ∧
    objects s1 !! o = None ∧
    heap s1 !! l = Some (cleared v) ∧
    ∀ s2, keeping l s1 s2 →
      is_cleared_reference l s2 ∧
      (∀ buffer, gtk_accessible_value_print (Some l) (Some buffer) s2 =
                 Done (Some (buffer +:+ "<null>")) s2) ∧
      gtk_accessible_value_to_string (Some l) s2 = Done (Some "<null>"%string) s2 ∧
      gtk_reference_accessible_value_get (Some l) s2 = Done None s2 ∧
      (∀ l' v' r',
         heap s2 !! l' = Some v' → fields v' = GtkReferenceAccessibleValue r' →
         gtk_accessible_value_equal (Some l) (Some l') s2 =
           Done (bool_decide (r' = None)) s2 ∧
         gtk_accessible_value_equal (Some l') (Some l) s2 =
           Done (bool_decide (r' = None)) s2) ∧
      (∀ l' v' o',
         heap s2 !! l' = Some v' → fields v' = GtkReferenceAccessibleValue (Some o') →
         is_Some (objects s2 !! o')).
Proof.
  intros Hreach Hv Hf. pose proof (reachable_wf s Hreach) as W.
  destruct (wf_linked s W l v o Hv Hf) as (ob & Ho & Hin).
  assert (∃ s1, g_object_destroy o s = Done tt s1) as [s1 Hd].
  { unfold g_object_destroy. rewrite (bind_Done _ _ _ _ _ (g_object_live _ _ _ Ho)).
    erewrite bind_Done; [|reflexivity].
    apply for_each_remove_weak_ref_runs. intros d Hd.
    destruct (wf_registered s W o ob d Ho Hd) as (vd & Hvd & Hfd). by exists vd, (Some o). }
  exists s1. split; [done|].
  destruct (g_object_destroy_inv _ _ _ Hd) as (ob' & Ho' & Hobj & Hheap).
  assert (ob' = ob) as -> by congruence.
  split; [by rewrite Hobj, lookup_delete_eq|].
  assert (heap s1 !! l = Some (cleared v)) as Hl1
    by (by rewrite Hheap, decide_True, Hv).
  split; [done|].
  assert (reachable s1) as Hreach1 by (by eapply (reachable_step (call_object_destroy o))).
  assert (is_cleared_reference l s1) as Hcl1.
  { exists (cleared v). split; [done|]. split; [|done].
    pose proof (wf_layout s W l v Hv) as Hlay. unfold layout_ok in Hlay. simpl.
    rewrite Hf in Hlay. by destruct (value_class v). }
  intros s2 Hkeep.
  pose proof (keeping_cleared _ _ _ Hkeep Hcl1) as Hcl2.
  pose proof (reachable_wf s2 (keeping_reachable _ _ _ Hkeep Hreach1)) as W2.
  split; [done|].
  split; [intros; by apply cleared_reference_print|].
  split; [by apply cleared_reference_to_string|].
  split; [by apply cleared_reference_get|].
  split.
  - intros l' v' r' Hv' Hf'. eapply cleared_reference_equal; [done..| |done].
    pose proof (wf_layout s2 W2 l' v' Hv') as Hlay. unfold layout_ok in Hlay.
    rewrite Hf' in Hlay. by destruct (value_class v').
  - intros l' v' o' Hv' Hf'. destruct (wf_linked s2 W2 l' v' o' Hv' Hf') as (ob2 & -> & _).
    by eexists.
Qed.

(** * Further properties of the code *)

(** ** Calls that only read or log *)

Lemma only_logs_refl s : only_logs s s.
Proof.
  split; [done|]. split; [done|]. exists []. by rewrite app_nil_r.
Qed.

Lemma only_logs_trans s1 s2 s3 : only_logs s1 s2 → only_logs s2 s3 → only_logs s1 s3.
Proof.
  intros (Hh1 & Ho1 & lg1 & Hl1 & Hc1) (Hh2 & Ho2 & lg2 & Hl2 & Hc2).
  split; [congruence|]. split; [congruence|].
  exists (lg1 ++ lg2). split; [by rewrite Hl2, Hl1, app_assoc|by apply Forall_app].
Qed.

Lemma only_logs_critical func expr s : only_logs s (add_log (EvCritical func expr) s).
Proof.
  split; [done|]. split; [done|]. exists [EvCritical func expr]. split; [done|].
  by repeat constructor.
Qed.

Lemma reads_only_ret {A} (a : A) : reads_only (mret a).
Proof. intros s a' s' [= <- <-]. apply only_logs_refl. Qed.

Lemma reads_only_crash {A} e : reads_only (crash (A := A) e).
Proof. by intros s a s' ?. Qed.

Lemma reads_only_bind {A B} (m : M A) (f : A → M B) :
  reads_only m → (∀ a, reads_only (f a)) → reads_only (m ≫= f).
Proof.
  intros Hm Hf s b s'. unfold mbind, M_bind.
  destruct (m s) as [a s1|] eqn:E; [|done].
  intros Hfa. eapply only_logs_trans; [by eapply Hm|by eapply Hf].
Qed.

Lemma reads_only_g_critical func expr : reads_only (g_critical func expr).
Proof. intros s a s' [= _ <-]. apply only_logs_critical. Qed.

Lemma reads_only_g_return_val_if_fail {A} c func expr (val : A) k :
  reads_only k → reads_only (g_return_val_if_fail c func expr val k).
Proof.
  intros Hk. unfold g_return_val_if_fail. destruct c; [done|].
  apply reads_only_bind; [apply reads_only_g_critical|intros; apply reads_only_ret].
Qed.

Lemma reads_only_g_assert {A} c (k : M A) : reads_only k → reads_only (g_assert c k).
Proof. intros Hk. unfold g_assert. destruct c; [done|apply reads_only_crash]. Qed.

Lemma reads_only_deref p : reads_only (deref p).
Proof.
  intros s a s'. unfold deref. destruct p as [l|]; [|done].
  destruct (heap s !! l); [|done]. intros [= _ <-]. apply only_logs_refl.
Qed.

Lemma reads_only_g_object r : reads_only (g_object r).
Proof.
  intros s a s'. unfold g_object. destruct r as [o|]; [|done].
  destruct (objects s !! o); [|done]. intros [= _ <-]. apply only_logs_refl.
Qed.

Lemma reads_only_table_row table index : reads_only (table_row table index).
Proof.
  unfold table_row. destruct (index <? 0); [apply reads_only_crash|].
  destruct (table !! _); [apply reads_only_ret|apply reads_only_crash].
Qed.

Local Ltac reads_only_step :=
  repeat first
    [ apply reads_only_ret | apply reads_only_crash | apply reads_only_deref
    | apply reads_only_g_object | apply reads_only_g_critical
    | apply reads_only_table_row
    | apply reads_only_g_return_val_if_fail | apply reads_only_g_assert
    | apply reads_only_bind; [|intros ?]
    | match goal with |- reads_only (match ?x with _ => _ end) => destruct x eqn:? end
    | match goal with |- reads_only (if ?x then _ else _) => destruct x end ].

Lemma reads_only_int_value p : reads_only (int_value p).
Proof. unfold int_value. reads_only_step. Qed.
Lemma reads_only_number_value p : reads_only (number_value p).
Proof. unfold number_value. reads_only_step. Qed.
Lemma reads_only_string_value p : reads_only (string_value p).
Proof. unfold string_value. reads_only_step. Qed.
Lemma reads_only_string_length p : reads_only (string_length p).
Proof. unfold string_length. reads_only_step. Qed.
Lemma reads_only_reference_ref p : reads_only (reference_ref p).
Proof. unfold reference_ref. reads_only_step. Qed.

Lemma reads_only_class_equal c f a b :
  equal (class_at c) = Some f → reads_only (f a b).
Proof.
  destruct c; intros [= <-].
  - unfold gtk_int_accessible_value_equal, int_value. reads_only_step.
  - unfold gtk_number_accessible_value_equal, number_value. reads_only_step.
  - unfold gtk_string_accessible_value_equal, string_length, string_value. reads_only_step.
  - unfold gtk_reference_accessible_value_equal, reference_ref. reads_only_step.
Qed.

Lemma reads_only_class_print c f p b :
  print (class_at c) = Some f → reads_only (f p b).
Proof.
  destruct c; intros [= <-].
  - unfold gtk_int_accessible_value_print, int_value. reads_only_step.
  - unfold gtk_number_accessible_value_print, number_value. reads_only_step.
  - unfold gtk_string_accessible_value_print, string_value. reads_only_step.
  - unfold gtk_reference_accessible_value_print, G_OBJECT_TYPE_NAME, reference_ref.
    reads_only_step.
Qed.

Lemma reads_only_gtk_accessible_value_equal a b :
  reads_only (gtk_accessible_value_equal a b).
Proof.
  unfold gtk_accessible_value_equal. reads_only_step.
  by eapply reads_only_class_equal.
Qed.

Lemma reads_only_gtk_accessible_value_print p b :
  reads_only (gtk_accessible_value_print p b).
Proof.
  unfold gtk_accessible_value_print. reads_only_step.
  by eapply reads_only_class_print.
Qed.

Lemma reads_only_gtk_accessible_value_to_string p :
  reads_only (gtk_accessible_value_to_string p).
Proof.
  unfold gtk_accessible_value_to_string.
  apply reads_only_g_return_val_if_fail, reads_only_gtk_accessible_value_print.
Qed.

Lemma reads_only_gtk_int_accessible_value_get p :
  reads_only (gtk_int_accessible_value_get p).
Proof. unfold gtk_int_accessible_value_get, int_value. reads_only_step. Qed.
Lemma reads_only_gtk_number_accessible_value_get p :
  reads_only (gtk_number_accessible_value_get p).
Proof. unfold gtk_number_accessible_value_get, number_value. reads_only_step. Qed.
Lemma reads_only_gtk_string_accessible_value_get p :
  reads_only (gtk_string_accessible_value_get p).
Proof. unfold gtk_string_accessible_value_get, string_value. reads_only_step. Qed.
Lemma reads_only_gtk_reference_accessible_value_get p :
  reads_only (gtk_reference_accessible_value_get p).
Proof. unfold gtk_reference_accessible_value_get, reference_ref. reads_only_step. Qed.

(** X13: the functions that compare, print and read a value never change
    a value or an object. Whatever their arguments, valid or not, when
    [gtk_accessible_value_equal], [gtk_accessible_value_print],
    [gtk_accessible_value_to_string] or one of the four typed accessors
    returns, the heap and the object table are as before the call, and
    the log has grown by criticals only: no reference was taken or
    dropped, nothing was finalized or freed. *)
Theorem readers_keep_heap_and_objects :
  (∀ value_a value_b, reads_only (gtk_accessible_value_equal value_a value_b)) ∧
  (∀ self buffer, reads_only (gtk_accessible_value_print self buffer)) ∧
  (∀ self, reads_only (gtk_accessible_value_to_string self)) ∧
  (∀ value, reads_only (gtk_int_accessible_value_get value)) ∧
  (∀ value, reads_only (gtk_number_accessible_value_get value)) ∧
  (∀ value, reads_only (gtk_string_accessible_value_get value)) ∧
  (∀ value, reads_only (gtk_reference_accessible_value_get value)).
Proof.
  split; [intros; apply reads_only_gtk_accessible_value_equal|].
  split; [intros; apply reads_only_gtk_accessible_value_print|].
  split; [intros; apply reads_only_gtk_accessible_value_to_string|].
  split; [intros; apply reads_only_gtk_int_accessible_value_get|].
  split; [intros; apply reads_only_gtk_number_accessible_value_get|].
  split; [intros; apply reads_only_gtk_string_accessible_value_get|].
  intros; apply reads_only_gtk_reference_accessible_value_get.
Qed.

(** ** Reference counts of live instances *)

Lemma all_counts_same_heap P s s' : heap s' = heap s → all_counts P s → all_counts P s'.
Proof. intros Hh Hc l v. rewrite Hh. apply Hc. Qed.

Lemma all_counts_weaken (P Q : Z → Prop) s :
  (∀ c, P c → Q c) → all_counts P s → all_counts Q s.
Proof. intros HPQ Hc l v Hv. by apply HPQ, (Hc l v). Qed.

Lemma all_counts_with_new (P : Z → Prop) c f s :
  P 1 → all_counts P s → all_counts P (with_new c f s).
Proof.
  intros H1 Hc l v. unfold with_new. rewrite set_heap_heap, lookup_insert.
  case_decide; [by intros [= <-]|apply Hc].
Qed.

Lemma all_counts_update (P : Z → Prop) l v' s :
  P (ref_count v') → all_counts P s → all_counts P (set_heap (<[l := v']> (heap s)) s).
Proof.
  intros Hv' Hc l1 v1. rewrite set_heap_heap, lookup_insert.
  case_decide; [by intros [= <-]|apply Hc].
Qed.

Lemma keeps_counts_reads_only P {A} (m : M A) : reads_only m → keeps_counts P m.
Proof.
  intros Hm s a s' Hr. destruct (Hm s a s' Hr) as (Hh & _). by apply all_counts_same_heap.
Qed.

Lemma keeps_counts_ret P {A} (a : A) : keeps_counts P (mret a).
Proof. by intros s a' s' [= <- <-]. Qed.

Lemma keeps_counts_crash P {A} e : keeps_counts P (crash (A := A) e).
Proof. by intros s a s' ?. Qed.

Lemma keeps_counts_bind P {A B} (m : M A) (f : A → M B) :
  keeps_counts P m → (∀ a, keeps_counts P (f a)) → keeps_counts P (m ≫= f).
Proof.
  intros Hm Hf s b s'. unfold mbind, M_bind.
  destruct (m s) as [a s1|] eqn:E; [|done].
  intros Hfa Hc. eapply Hf; [done|]. by eapply Hm.
Qed.

Lemma keeps_counts_ignore P {A} (m : M A) : keeps_counts P m → keeps_counts P (ignore m).
Proof. intros Hm. apply keeps_counts_bind; [done|intros; apply keeps_counts_ret]. Qed.

(** The last release takes the instance out of the heap and leaves the
    others in it. *)
Lemma gtk_accessible_value_unref_last_heap l v s s' :
  heap s !! l = Some v → int_wrap (ref_count v - 1) = 0 →
  gtk_accessible_value_unref (Some l) s = Done tt s' →
  heap s' = delete l (heap s).
Proof.
  intros Hv Hrc Hun.
  rewrite (gtk_accessible_value_unref_last _ _ _ Hv Hrc) in Hun.
  set (s1 := set_heap _ s) in Hun.
  assert (∃ s2, heap s2 = heap s1 ∧ g_free (Some l) s2 = Done tt s') as (s2 & Hh2 & Hfree).
  { unfold mbind, M_bind in Hun.
    destruct (finalize (class_at (value_class v))) as [f|] eqn:Hfin.
    - unfold modify in Hun.
      destruct (f (Some l) (add_log (EvFinalize l) s1)) as [[] s2|] eqn:Hf; [|done].
      exists s2. split; [|done]. by rewrite (finalize_heap _ _ _ _ _ _ Hfin Hf).
    - exists s1. by split. }
  unfold g_free in Hfree. rewrite Hh2 in Hfree. unfold s1 in Hfree at 1.
  rewrite set_heap_heap, lookup_insert_eq in Hfree. injection Hfree as <-.
  simpl. by rewrite delete_insert_eq.
Qed.

(** A retain leads from counts in [P] to counts in [Q] when [Q] holds of
    the retained count. *)
Lemma gtk_accessible_value_ref_counts (P Q : Z → Prop) l s a s' :
  (∀ c, P c → Q c) → (∀ c, P c → Q (int_wrap (c + 1))) →
  gtk_accessible_value_ref (Some l) s = Done a s' →
  all_counts P s → all_counts Q s'.
Proof.
  intros HPQ Hinc. destruct (heap s !! l) as [v|] eqn:Hv.
  - rewrite (gtk_accessible_value_ref_spec _ _ _ Hv). intros [= _ <-] Hc.
    apply all_counts_update; [|by eapply all_counts_weaken].
    simpl. by apply Hinc, (Hc l v).
  - unfold gtk_accessible_value_ref, g_return_val_if_fail, deref, mbind, M_bind.
    rewrite bool_decide_true by done. by rewrite Hv.
Qed.

Section Counts.

(** A property of counts that holds of a new instance and that a release
    which does not free keeps. *)
Variable P : Z → Prop.
Hypothesis P_one : P 1.
Hypothesis P_release : ∀ c, P c → int_wrap (c - 1) ≠ 0 → P (int_wrap (c - 1)).

Lemma keeps_counts_gtk_accessible_value_alloc c :
  keeps_counts P (gtk_accessible_value_alloc c).
Proof.
  destruct c as [c|].
  - intros s a s'. rewrite gtk_accessible_value_alloc_spec. intros [= _ <-].
    by apply all_counts_with_new.
  - apply keeps_counts_reads_only. unfold gtk_accessible_value_alloc. reads_only_step.
Qed.

Lemma keeps_counts_gtk_int_accessible_value_new x :
  keeps_counts P (gtk_int_accessible_value_new x).
Proof.
  intros s a s'. rewrite gtk_int_accessible_value_new_spec. intros [= _ <-].
  by apply all_counts_with_new.
Qed.

Lemma keeps_counts_gtk_number_accessible_value_new x :
  keeps_counts P (gtk_number_accessible_value_new x).
Proof.
  intros s a s'. rewrite gtk_number_accessible_value_new_spec. intros [= _ <-].
  by apply all_counts_with_new.
Qed.

Lemma keeps_counts_gtk_string_accessible_value_new str :
  keeps_counts P (gtk_string_accessible_value_new str).
Proof.
  intros s a s'. destruct str as [str|].
  - rewrite gtk_string_accessible_value_new_spec. intros [= _ <-].
    by apply all_counts_with_new.
  - by rewrite gtk_string_accessible_value_new_NULL.
Qed.

Lemma keeps_counts_gtk_reference_accessible_value_new r :
  keeps_counts P (gtk_reference_accessible_value_new r).
Proof.
  destruct r as [o|]; cycle 1.
  { intros s a s'. rewrite gtk_reference_accessible_value_new_NULL. by intros [= _ <-]. }
  intros s a s'. destruct (objects s !! o) as [ob|] eqn:Ho.
  - destruct (is_accessible ob) eqn:Hacc.
    + rewrite (gtk_reference_accessible_value_new_spec o ob) by done. intros [= _ <-].
      intros Hc. by apply (all_counts_with_new P _ _ s).
    + rewrite (gtk_reference_accessible_value_new_not_accessible o ob) by done.
      by intros [= _ <-].
  - unfold gtk_reference_accessible_value_new, GTK_IS_ACCESSIBLE, g_object, mbind, M_bind.
    by rewrite Ho.
Qed.

Lemma keeps_counts_gtk_accessible_value_unref p :
  keeps_counts P (gtk_accessible_value_unref p).
Proof.
  destruct p as [l|];
    [|apply keeps_counts_reads_only; unfold gtk_accessible_value_unref; reads_only_step].
  intros s [] s'. destruct (heap s !! l) as [v|] eqn:Hv; cycle 1.
  { unfold gtk_accessible_value_unref, g_return_val_if_fail, deref, mbind, M_bind.
    rewrite bool_decide_true by done. by rewrite Hv. }
  destruct (decide (int_wrap (ref_count v - 1) = 0)) as [Hrc|Hrc].
  - intros Hun Hc l1 v1. rewrite (gtk_accessible_value_unref_last_heap _ _ _ _ Hv Hrc Hun).
    intros [_ Hv1]%lookup_delete_Some. by eapply Hc.
  - rewrite (gtk_accessible_value_unref_keep _ _ _ Hv Hrc). intros [= <-] Hc.
    apply all_counts_update; [|done]. simpl. apply P_release; [|done]. by apply (Hc l v).
Qed.

Lemma keeps_counts_call_int_ctor f v : keeps_counts P (call_int_ctor f v).
Proof.
  destruct f; simpl;
    first [apply keeps_counts_ret | apply keeps_counts_crash
          | apply keeps_counts_gtk_int_accessible_value_new].
Qed.

Lemma keeps_counts_call_number_ctor f v : keeps_counts P (call_number_ctor f v).
Proof.
  destruct f; simpl;
    first [apply keeps_counts_crash | apply keeps_counts_gtk_number_accessible_value_new].
Qed.

Lemma keeps_counts_call_string_ctor f v : keeps_counts P (call_string_ctor f v).
Proof.
  destruct f; simpl;
    first [apply keeps_counts_crash | apply keeps_counts_gtk_string_accessible_value_new].
Qed.

Lemma keeps_counts_call_ref_ctor f v : keeps_counts P (call_ref_ctor f v).
Proof.
  destruct f; simpl;
    first [apply keeps_counts_crash | apply keeps_counts_gtk_reference_accessible_value_new].
Qed.

Local Ltac keeps_counts_call :=
  repeat first
    [ apply keeps_counts_ret | apply keeps_counts_crash
    | apply keeps_counts_call_int_ctor | apply keeps_counts_call_number_ctor
    | apply keeps_counts_call_string_ctor | apply keeps_counts_call_ref_ctor
    | apply keeps_counts_gtk_int_accessible_value_new
    | apply keeps_counts_gtk_number_accessible_value_new
    | apply keeps_counts_gtk_string_accessible_value_new
    | (apply keeps_counts_reads_only;
       first [ apply reads_only_g_critical | apply reads_only_table_row ])
    | apply keeps_counts_bind; [|intros ?]
    | match goal with |- keeps_counts _ (g_assert ?c _) => unfold g_assert; destruct c end
    | match goal with |- keeps_counts _ (match ?x with _ => _ end) => destruct x end ].

Lemma keeps_counts_collect_from_args func cstate args :
  keeps_counts P (collect_from_args func cstate args).
Proof.
  unfold collect_from_args, va_arg_int, va_arg_double, va_arg_string, va_arg_pointer.
  keeps_counts_call.
Qed.

Lemma keeps_counts_collect_from_value func cstate v :
  keeps_counts P (collect_from_value func cstate v).
Proof.
  unfold collect_from_value, g_value_get_boolean, g_value_get_int, g_value_get_enum,
    g_value_get_double, g_value_get_string, g_value_get_object.
  keeps_counts_call.
Qed.

Lemma keeps_counts_g_object_destroy o : keeps_counts P (g_object_destroy o).
Proof.
  intros s [] s' Hd Hc. destruct (g_object_destroy_inv _ _ _ Hd) as (ob & _ & _ & Hheap).
  intros l v. rewrite Hheap. case_decide; [|apply Hc].
  destruct (heap s !! l) as [v0|] eqn:Hv0; [|done]. intros [= <-]. by apply (Hc l v0).
Qed.

(** Every call but a retain keeps the counts in [P]. *)
Lemma keeps_counts_exec c : (∀ l, c ≠ call_ref (Some l)) → keeps_counts P (exec c).
Proof.
  intros Hc. destruct c; simpl; try apply keeps_counts_ignore.
  - apply keeps_counts_gtk_accessible_value_alloc.
  - destruct self as [l|]; [by destruct (Hc l)|].
    apply keeps_counts_reads_only. unfold gtk_accessible_value_ref. reads_only_step.
  - apply keeps_counts_gtk_accessible_value_unref.
  - apply keeps_counts_reads_only, reads_only_gtk_accessible_value_print.
  - apply keeps_counts_reads_only, reads_only_gtk_accessible_value_to_string.
  - apply keeps_counts_reads_only, reads_only_gtk_accessible_value_equal.
  - apply keeps_counts_gtk_int_accessible_value_new.
  - apply keeps_counts_reads_only, reads_only_gtk_int_accessible_value_get.
  - apply keeps_counts_gtk_number_accessible_value_new.
  - apply keeps_counts_reads_only, reads_only_gtk_number_accessible_value_get.
  - apply keeps_counts_gtk_string_accessible_value_new.
  - apply keeps_counts_reads_only, reads_only_gtk_string_accessible_value_get.
  - apply keeps_counts_gtk_reference_accessible_value_new.
  - apply keeps_counts_reads_only, reads_only_gtk_reference_accessible_value_get.
  - unfold gtk_accessible_value_get_default_for_state. keeps_counts_call.
  - unfold gtk_accessible_value_collect_for_state.
    keeps_counts_call. apply keeps_counts_collect_from_args.
  - unfold gtk_accessible_value_collect_for_state_value.
    keeps_counts_call. apply keeps_counts_collect_from_value.
  - unfold gtk_accessible_value_get_default_for_property. keeps_counts_call.
  - unfold gtk_accessible_value_collect_for_property.
    keeps_counts_call. apply keeps_counts_collect_from_args.
  - unfold gtk_accessible_value_collect_for_property_value.
    keeps_counts_call. apply keeps_counts_collect_from_value.
  - by intros s o s' [= _ <-].
  - apply keeps_counts_g_object_destroy.
Qed.

End Counts.

(** A call is a retain of a live or dangling pointer, or it is not. *)
Lemma call_ref_or_not c : (∃ l, c = call_ref (Some l)) ∨ ∀ l, c ≠ call_ref (Some l).
Proof.
  destruct c; try (by right). destruct self as [l|]; [left; by exists l|by right].
Qed.

(** The functions of the file keep every count in the range of an [int]. *)
Lemma exec_in_range c : keeps_counts (λ n, INT_MIN ≤ n ≤ INT_MAX) (exec c).
Proof.
  destruct (call_ref_or_not c) as [[l ->]|Hc].
  - intros s [] s'. simpl. unfold ignore, mbind, M_bind.
    destruct (gtk_accessible_value_ref (Some l) s) as [a s1|] eqn:Hr; [|done].
    intros [= <-]. eapply gtk_accessible_value_ref_counts; [| |exact Hr]; [done|].
    intros; apply int_wrap_range.
  - apply keeps_counts_exec; [done| |done]. intros; apply int_wrap_range.
Qed.

Lemma reachable_in_range s : reachable s → all_counts (λ n, INT_MIN ≤ n ≤ INT_MAX) s.
Proof.
  induction 1 as [|c s s' _ IH Hc].
  - intros l v Hv. simpl in Hv. by rewrite lookup_empty in Hv.
  - by eapply exec_in_range.
Qed.

(** One more call allows one more reference, as long as the count cannot
    leave the range. *)
Lemma exec_counted (n : Z) c s s' :
  exec c s = Done tt s' → 0 ≤ n → n + 1 ≤ INT_MAX - 1 →
  all_counts (λ k, 1 ≤ k ≤ 1 + n) s → all_counts (λ k, 1 ≤ k ≤ 1 + (n + 1)) s'.
Proof.
  intros Hc Hn Hmax Hs. destruct (call_ref_or_not c) as [[l ->]|Hnot].
  - simpl in Hc. unfold ignore, mbind, M_bind in Hc.
    destruct (gtk_accessible_value_ref (Some l) s) as [a s1|] eqn:Hr; [|done].
    injection Hc as <-.
    eapply (gtk_accessible_value_ref_counts (λ k, 1 ≤ k ≤ 1 + n)); [| |exact Hr|exact Hs].
    + simpl. lia.
    + intros k Hk. simpl in *. rewrite int_wrap_id; unfold INT_MIN, INT_MAX in *; lia.
  - apply (all_counts_weaken (λ k, 1 ≤ k ≤ 1 + n)); [simpl; lia|].
    eapply (keeps_counts_exec (λ k, 1 ≤ k ≤ 1 + n)); [lia| |exact Hnot|exact Hc|exact Hs].
    intros k Hk Hne. simpl in *.
    rewrite int_wrap_id in *; unfold INT_MIN, INT_MAX in *; lia.
Qed.

Lemma reachable_in_counted n s :
  reachable_in n s → Z.of_nat n ≤ INT_MAX - 1 →
  all_counts (λ k, 1 ≤ k ≤ 1 + Z.of_nat n) s.
Proof.
  induction 1 as [|n c s s' _ IH Hc]; intros Hn.
  - intros l v Hv. simpl in Hv. by rewrite lookup_empty in Hv.
  - replace (Z.of_nat (S n)) with (Z.of_nat n + 1) in * by lia.
    eapply exec_counted; [exact Hc|lia|lia|]. apply IH. lia.
Qed.

(** X14: a live instance is referenced. In every state that the program
    reaches by [n] calls, for an [n] of at most [INT_MAX - 1] so that no
    count can have left the range of its [int], the reference count of
    every instance in the heap is at least one and at most one more than
    the number of calls: the allocator starts it at one, a retain adds
    one, and the release that brings it to zero frees the instance in the
    same call. *)
Theorem live_instances_have_positive_count (n : nat) (s : state) (l : loc)
    (v : GtkAccessibleValue) :
  reachable_in n s → Z.of_nat n ≤ INT_MAX - 1 → heap s !! l = Some v →
  1 ≤ ref_count v ≤ 1 + Z.of_nat n.
Proof. intros Hr Hn Hv. by apply (reachable_in_counted n s Hr Hn l v). Qed.

(** X17: a release frees exactly the last reference. In a reachable state,
    [gtk_accessible_value_unref] on a live instance whose count is
    positive returns; when the count was one the instance is gone from
    the heap and has been freed, otherwise it is still there with a count
    that is one less and still positive, and nothing was finalized or
    freed. Every other instance is as it was. *)
Theorem unref_frees_exactly_the_last_reference (s : state) (l : loc)
    (v : GtkAccessibleValue) :
  reachable s → heap s !! l = Some v → 1 ≤ ref_count v →
  ∃ s',
    gtk_accessible_value_unref (Some l) s = Done tt s' ∧
    (∀ l', l' ≠ l → heap s' !! l' = heap s !! l') ∧
    (ref_count v = 1 →
     heap s' !! l = None ∧ log s' = log s ++ last_release_events l v) ∧
    (ref_count v ≠ 1 →
     heap s' !! l = Some (with_count v (ref_count v - 1)) ∧ 1 ≤ ref_count v - 1 ∧
     objects s' = objects s ∧ log s' = log s).
Proof.
  intros Hr Hv Hpos. pose proof (reachable_wf s Hr) as W.
  pose proof (reachable_in_range s Hr l v Hv) as Hrange. simpl in Hrange.
  assert (int_wrap (ref_count v - 1) = ref_count v - 1) as Hw
    by (apply int_wrap_id; unfold INT_MIN in *; lia).
  destruct (decide (ref_count v = 1)) as [Hrc|Hrc].
  - eexists. split.
    { apply (gtk_accessible_value_unref_last_spec l v s Hv); [rewrite Hw; lia|].
      by apply wf_well_formed_at. }
    simpl. split; [intros l' Hne; by rewrite lookup_delete_ne|].
    split; [intros _; by rewrite lookup_delete_eq|done].
  - eexists. split; [apply gtk_accessible_value_unref_keep; [done|rewrite Hw; lia]|].
    rewrite Hw.
    split; [intros l' Hne; by rewrite set_heap_heap, lookup_insert_ne|].
    split; [done|]. intros _. rewrite set_heap_heap, lookup_insert_eq.
    split; [done|]. split; [lia|done].
Qed.

(** ** The container on [NULL] *)

(** X1: the functions of the container fail softly on [NULL]. The
    allocator without a class, [gtk_accessible_value_ref],
    [gtk_accessible_value_unref], [gtk_accessible_value_print] and
    [gtk_accessible_value_to_string] without an instance, and
    [gtk_accessible_value_print] without a buffer (whatever the instance
    pointer, which is not looked at) log the failed precondition and
    return [NULL], or the buffer they were given; heap and objects stay as
    they are. *)
Theorem container_calls_reject_NULL (s : state) :
  gtk_accessible_value_alloc None s =
    Done None (add_log (EvCritical "gtk_accessible_value_alloc" "value_class != NULL") s) ∧
  gtk_accessible_value_ref None s =
    Done None (add_log (EvCritical "gtk_accessible_value_ref" "self != NULL") s) ∧
  gtk_accessible_value_unref None s =
    Done tt (add_log (EvCritical "gtk_accessible_value_unref" "self != NULL") s) ∧
  (∀ buffer, gtk_accessible_value_print None buffer s =
     Done buffer (add_log (EvCritical "gtk_accessible_value_print" "self != NULL") s)) ∧
  (∀ self, self ≠ None →
     gtk_accessible_value_print self None s =
     Done None (add_log (EvCritical "gtk_accessible_value_print" "buffer != NULL") s)) ∧
  gtk_accessible_value_to_string None s =
    Done None (add_log (EvCritical "gtk_accessible_value_to_string" "self != NULL") s).
Proof.
  split; [done|]. split; [done|]. split; [done|]. split; [done|]. split; [|done].
  intros self Hself. unfold gtk_accessible_value_print, g_return_val_if_fail.
  by rewrite bool_decide_true.
Qed.

(** ** Typed accessors on live instances *)

Lemma gtk_int_accessible_value_get_live l v x s :
  heap s !! l = Some v → value_class v = addr_GTK_INT_ACCESSIBLE_VALUE →
  fields v = GtkIntAccessibleValue x →
  gtk_int_accessible_value_get (Some l) s = Done x s.
Proof.
  intros Hv Hc Hf. unfold gtk_int_accessible_value_get, g_return_val_if_fail.
  rewrite bool_decide_true by done.
  rewrite (bind_Done _ _ _ _ _ (deref_live _ _ _ Hv)), Hc.
  rewrite bool_decide_true by done. by rewrite (int_value_live _ _ _ Hv), Hf.
Qed.

Lemma gtk_number_accessible_value_get_live l v x s :
  heap s !! l = Some v → value_class v = addr_GTK_NUMBER_ACCESSIBLE_VALUE →
  fields v = GtkNumberAccessibleValue x →
  gtk_number_accessible_value_get (Some l) s = Done x s.
Proof.
  intros Hv Hc Hf. unfold gtk_number_accessible_value_get, g_return_val_if_fail.
  rewrite bool_decide_true by done.
  rewrite (bind_Done _ _ _ _ _ (deref_live _ _ _ Hv)), Hc.
  rewrite bool_decide_true by done. by rewrite (number_value_live _ _ _ Hv), Hf.
Qed.

Lemma gtk_string_accessible_value_get_live l v x n s :
  heap s !! l = Some v → value_class v = addr_GTK_STRING_ACCESSIBLE_VALUE →
  fields v = GtkStringAccessibleValue x n →
  gtk_string_accessible_value_get (Some l) s = Done x s.
Proof.
  intros Hv Hc Hf. unfold gtk_string_accessible_value_get, g_return_val_if_fail.
  rewrite bool_decide_true by done.
  rewrite (bind_Done _ _ _ _ _ (deref_live _ _ _ Hv)), Hc.
  rewrite bool_decide_true by done. by rewrite (string_value_live _ _ _ Hv), Hf.
Qed.

Lemma gtk_reference_accessible_value_get_live l v r s :
  heap s !! l = Some v → value_class v = addr_GTK_REFERENCE_ACCESSIBLE_VALUE →
  fields v = GtkReferenceAccessibleValue r →
  gtk_reference_accessible_value_get (Some l) s = Done r s.
Proof.
  intros Hv Hc Hf. unfold gtk_reference_accessible_value_get, g_return_val_if_fail.
  rewrite bool_decide_true by done.
  rewrite (bind_Done _ _ _ _ _ (deref_live _ _ _ Hv)), Hc.
  rewrite bool_decide_true by done. by rewrite (reference_ref_live _ _ _ Hv), Hf.
Qed.

(** X2: what a constructor stores, the accessor of the kind reads back.
    Each of the four constructors returns a pointer to an address that was
    not in use; the heap afterwards is the heap of before with, at that
    address, an instance of the class of the kind with one reference and
    the argument as its payload (for a string, the copy and its length),
    so the instances that were there are untouched; and the typed
    accessor on the new instance returns the very argument of the
    constructor (for a number the same binary64 value, whatever it is)
    without a diagnostic. The reference constructor also appends one weak
    reference for the new instance to those of the object. *)
Theorem constructed_values_read_back (s : state) :
  (∀ x, ∃ l s',
     gtk_int_accessible_value_new x s = Done (Some l) s' ∧
     heap s !! l = None ∧
     heap s' = <[l := new_value addr_GTK_INT_ACCESSIBLE_VALUE (GtkIntAccessibleValue x)]> (heap s) ∧
     gtk_int_accessible_value_get (Some l) s' = Done x s') ∧
  (∀ x, ∃ l s',
     gtk_number_accessible_value_new x s = Done (Some l) s' ∧
     heap s !! l = None ∧
     heap s' =
       <[l := new_value addr_GTK_NUMBER_ACCESSIBLE_VALUE (GtkNumberAccessibleValue x)]> (heap s) ∧
     gtk_number_accessible_value_get (Some l) s' = Done x s') ∧
  (∀ str, ∃ l s',
     gtk_string_accessible_value_new (Some str) s = Done (Some l) s' ∧
     heap s !! l = None ∧
     heap s' =
       <[l := new_value addr_GTK_STRING_ACCESSIBLE_VALUE
                (GtkStringAccessibleValue (Some str) (Z.of_nat (String.length str)))]>
         (heap s) ∧
     gtk_string_accessible_value_get (Some l) s' = Done (Some str) s') ∧
  (∀ o ob, objects s !! o = Some ob → is_accessible ob = true →
     ∃ l s' ob',
       gtk_reference_accessible_value_new (Some o) s = Done (Some l) s' ∧
       heap s !! l = None ∧
       heap s' =
         <[l := new_value addr_GTK_REFERENCE_ACCESSIBLE_VALUE
                  (GtkReferenceAccessibleValue (Some o))]> (heap s) ∧
       objects s' !! o = Some ob' ∧ weak_refs ob' = weak_refs ob ++ [l] ∧
       gtk_reference_accessible_value_get (Some l) s' = Done (Some o) s').
Proof.
  split; [|split; [|split]].
  - intros x. eexists _, _. split; [apply gtk_int_accessible_value_new_spec|].
    split; [apply next_loc_fresh|]. split; [done|].
    eapply gtk_int_accessible_value_get_live; [apply with_new_lookup|done..].
  - intros x. eexists _, _. split; [apply gtk_number_accessible_value_new_spec|].
    split; [apply next_loc_fresh|]. split; [done|].
    eapply gtk_number_accessible_value_get_live; [apply with_new_lookup|done..].
  - intros str. eexists _, _. split; [apply gtk_string_accessible_value_new_spec|].
    split; [apply next_loc_fresh|]. split; [done|].
    eapply gtk_string_accessible_value_get_live; [apply with_new_lookup|done..].
  - intros o ob Ho Hacc. eexists _, _, _.
    split; [by apply gtk_reference_accessible_value_new_spec|].
    split; [apply next_loc_fresh|]. split; [done|].
    split; [apply lookup_insert_eq|]. split; [done|].
    eapply (gtk_reference_accessible_value_get_live _
              (new_value addr_GTK_REFERENCE_ACCESSIBLE_VALUE
                 (GtkReferenceAccessibleValue (Some o)))); [|done..].
    apply (with_new_lookup _ _ s).
Qed.

(** ** Preconditions of the constructors *)

(** X4: the reference constructor wants an accessible object. On [NULL],
    and on a live object that does not implement [GtkAccessible], it logs
    the failed check and returns [NULL]: nothing is allocated and no weak
    reference is registered. *)
Theorem reference_new_needs_an_accessible_object (s : state) :
  gtk_reference_accessible_value_new None s =
    Done None (add_log (EvCritical "gtk_reference_accessible_value_new"
                          "GTK_IS_ACCESSIBLE (ref)") s) ∧
  (∀ o ob, objects s !! o = Some ob → is_accessible ob = false →
     gtk_reference_accessible_value_new (Some o) s =
     Done None (add_log (EvCritical "gtk_reference_accessible_value_new"
                           "GTK_IS_ACCESSIBLE (ref)") s)).
Proof.
  split; [done|]. intros o ob Ho Hacc.
  unfold gtk_reference_accessible_value_new, GTK_IS_ACCESSIBLE.
  erewrite bind_Done; cycle 1.
  { by rewrite (bind_Done _ _ _ _ _ (g_object_live _ _ _ Ho)), ret_Done, Hacc. }
  done.
Qed.

Lemma string_rows row :
  row ∈ collect_states ++ collect_props → ctype row = GTK_ACCESSIBLE_COLLECT_STRING →
  ctor row = fn_gtk_string_accessible_value_new.
Proof.
  intros [H|H]%elem_of_app Hty.
  - by pose proof (collect_states_consistent row H) as Hc; unfold row_consistent in Hc;
      rewrite Hty in Hc.
  - by pose proof (collect_props_consistent row H) as Hc; unfold row_consistent in Hc;
      rewrite Hty in Hc.
Qed.

Lemma collect_from_value_string_NULL func row v s :
  ctype row = GTK_ACCESSIBLE_COLLECT_STRING →
  ctor row = fn_gtk_string_accessible_value_new →
  (∀ str, v ≠ G_TYPE_STRING (Some str)) →
  collect_from_value func row v s = Crash UndefinedBehaviour.
Proof.
  intros Hty Hctor Hv. unfold collect_from_value. rewrite Hty, Hctor.
  destruct v as [b|i|e|d|[str|]|o]; try (by destruct (Hv str)); simpl.
  all: unfold mbind, M_bind; simpl; apply gtk_string_accessible_value_new_NULL.
Qed.

(** X5: the string constructor reads through its argument.
    [gtk_string_accessible_value_new (NULL)] is undefined: the copy of
    [g_strdup] is [NULL] and harmless, but [strlen] is applied to the
    argument itself. The decoders pass what they are given: a string
    property collected from a [NULL] positional argument, or from a
    [GValue] that holds no string ([g_value_get_string] then returns
    [NULL]), reaches that call. *)
Theorem string_constructor_faults_on_NULL (s : state) :
  gtk_string_accessible_value_new None s = Crash UndefinedBehaviour ∧
  (∀ property row rest,
     collect_props !! Z.to_nat (property_int property) = Some row →
     ctype row = GTK_ACCESSIBLE_COLLECT_STRING →
     gtk_accessible_value_collect_for_property property (va_string None :: rest) s =
     Crash UndefinedBehaviour) ∧
  (∀ property row v,
     collect_props !! Z.to_nat (property_int property) = Some row →
     ctype row = GTK_ACCESSIBLE_COLLECT_STRING →
     (∀ str, v ≠ G_TYPE_STRING (Some str)) →
     gtk_accessible_value_collect_for_property_value property v s =
     Crash UndefinedBehaviour).
Proof.
  split; [apply gtk_string_accessible_value_new_NULL|]. split.
  - intros property row rest Hrow Hty.
    destruct (table_row_props property) as (row' & Hrow' & Htab & _).
    assert (row' = row) as -> by congruence.
    assert (ctor row = fn_gtk_string_accessible_value_new) as Hctor.
    { apply string_rows; [|done]. apply elem_of_app. right.
      by eapply list_elem_of_lookup_2. }
    unfold gtk_accessible_value_collect_for_property. rewrite Htab.
    erewrite bind_Done; [|reflexivity].
    unfold collect_from_args. rewrite Hty, Hctor. simpl.
    unfold mbind, M_bind. simpl. by rewrite gtk_string_accessible_value_new_NULL.
  - intros property row v Hrow Hty Hv.
    destruct (table_row_props property) as (row' & Hrow' & Htab & _).
    assert (row' = row) as -> by congruence.
    assert (ctor row = fn_gtk_string_accessible_value_new) as Hctor.
    { apply string_rows; [|done]. apply elem_of_app. right.
      by eapply list_elem_of_lookup_2. }
    unfold gtk_accessible_value_collect_for_property_value. rewrite Htab.
    erewrite bind_Done; [|reflexivity].
    by apply collect_from_value_string_NULL.
Qed.

(** ** Printing *)

Lemma append_nil_r (str : string) : str +:+ "" = str.
Proof.
  induction str as [|a str IH]; [done|].
  change (String a (str +:+ "") = String a str). by rewrite IH.
Qed.

Lemma gtk_accessible_value_print_live l v f buffer s :
  heap s !! l = Some v → print (class_at (value_class v)) = Some f →
  gtk_accessible_value_print (Some l) (Some buffer) s =
  (b' ← f (Some l) buffer; mret (Some b')) s.
Proof.
  intros Hv Hf. unfold gtk_accessible_value_print, g_return_val_if_fail.
  rewrite !bool_decide_true by done.
  by rewrite (bind_Done _ _ _ _ _ (deref_live _ _ _ Hv)), Hf.
Qed.

Lemma gtk_accessible_value_print_rendering l v s :
  wf s → heap s !! l = Some v →
  ∃ s', only_logs s s' ∧
    ((∀ n, fields v ≠ GtkStringAccessibleValue None n) → s' = s) ∧
    ∀ buffer, gtk_accessible_value_print (Some l) (Some buffer) s =
              Done (Some (buffer +:+ rendering s v)) s'.
Proof.
  intros W Hv. pose proof (wf_layout s W l v Hv) as Hlay.
  unfold layout_ok in Hlay. unfold rendering.
  destruct (value_class v) eqn:Hc, (fields v) as [x|x|[str|] n|[o|]] eqn:Hf; try done.
  - exists s. split; [apply only_logs_refl|]. split; [done|]. intros buffer.
    erewrite gtk_accessible_value_print_live; [|done|by rewrite Hc].
    unfold gtk_int_accessible_value_print.
    assert (int_value (Some l) s = Done x s) as Hx
      by (by rewrite (int_value_live _ _ _ Hv), Hf).
    erewrite bind_Done; [reflexivity|]. by rewrite (bind_Done _ _ _ _ _ Hx).
  - exists s. split; [apply only_logs_refl|]. split; [done|]. intros buffer.
    erewrite gtk_accessible_value_print_live; [|done|by rewrite Hc].
    unfold gtk_number_accessible_value_print.
    assert (number_value (Some l) s = Done x s) as Hx
      by (by rewrite (number_value_live _ _ _ Hv), Hf).
    erewrite bind_Done; [reflexivity|]. by rewrite (bind_Done _ _ _ _ _ Hx).
  - exists s. split; [apply only_logs_refl|]. split; [done|]. intros buffer.
    erewrite gtk_accessible_value_print_live; [|done|by rewrite Hc].
    unfold gtk_string_accessible_value_print.
    assert (string_value (Some l) s = Done (Some str) s) as Hx
      by (by rewrite (string_value_live _ _ _ Hv), Hf).
    erewrite bind_Done; [reflexivity|]. by rewrite (bind_Done _ _ _ _ _ Hx).
  - exists (add_log (EvCritical "g_string_append" "val != NULL") s).
    split; [apply only_logs_critical|]. split; [by intros Hn; destruct (Hn n)|].
    intros buffer.
    erewrite gtk_accessible_value_print_live; [|done|by rewrite Hc].
    unfold gtk_string_accessible_value_print.
    assert (string_value (Some l) s = Done None s) as Hx
      by (by rewrite (string_value_live _ _ _ Hv), Hf).
    rewrite append_nil_r. erewrite bind_Done; [reflexivity|].
    by rewrite (bind_Done _ _ _ _ _ Hx).
  - destruct (wf_linked s W l v o Hv Hf) as (ob & Ho & _). rewrite Ho.
    exists s. split; [apply only_logs_refl|]. split; [done|]. intros buffer.
    erewrite gtk_accessible_value_print_live; [|done|by rewrite Hc].
    unfold gtk_reference_accessible_value_print.
    assert (reference_ref (Some l) s = Done (Some o) s) as Hx
      by (by rewrite (reference_ref_live _ _ _ Hv), Hf).
    assert (G_OBJECT_TYPE_NAME (Some o) s = Done (g_type_name ob) s) as Hn
      by (unfold G_OBJECT_TYPE_NAME; by rewrite (bind_Done _ _ _ _ _ (g_object_live _ _ _ Ho))).
    erewrite bind_Done; [reflexivity|]. rewrite (bind_Done _ _ _ _ _ Hx).
    by rewrite (bind_Done _ _ _ _ _ Hn).
  - exists s. split; [apply only_logs_refl|]. split; [done|]. intros buffer.
    erewrite gtk_accessible_value_print_live; [|done|by rewrite Hc].
    unfold gtk_reference_accessible_value_print.
    assert (reference_ref (Some l) s = Done None s) as Hx
      by (by rewrite (reference_ref_live _ _ _ Hv), Hf).
    erewrite bind_Done; [reflexivity|]. by rewrite (bind_Done _ _ _ _ _ Hx).
Qed.

(** X3: printing appends, and [gtk_accessible_value_to_string] is printing
    into an empty buffer. In a reachable state every live instance prints:
    [gtk_accessible_value_print] returns the buffer followed by the
    rendering of the instance, [gtk_accessible_value_to_string] returns
    that rendering alone, and both leave the heap and the objects as they
    are. Only a string instance whose contents are [NULL] makes them log
    (the complaint of [g_string_append]); the buffer then stays as it is. *)
Theorem print_appends_the_rendering (s : state) (l : loc) (v : GtkAccessibleValue) :
  reachable s → heap s !! l = Some v →
  ∃ s',
    only_logs s s' ∧
    ((∀ n, fields v ≠ GtkStringAccessibleValue None n) → s' = s) ∧
    gtk_accessible_value_to_string (Some l) s = Done (Some (rendering s v)) s' ∧
    ∀ buffer, gtk_accessible_value_print (Some l) (Some buffer) s =
              Done (Some (buffer +:+ rendering s v)) s'.
Proof.
  intros Hr Hv. pose proof (reachable_wf s Hr) as W.
  destruct (gtk_accessible_value_print_rendering l v s W Hv) as (s' & Hlogs & Hsame & Hp).
  exists s'. split; [done|]. split; [done|]. split; [|done].
  unfold gtk_accessible_value_to_string, g_return_val_if_fail.
  rewrite bool_decide_true by done. apply (Hp ""%string).
Qed.

(** ** Decoding a [GValue] of another type *)

Lemma collect_from_value_mistyped func row v s :
  holds (ctype row) v = false →
  ctype row ≠ GTK_ACCESSIBLE_COLLECT_STRING →
  ctype row ≠ GTK_ACCESSIBLE_COLLECT_INVALID →
  ∃ getter expr,
    collect_from_value func row v s =
    invoke (ctor row) (zero_input (ctype row)) (add_log (EvCritical getter expr) s).
Proof.
  destruct row as [z t nm f]. simpl.
  destruct t, v; simpl; try done; intros _ _ _; by eexists _, _.
Qed.

(** X6: the decoders do not check the type of the [GValue]. When the boxed
    value holds another type than the row of the attribute collects, the
    accessor of GLib complains and returns zero, and the decoder goes on
    to call the registered constructor on that zero: [0] for booleans,
    integers, tristates and tokens, [0.0] for numbers, [NULL] for
    references. (For strings see X5.) *)
Theorem mistyped_boxed_value_decodes_as_zero (s : state) (v : GValue) :
  (∀ property row,
     collect_props !! Z.to_nat (property_int property) = Some row →
     holds (ctype row) v = false →
     ctype row ≠ GTK_ACCESSIBLE_COLLECT_STRING →
     ∃ getter expr,
       gtk_accessible_value_collect_for_property_value property v s =
       invoke (ctor row) (zero_input (ctype row)) (add_log (EvCritical getter expr) s)) ∧
  (∀ state row,
     state ≠ GTK_ACCESSIBLE_STATE_NONE →
     collect_states !! Z.to_nat (state_int state) = Some row →
     holds (ctype row) v = false →
     ∃ getter expr,
       gtk_accessible_value_collect_for_state_value state v s =
       invoke (ctor row) (zero_input (ctype row)) (add_log (EvCritical getter expr) s)).
Proof.
  split.
  - intros property row Hrow Hholds Hstr.
    destruct (table_row_props property) as (row' & Hrow' & Htab & _).
    assert (row' = row) as -> by congruence.
    assert (row_consistent row) as Hcons
      by (eapply collect_props_consistent, list_elem_of_lookup_2, Hrow).
    unfold gtk_accessible_value_collect_for_property_value. rewrite Htab.
    erewrite bind_Done; [|reflexivity].
    apply collect_from_value_mistyped; [done..|].
    intros Hinv. unfold row_consistent in Hcons. by rewrite Hinv in Hcons.
  - intros state row Hst Hrow Hholds.
    destruct (table_row_states state Hst) as (row' & Hrow' & Htab & _).
    assert (row' = row) as -> by congruence.
    assert (row_consistent row) as Hcons
      by (eapply collect_states_consistent, list_elem_of_lookup_2, Hrow).
    unfold gtk_accessible_value_collect_for_state_value, g_assert.
    rewrite bool_decide_true by done. rewrite Htab.
    erewrite bind_Done; [|reflexivity].
    apply collect_from_value_mistyped; [done| |].
    + intros Hty. destruct state; simpl in Hrow; injection Hrow as <-; done.
    + intros Hinv. unfold row_consistent in Hcons. by rewrite Hinv in Hcons.
Qed.

(** ** Defaults and the tables *)

Lemma default_for_state_rows state row s :
  state ≠ GTK_ACCESSIBLE_STATE_NONE →
  collect_states !! Z.to_nat (state_int state) = Some row →
  hard_coded (ctype row) ∧
  ∃ v, gtk_accessible_value_get_default_for_state state s =
       Done (static_instance (ctor row) v) s.
Proof.
  intros Hst Hrow.
  destruct state; [by destruct Hst|..]; simpl in Hrow; injection Hrow as <-;
    (split; [unfold hard_coded; cbn [ctype]; tauto|eexists; reflexivity]).
Qed.

Lemma default_for_property_reference_rows property row s :
  collect_props !! Z.to_nat (property_int property) = Some row →
  ctype row = GTK_ACCESSIBLE_COLLECT_REF →
  gtk_accessible_value_get_default_for_property property s = Done None s.
Proof.
  intros Hrow Hty.
  destruct property; simpl in Hrow; injection Hrow as <-;
    first [discriminate Hty|reflexivity].
Qed.

Lemma default_for_property_hard_coded_rows property row s :
  collect_props !! Z.to_nat (property_int property) = Some row →
  hard_coded (ctype row) →
  ∃ v, gtk_accessible_value_get_default_for_property property s =
       Done (static_instance (ctor row) v) s.
Proof.
  intros Hrow Hty. unfold hard_coded in Hty.
  destruct property; simpl in Hrow; injection Hrow as <-; cbn [ctype] in Hty;
    first [ by destruct Hty as [Hty|[Hty|Hty]]; discriminate Hty
          | eexists; reflexivity ].
Qed.

Lemma default_for_property_dynamic_rows property row s :
  collect_props !! Z.to_nat (property_int property) = Some row →
  dynamic (ctype row) → property ≠ GTK_ACCESSIBLE_PROPERTY_RELEVANT →
  gtk_accessible_value_get_default_for_property property s =
  invoke (ctor row) (zero_input (ctype row)) s.
Proof.
  intros Hrow Hty Hrel. unfold dynamic in Hty.
  destruct property; simpl in Hrow; injection Hrow as <-; cbn [ctype] in Hty;
    first [ by destruct Hty as [Hty|[Hty|Hty]]; discriminate Hty
          | by destruct Hrel
          | reflexivity ].
Qed.

Lemma default_for_property_logs_nothing property s :
  ∃ a s', gtk_accessible_value_get_default_for_property property s = Done a s' ∧
          log s' = log s ∧ objects s' = objects s.
Proof.
  destruct property;
    first
      [ by (exists None, s)
      | by (eexists _, s; split; [reflexivity|])
      | (change (gtk_accessible_value_get_default_for_property _ s)
           with (gtk_int_accessible_value_new 0 s);
         rewrite gtk_int_accessible_value_new_spec; by eexists _, _)
      | (change (gtk_accessible_value_get_default_for_property _ s)
           with (gtk_number_accessible_value_new 0 s);
         rewrite gtk_number_accessible_value_new_spec; by eexists _, _)
      | (change (gtk_accessible_value_get_default_for_property _ s)
           with (gtk_string_accessible_value_new (Some ""%string) s);
         rewrite gtk_string_accessible_value_new_spec; by eexists _, _) ].
Qed.

(** X7: the defaults follow the tables. For the reserved state
    [GTK_ACCESSIBLE_STATE_NONE] the function aborts on its assertion; for
    every other state the default is a static instance handed out by the
    constructor registered in the row of the state, and the program state
    is untouched. For a property, the default of a reference row is
    [NULL]; the default of a boolean or token row is a static instance of
    the registered constructor; and the default of an integer, number or
    string row is what the registered constructor makes of the zero of its
    type (a fresh instance for [0], [0.0] or the empty string), with the
    one exception of [GTK_ACCESSIBLE_PROPERTY_RELEVANT]. In no case is
    anything logged: the switch covers every row. *)
Theorem defaults_follow_the_tables (s : state) :
  gtk_accessible_value_get_default_for_state GTK_ACCESSIBLE_STATE_NONE s =
    Crash AssertionFailed ∧
  (∀ state row,
     state ≠ GTK_ACCESSIBLE_STATE_NONE →
     collect_states !! Z.to_nat (state_int state) = Some row →
     hard_coded (ctype row) ∧
     ∃ v, gtk_accessible_value_get_default_for_state state s =
          Done (static_instance (ctor row) v) s) ∧
  (∀ property row,
     collect_props !! Z.to_nat (property_int property) = Some row →
     (ctype row = GTK_ACCESSIBLE_COLLECT_REF →
      gtk_accessible_value_get_default_for_property property s = Done None s) ∧
     (hard_coded (ctype row) →
      ∃ v, gtk_accessible_value_get_default_for_property property s =
           Done (static_instance (ctor row) v) s) ∧
     (dynamic (ctype row) → property ≠ GTK_ACCESSIBLE_PROPERTY_RELEVANT →
      gtk_accessible_value_get_default_for_property property s =
      invoke (ctor row) (zero_input (ctype row)) s) ∧
     ∃ a s', gtk_accessible_value_get_default_for_property property s = Done a s' ∧
             log s' = log s ∧ objects s' = objects s).
Proof.
  split; [reflexivity|]. split.
  - intros state row Hst Hrow. by apply default_for_state_rows.
  - intros property row Hrow.
    split; [by apply default_for_property_reference_rows|].
    split; [by apply default_for_property_hard_coded_rows|].
    split; [by apply default_for_property_dynamic_rows|].
    apply default_for_property_logs_nothing.
Qed.

(** Two dynamic instances of one payload, one constructed after the other. *)
Lemma two_ints_fresh_equal x s :
  ∃ a s1 b s2 va vb,
    gtk_int_accessible_value_new x s = Done (Some a) s1 ∧
    gtk_int_accessible_value_new x s1 = Done (Some b) s2 ∧
    a ≠ b ∧ heap s !! a = None ∧ heap s1 !! b = None ∧
    heap s2 !! a = Some va ∧ heap s2 !! b = Some vb ∧
    ref_count va = 1 ∧ ref_count vb = 1 ∧
    gtk_accessible_value_equal (Some a) (Some b) s2 = Done true s2.
Proof.
  set (s1 := with_new addr_GTK_INT_ACCESSIBLE_VALUE (GtkIntAccessibleValue x) s).
  set (s2 := with_new addr_GTK_INT_ACCESSIBLE_VALUE (GtkIntAccessibleValue x) s1).
  assert (heap s1 !! next_loc s = Some (new_value addr_GTK_INT_ACCESSIBLE_VALUE
            (GtkIntAccessibleValue x))) as H1 by apply with_new_lookup.
  exists (next_loc s), s1, (next_loc s1), s2. eexists _, _.
  split; [apply gtk_int_accessible_value_new_spec|].
  split; [apply gtk_int_accessible_value_new_spec|].
  split; [by eapply next_loc_ne_live|].
  split; [apply next_loc_fresh|]. split; [apply next_loc_fresh|].
  split; [by apply with_new_lookup_old|]. split; [apply with_new_lookup|].
  split; [done|]. split; [done|].
  eapply equal_constructed_steps; [apply gtk_int_accessible_value_new_spec..|].
  by rewrite equal_constructed_int, Z.eqb_refl.
Qed.

Lemma two_numbers_fresh_equal x s :
  is_finite x = true →
  ∃ a s1 b s2 va vb,
    gtk_number_accessible_value_new x s = Done (Some a) s1 ∧
    gtk_number_accessible_value_new x s1 = Done (Some b) s2 ∧
    a ≠ b ∧ heap s !! a = None ∧ heap s1 !! b = None ∧
    heap s2 !! a = Some va ∧ heap s2 !! b = Some vb ∧
    ref_count va = 1 ∧ ref_count vb = 1 ∧
    gtk_accessible_value_equal (Some a) (Some b) s2 = Done true s2.
Proof.
  intros Hfin.
  set (s1 := with_new addr_GTK_NUMBER_ACCESSIBLE_VALUE (GtkNumberAccessibleValue x) s).
  set (s2 := with_new addr_GTK_NUMBER_ACCESSIBLE_VALUE (GtkNumberAccessibleValue x) s1).
  assert (heap s1 !! next_loc s = Some (new_value addr_GTK_NUMBER_ACCESSIBLE_VALUE
            (GtkNumberAccessibleValue x))) as H1 by apply with_new_lookup.
  exists (next_loc s), s1, (next_loc s1), s2. eexists _, _.
  split; [apply gtk_number_accessible_value_new_spec|].
  split; [apply gtk_number_accessible_value_new_spec|].
  split; [by eapply next_loc_ne_live|].
  split; [apply next_loc_fresh|]. split; [apply next_loc_fresh|].
  split; [by apply with_new_lookup_old|]. split; [apply with_new_lookup|].
  split; [done|]. split; [done|].
  eapply equal_constructed_steps; [apply gtk_number_accessible_value_new_spec..|].
  by rewrite equal_constructed_number, G_APPROX_VALUE_diag, Hfin.
Qed.

Lemma two_strings_fresh_equal str s :
  ∃ a s1 b s2 va vb,
    gtk_string_accessible_value_new (Some str) s = Done (Some a) s1 ∧
    gtk_string_accessible_value_new (Some str) s1 = Done (Some b) s2 ∧
    a ≠ b ∧ heap s !! a = None ∧ heap s1 !! b = None ∧
    heap s2 !! a = Some va ∧ heap s2 !! b = Some vb ∧
    ref_count va = 1 ∧ ref_count vb = 1 ∧
    gtk_accessible_value_equal (Some a) (Some b) s2 = Done true s2.
Proof.
  set (f := GtkStringAccessibleValue (Some str) (Z.of_nat (String.length str))).
  set (s1 := with_new addr_GTK_STRING_ACCESSIBLE_VALUE f s).
  set (s2 := with_new addr_GTK_STRING_ACCESSIBLE_VALUE f s1).
  assert (heap s1 !! next_loc s = Some (new_value addr_GTK_STRING_ACCESSIBLE_VALUE f)) as H1
    by apply with_new_lookup.
  exists (next_loc s), s1, (next_loc s1), s2. eexists _, _.
  split; [apply gtk_string_accessible_value_new_spec|].
  split; [apply gtk_string_accessible_value_new_spec|].
  split; [by eapply next_loc_ne_live|].
  split; [apply next_loc_fresh|]. split; [apply next_loc_fresh|].
  split; [by apply with_new_lookup_old|]. split; [apply with_new_lookup|].
  split; [done|]. split; [done|].
  eapply equal_constructed_steps; [apply gtk_string_accessible_value_new_spec..|].
  by rewrite equal_constructed_string, bool_decide_true.
Qed.

(** X8: the default of a dynamic kind is a new instance each time. For an
    integer, number or string property (other than
    [GTK_ACCESSIBLE_PROPERTY_RELEVANT]), two calls of
    [gtk_accessible_value_get_default_for_property] return two distinct
    addresses that were not in use, each holding an instance with one
    reference of its own, and the two instances are equal for
    [gtk_accessible_value_equal]. *)
Theorem dynamic_defaults_are_fresh_and_equal (s : state)
    (property : GtkAccessibleProperty) (row : GtkAccessibleCollect) :
  collect_props !! Z.to_nat (property_int property) = Some row →
  dynamic (ctype row) →
  property ≠ GTK_ACCESSIBLE_PROPERTY_RELEVANT →
  ∃ a s1 b s2 va vb,
    gtk_accessible_value_get_default_for_property property s = Done (Some a) s1 ∧
    gtk_accessible_value_get_default_for_property property s1 = Done (Some b) s2 ∧
    a ≠ b ∧ heap s !! a = None ∧ heap s1 !! b = None ∧
    heap s2 !! a = Some va ∧ heap s2 !! b = Some vb ∧
    ref_count va = 1 ∧ ref_count vb = 1 ∧
    gtk_accessible_value_equal (Some a) (Some b) s2 = Done true s2.
Proof.
  intros Hrow Hdyn Hrel. unfold dynamic in Hdyn.
  destruct Hdyn as [Hty|[Hty|Hty]].
  - destruct property; simpl in Hrow; injection Hrow as <-;
      first [discriminate Hty|apply two_ints_fresh_equal].
  - destruct property; simpl in Hrow; injection Hrow as <-;
      first [discriminate Hty|apply two_numbers_fresh_equal; reflexivity].
  - destruct property; simpl in Hrow; injection Hrow as <-;
      first [discriminate Hty|by destruct Hrel|apply two_strings_fresh_equal].
Qed.

(** ** Decoding and reading back *)

Lemma gtk_int_accessible_value_new_get x s :
  ∃ l s', gtk_int_accessible_value_new x s = Done (Some l) s' ∧
          heap s !! l = None ∧
          heap s' = <[l := new_value addr_GTK_INT_ACCESSIBLE_VALUE
                            (GtkIntAccessibleValue x)]> (heap s) ∧
          gtk_int_accessible_value_get (Some l) s' = Done x s'.
Proof.
  eexists _, _. split; [apply gtk_int_accessible_value_new_spec|].
  split; [apply next_loc_fresh|]. split; [done|].
  eapply gtk_int_accessible_value_get_live; [apply with_new_lookup|done..].
Qed.

Lemma gtk_number_accessible_value_new_get x s :
  ∃ l s', gtk_number_accessible_value_new x s = Done (Some l) s' ∧
          heap s !! l = None ∧
          heap s' = <[l := new_value addr_GTK_NUMBER_ACCESSIBLE_VALUE
                            (GtkNumberAccessibleValue x)]> (heap s) ∧
          gtk_number_accessible_value_get (Some l) s' = Done x s'.
Proof.
  eexists _, _. split; [apply gtk_number_accessible_value_new_spec|].
  split; [apply next_loc_fresh|]. split; [done|].
  eapply gtk_number_accessible_value_get_live; [apply with_new_lookup|done..].
Qed.

Lemma gtk_string_accessible_value_new_get str s :
  ∃ l s', gtk_string_accessible_value_new (Some str) s = Done (Some l) s' ∧
          heap s !! l = None ∧
          heap s' = <[l := new_value addr_GTK_STRING_ACCESSIBLE_VALUE
                            (GtkStringAccessibleValue (Some str)
                               (Z.of_nat (String.length str)))]> (heap s) ∧
          gtk_string_accessible_value_get (Some l) s' = Done (Some str) s'.
Proof.
  eexists _, _. split; [apply gtk_string_accessible_value_new_spec|].
  split; [apply next_loc_fresh|]. split; [done|].
  eapply gtk_string_accessible_value_get_live; [apply with_new_lookup|done..].
Qed.

Lemma gtk_reference_accessible_value_new_get o ob s :
  objects s !! o = Some ob → is_accessible ob = true →
  ∃ l s', gtk_reference_accessible_value_new (Some o) s = Done (Some l) s' ∧
          heap s !! l = None ∧
          heap s' = <[l := new_value addr_GTK_REFERENCE_ACCESSIBLE_VALUE
                            (GtkReferenceAccessibleValue (Some o))]> (heap s) ∧
          gtk_reference_accessible_value_get (Some l) s' = Done (Some o) s'.
Proof.
  intros Ho Hacc. eexists _, _.
  split; [by apply gtk_reference_accessible_value_new_spec|].
  split; [apply next_loc_fresh|]. split; [done|].
  eapply (gtk_reference_accessible_value_get_live _
            (new_value addr_GTK_REFERENCE_ACCESSIBLE_VALUE
               (GtkReferenceAccessibleValue (Some o)))); [|done..].
  apply (with_new_lookup _ _ s).
Qed.

Lemma dynamic_rows row :
  row ∈ collect_props →
  (ctype row = GTK_ACCESSIBLE_COLLECT_INT → ctor row = fn_gtk_int_accessible_value_new) ∧
  (ctype row = GTK_ACCESSIBLE_COLLECT_NUMBER → ctor row = fn_gtk_number_accessible_value_new) ∧
  (ctype row = GTK_ACCESSIBLE_COLLECT_STRING → ctor row = fn_gtk_string_accessible_value_new) ∧
  (ctype row = GTK_ACCESSIBLE_COLLECT_REF → ctor row = fn_gtk_reference_accessible_value_new).
Proof.
  intros H. pose proof (collect_props_consistent row H) as Hc. unfold row_consistent in Hc.
  repeat split; intros Hty; by rewrite Hty in Hc.
Qed.

(** X15: a decoded value reads back. For a property whose row collects an
    integer, a number, a string or an object, either decoder returns a
    new instance: a pointer to an address that was not in use, and the
    heap afterwards is the heap of before with, at that address, an
    instance of the class of the kind with one reference and the input as
    its payload. The argument-list decoder leaves the rest of the
    arguments, and the typed accessor of the kind returns on the new
    instance exactly what was passed in: the integer, the same binary64
    value (a NaN or an infinity too), the contents of the string, the
    object. *)
Theorem decoded_values_read_back (s : state) (property : GtkAccessibleProperty)
    (row : GtkAccessibleCollect) (rest : va_list) :
  collect_props !! Z.to_nat (property_int property) = Some row →
  (ctype row = GTK_ACCESSIBLE_COLLECT_INT → ∀ x,
     (∃ l s', gtk_accessible_value_collect_for_property property (va_int x :: rest) s =
                Done (Some l, rest) s' ∧
              heap s !! l = None ∧
              heap s' = <[l := new_value addr_GTK_INT_ACCESSIBLE_VALUE
                                (GtkIntAccessibleValue x)]> (heap s) ∧
              gtk_int_accessible_value_get (Some l) s' = Done x s') ∧
     (∃ l s', gtk_accessible_value_collect_for_property_value property (G_TYPE_INT x) s =
                Done (Some l) s' ∧
              heap s !! l = None ∧
              heap s' = <[l := new_value addr_GTK_INT_ACCESSIBLE_VALUE
                                (GtkIntAccessibleValue x)]> (heap s) ∧
              gtk_int_accessible_value_get (Some l) s' = Done x s')) ∧
  (ctype row = GTK_ACCESSIBLE_COLLECT_NUMBER → ∀ x,
     (∃ l s', gtk_accessible_value_collect_for_property property (va_double x :: rest) s =
                Done (Some l, rest) s' ∧
              heap s !! l = None ∧
              heap s' = <[l := new_value addr_GTK_NUMBER_ACCESSIBLE_VALUE
                                (GtkNumberAccessibleValue x)]> (heap s) ∧
              gtk_number_accessible_value_get (Some l) s' = Done x s') ∧
     (∃ l s', gtk_accessible_value_collect_for_property_value property (G_TYPE_DOUBLE x) s =
                Done (Some l) s' ∧
              heap s !! l = None ∧
              heap s' = <[l := new_value addr_GTK_NUMBER_ACCESSIBLE_VALUE
                                (GtkNumberAccessibleValue x)]> (heap s) ∧
              gtk_number_accessible_value_get (Some l) s' = Done x s')) ∧
  (ctype row = GTK_ACCESSIBLE_COLLECT_STRING → ∀ str,
     (∃ l s', gtk_accessible_value_collect_for_property property
                (va_string (Some str) :: rest) s = Done (Some l, rest) s' ∧
              heap s !! l = None ∧
              heap s' = <[l := new_value addr_GTK_STRING_ACCESSIBLE_VALUE
                                (GtkStringAccessibleValue (Some str)
                                   (Z.of_nat (String.length str)))]> (heap s) ∧
              gtk_string_accessible_value_get (Some l) s' = Done (Some str) s') ∧
     (∃ l s', gtk_accessible_value_collect_for_property_value property
                (G_TYPE_STRING (Some str)) s = Done (Some l) s' ∧
              heap s !! l = None ∧
              heap s' = <[l := new_value addr_GTK_STRING_ACCESSIBLE_VALUE
                                (GtkStringAccessibleValue (Some str)
                                   (Z.of_nat (String.length str)))]> (heap s) ∧
              gtk_string_accessible_value_get (Some l) s' = Done (Some str) s')) ∧
  (ctype row = GTK_ACCESSIBLE_COLLECT_REF → ∀ o ob,
     objects s !! o = Some ob → is_accessible ob = true →
     (∃ l s', gtk_accessible_value_collect_for_property property
                (va_pointer (Some o) :: rest) s = Done (Some l, rest) s' ∧
              heap s !! l = None ∧
              heap s' = <[l := new_value addr_GTK_REFERENCE_ACCESSIBLE_VALUE
                                (GtkReferenceAccessibleValue (Some o))]> (heap s) ∧
              gtk_reference_accessible_value_get (Some l) s' = Done (Some o) s') ∧
     (∃ l s', gtk_accessible_value_collect_for_property_value property
                (G_TYPE_OBJECT (Some o)) s = Done (Some l) s' ∧
              heap s !! l = None ∧
              heap s' = <[l := new_value addr_GTK_REFERENCE_ACCESSIBLE_VALUE
                                (GtkReferenceAccessibleValue (Some o))]> (heap s) ∧
              gtk_reference_accessible_value_get (Some l) s' = Done (Some o) s')).
Proof.
  intros Hrow.
  destruct (table_row_props property) as (row' & Hrow' & Htab & _).
  assert (row' = row) as -> by congruence.
  destruct (dynamic_rows row) as (Hint & Hnum & Hstr & Href);
    [by eapply list_elem_of_lookup_2|].
  unfold gtk_accessible_value_collect_for_property,
    gtk_accessible_value_collect_for_property_value.
  rewrite Htab.
  split; [|split; [|split]].
  - intros Hty x. specialize (Hint Hty).
    destruct (gtk_int_accessible_value_new_get x s) as (l & s' & Hnew & Hrest).
    split; exists l, s'; (split; [|exact Hrest]).
    + erewrite bind_Done; [|reflexivity].
      unfold collect_from_args. rewrite Hty, Hint. simpl.
      erewrite bind_Done; [|reflexivity]. simpl.
      by rewrite (bind_Done _ _ _ _ _ Hnew).
    + erewrite bind_Done; [|reflexivity].
      unfold collect_from_value. rewrite Hty, Hint. simpl.
      by erewrite bind_Done; [|reflexivity].
  - intros Hty x. specialize (Hnum Hty).
    destruct (gtk_number_accessible_value_new_get x s) as (l & s' & Hnew & Hrest).
    split; exists l, s'; (split; [|exact Hrest]).
    + erewrite bind_Done; [|reflexivity].
      unfold collect_from_args. rewrite Hty, Hnum. simpl.
      erewrite bind_Done; [|reflexivity]. simpl.
      by rewrite (bind_Done _ _ _ _ _ Hnew).
    + erewrite bind_Done; [|reflexivity].
      unfold collect_from_value. rewrite Hty, Hnum. simpl.
      by erewrite bind_Done; [|reflexivity].
  - intros Hty str. specialize (Hstr Hty).
    destruct (gtk_string_accessible_value_new_get str s) as (l & s' & Hnew & Hrest).
    split; exists l, s'; (split; [|exact Hrest]).
    + erewrite bind_Done; [|reflexivity].
      unfold collect_from_args. rewrite Hty, Hstr. simpl.
      erewrite bind_Done; [|reflexivity]. simpl.
      by rewrite (bind_Done _ _ _ _ _ Hnew).
    + erewrite bind_Done; [|reflexivity].
      unfold collect_from_value. rewrite Hty, Hstr. simpl.
      by erewrite bind_Done; [|reflexivity].
  - intros Hty o ob Ho Hacc. specialize (Href Hty).
    destruct (gtk_reference_accessible_value_new_get o ob s Ho Hacc)
      as (l & s' & Hnew & Hrest).
    split; exists l, s'; (split; [|exact Hrest]).
    + erewrite bind_Done; [|reflexivity].
      unfold collect_from_args. rewrite Hty, Href. simpl.
      erewrite bind_Done; [|reflexivity]. simpl.
      by rewrite (bind_Done _ _ _ _ _ Hnew).
    + erewrite bind_Done; [|reflexivity].
      unfold collect_from_value. rewrite Hty, Href. simpl.
      by erewrite bind_Done; [|reflexivity].
Qed.

(** ** The state functions *)

Lemma reads_only_hard_coded_row func row args :
  hard_coded (ctype row) →
  (∀ v, call_int_ctor (ctor row) v = hard_coded_new (ctor row) v) →
  reads_only (collect_from_args func row args).
Proof.
  intros Hhc Hctor. unfold collect_from_args, va_arg_int.
  destruct Hhc as [-> | [-> | ->]].
  all: destruct args as [|[v|x|str|o] rest]; try apply reads_only_crash.
  all: apply reads_only_bind; [apply reads_only_ret|intros [v' rest']].
  all: rewrite Hctor; unfold hard_coded_new; reads_only_step.
Qed.

Lemma reads_only_hard_coded_row_value func row v :
  hard_coded (ctype row) →
  (∀ v, call_int_ctor (ctor row) v = hard_coded_new (ctor row) v) →
  reads_only (collect_from_value func row v).
Proof.
  intros Hhc Hctor. unfold collect_from_value, g_value_get_boolean, g_value_get_int,
    g_value_get_enum.
  destruct Hhc as [-> | [-> | ->]].
  all: apply reads_only_bind; [reads_only_step|intros v'].
  all: rewrite Hctor; unfold hard_coded_new; reads_only_step.
Qed.

Lemma state_rows_hard_coded row :
  row ∈ collect_states →
  hard_coded (ctype row) ∧ ∀ v, call_int_ctor (ctor row) v = hard_coded_new (ctor row) v.
Proof.
  intros H. unfold collect_states in H. unfold hard_coded.
  repeat (apply elem_of_cons in H as [-> | H]; [simpl; split; [tauto|done]|]).
  by apply elem_of_nil in H.
Qed.

(** X16: the state functions never allocate. Every row of [collect_states]
    is of a hard-coded kind, so whatever the state and whatever the
    argument list or [GValue], when
    [gtk_accessible_value_get_default_for_state],
    [gtk_accessible_value_collect_for_state] or
    [gtk_accessible_value_collect_for_state_value] returns, the heap of
    dynamic instances and the object table are as before, and only
    criticals may have been logged. *)
Theorem state_functions_never_allocate :
  (∀ state, reads_only (gtk_accessible_value_get_default_for_state state)) ∧
  (∀ state args, reads_only (gtk_accessible_value_collect_for_state state args)) ∧
  (∀ state v, reads_only (gtk_accessible_value_collect_for_state_value state v)).
Proof.
  split; [|split].
  - intros state s a s' Hd.
    destruct (decide (state = GTK_ACCESSIBLE_STATE_NONE)) as [->|Hst]; [discriminate Hd|].
    destruct (table_row_states state Hst) as (row & Hrow & _).
    destruct (default_for_state_rows state row s Hst Hrow) as (_ & v & Hv).
    rewrite Hv in Hd. injection Hd as _ <-. apply only_logs_refl.
  - intros state args s a s'. unfold gtk_accessible_value_collect_for_state, g_assert.
    destruct (decide (state = GTK_ACCESSIBLE_STATE_NONE)) as [->|Hst]; [done|].
    rewrite bool_decide_true by done.
    destruct (table_row_states state Hst) as (row & Hrow & -> & _).
    destruct (state_rows_hard_coded row) as [Hhc Hctor]; [by eapply list_elem_of_lookup_2|].
    by apply reads_only_hard_coded_row.
  - intros state v s a s'. unfold gtk_accessible_value_collect_for_state_value, g_assert.
    destruct (decide (state = GTK_ACCESSIBLE_STATE_NONE)) as [->|Hst]; [done|].
    rewrite bool_decide_true by done.
    destruct (table_row_states state Hst) as (row & Hrow & -> & _).
    destruct (state_rows_hard_coded row) as [Hhc Hctor]; [by eapply list_elem_of_lookup_2|].
    by apply reads_only_hard_coded_row_value.
Qed.

(** ** Symmetry of the comparison *)

Lemma SFltb_asym A B : SFltb A B = true → SFltb B A = false.
Proof.
  unfold SFltb, SFcompare.
  destruct A as [sA|sA| |sA mA eA], B as [sB|sB| |sB mB eB]; try done;
    try (by destruct sA); try (by destruct sB); try (by destruct sA, sB).
  rewrite !Pos.compare_cont_spec. simpl Pos.switch_Eq.
  destruct sA, sB; try done.
  all: destruct (Z.compare_spec eA eB), (Z.compare_spec eB eA); try done; try lia.
  all: destruct (Pos.compare_spec mA mB), (Pos.compare_spec mB mA); try done; try lia.
Qed.

Lemma SFltb_neither_finite sA mA eA sB mB eB :
  SFltb (S754_finite sA mA eA) (S754_finite sB mB eB) = false →
  SFltb (S754_finite sB mB eB) (S754_finite sA mA eA) = false →
  sA = sB ∧ mA = mB ∧ eA = eB.
Proof.
  unfold SFltb, SFcompare. rewrite !Pos.compare_cont_spec. simpl Pos.switch_Eq.
  destruct sA, sB; try done.
  all: destruct (Z.compare_spec eA eB), (Z.compare_spec eB eA); try done; try lia.
  all: destruct (Pos.compare_spec mA mB), (Pos.compare_spec mB mA); try done; try lia.
Qed.

Lemma SFsub_neither A B E :
  SFltb B A = false → SFltb A B = false →
  SFltb (SF64sub B A) E = SFltb (SF64sub A B) E.
Proof.
  destruct A as [sA|sA| |sA mA eA], B as [sB|sB| |sB mB eB]; try done;
    try (by destruct sA); try (by destruct sB); try (by destruct sA, sB).
  intros H1 H2. by destruct (SFltb_neither_finite _ _ _ _ _ _ H2 H1) as (-> & -> & ->).
Qed.

Lemma G_APPROX_VALUE_sym a b epsilon :
  G_APPROX_VALUE a b epsilon = G_APPROX_VALUE b a epsilon.
Proof.
  unfold G_APPROX_VALUE.
  destruct (PrimFloat.ltb b a) eqn:Hba, (PrimFloat.ltb a b) eqn:Hab; try done.
  - rewrite FloatAxioms.ltb_spec in Hba, Hab. by rewrite (SFltb_asym _ _ Hba) in Hab.
  - rewrite FloatAxioms.ltb_spec in Hba, Hab.
    rewrite !(FloatAxioms.ltb_spec _ epsilon), !FloatAxioms.sub_spec.
    by apply SFsub_neither.
Qed.

Lemma g_strcmp0_sym a b : (g_strcmp0 a b =? 0) = (g_strcmp0 b a =? 0).
Proof.
  destruct a as [a|], b as [b|]; try done. unfold g_strcmp0.
  rewrite (String.compare_antisym a b). by destruct (String.compare b a).
Qed.

Lemma same_payload_sym f g : same_payload f g = same_payload g f.
Proof.
  destruct f as [x|x|a n|r], g as [y|y|b m|r']; simpl; try done.
  - apply Z.eqb_sym.
  - apply G_APPROX_VALUE_sym.
  - by rewrite Z.eqb_sym, g_strcmp0_sym.
  - apply bool_decide_ext. split; congruence.
Qed.

Lemma gtk_string_accessible_value_equal_live la lb va vb a n b m s :
  heap s !! la = Some va → fields va = GtkStringAccessibleValue a n →
  heap s !! lb = Some vb → fields vb = GtkStringAccessibleValue b m →
  gtk_string_accessible_value_equal (Some la) (Some lb) s =
  Done ((n =? m) && (g_strcmp0 a b =? 0)) s.
Proof.
  intros Ha Hfa Hb Hfb. unfold gtk_string_accessible_value_equal.
  assert (string_length (Some la) s = Done n s) as H1
    by (by rewrite (string_length_live _ _ _ Ha), Hfa).
  assert (string_length (Some lb) s = Done m s) as H2
    by (by rewrite (string_length_live _ _ _ Hb), Hfb).
  assert (string_value (Some la) s = Done a s) as H3
    by (by rewrite (string_value_live _ _ _ Ha), Hfa).
  assert (string_value (Some lb) s = Done b s) as H4
    by (by rewrite (string_value_live _ _ _ Hb), Hfb).
  rewrite (bind_Done _ _ _ _ _ H1), (bind_Done _ _ _ _ _ H2).
  destruct (n =? m); simpl; [|done].
  by rewrite (bind_Done _ _ _ _ _ H3), (bind_Done _ _ _ _ _ H4).
Qed.

(** Two distinct live instances of one class are compared by their
    fields. *)
Lemma gtk_accessible_value_equal_live la lb va vb s :
  la ≠ lb → heap s !! la = Some va → heap s !! lb = Some vb →
  value_class va = value_class vb → layout_ok va → layout_ok vb →
  gtk_accessible_value_equal (Some la) (Some lb) s =
  Done (same_payload (fields va) (fields vb)) s.
Proof.
  intros Hne Ha Hb Hc La Lb.
  rewrite (gtk_accessible_value_equal_dispatch _ _ _ _ Hne Ha).
  unfold layout_ok in La, Lb. rewrite <- Hc in Lb.
  destruct (value_class va), (fields va) as [x|x|a n|r] eqn:Hfa; try done;
    destruct (fields vb) as [y|y|b m|r'] eqn:Hfb; try done; simpl.
  - by eapply gtk_int_accessible_value_equal_spec.
  - by eapply gtk_number_accessible_value_equal_spec.
  - by eapply gtk_string_accessible_value_equal_live.
  - by eapply gtk_reference_accessible_value_equal_spec.
Qed.

(** X11: the comparison is symmetric. In a reachable state,
    [gtk_accessible_value_equal] on two live instances of the same class
    returns in either order, with the same answer, and leaves the state
    as it is; for two distinct instances the answer is the comparison of
    their fields: exact for integers, within 0.001 for numbers, equal
    lengths and equal contents for strings, the same object for
    references. *)
Theorem equal_is_symmetric (s : state) (la lb : loc) (va vb : GtkAccessibleValue) :
  reachable s → heap s !! la = Some va → heap s !! lb = Some vb →
  value_class va = value_class vb →
  ∃ r,
    gtk_accessible_value_equal (Some la) (Some lb) s = Done r s ∧
    gtk_accessible_value_equal (Some lb) (Some la) s = Done r s ∧
    (la ≠ lb → r = same_payload (fields va) (fields vb)).
Proof.
  intros Hr Ha Hb Hc. pose proof (reachable_wf s Hr) as W.
  destruct (decide (la = lb)) as [->|Hne].
  - exists true. unfold gtk_accessible_value_equal. by rewrite bool_decide_true.
  - exists (same_payload (fields va) (fields vb)).
    split; [apply gtk_accessible_value_equal_live; eauto using wf_layout|].
    split; [|done]. rewrite same_payload_sym.
    apply gtk_accessible_value_equal_live; eauto using wf_layout.
Qed.

(** X12: the comparison of numbers is not transitive. With the tolerance
    of 0.001 there are three payloads, 0, 3/4096 and 6/4096, such that
    the first instance is equal to the second and the second to the
    third, but the first is not equal to the third. *)
Theorem number_equality_is_not_transitive (s : state) :
  ∃ x y z,
    (∃ s', equal_constructed (gtk_number_accessible_value_new x)
             (gtk_number_accessible_value_new y) s = Done true s') ∧
    (∃ s', equal_constructed (gtk_number_accessible_value_new y)
             (gtk_number_accessible_value_new z) s = Done true s') ∧
    (∃ s', equal_constructed (gtk_number_accessible_value_new x)
             (gtk_number_accessible_value_new z) s = Done false s').
Proof.
  exists 0%float, 0.000732421875%float, 0.00146484375%float.
  split; [|split]; eexists; rewrite equal_constructed_number; f_equal; by vm_compute.
Qed.

(** ** Destroying an object *)

Lemma g_object_destroy_log o s s' : g_object_destroy o s = Done tt s' → log s' = log s.
Proof.
  unfold g_object_destroy, g_object, mbind at 1, M_bind at 1.
  destruct (objects s !! o) as [ob|] eqn:Ho; [|done].
  unfold mbind, M_bind, modify. intros Hfor.
  by destruct (for_each_remove_weak_ref_inv _ _ _ _ Hfor) as (_ & -> & _).
Qed.

(** X9: destroying an object is safe and touches nothing else. In a
    reachable state the destruction of any live object returns: every
    notification finds its instance alive. Afterwards the object is gone
    from the table, nothing was logged, no instance was added or freed,
    the references that were linked to the object are cleared and keep
    their class and their count, and every other instance is exactly as
    it was. *)
Theorem object_destruction_is_safe (s : state) (o : gobject) (ob : GObject) :
  reachable s → objects s !! o = Some ob →
  ∃ s',
    g_object_destroy o s = Done tt s' ∧
    objects s' = delete o (objects s) ∧
    log s' = log s ∧
    (∀ l, heap s !! l = None → heap s' !! l = None) ∧
    (∀ l v, heap s !! l = Some v →
       (fields v = GtkReferenceAccessibleValue (Some o) → heap s' !! l = Some (cleared v)) ∧
       (fields v ≠ GtkReferenceAccessibleValue (Some o) → heap s' !! l = Some v)).
Proof.
  intros Hr Ho. pose proof (reachable_wf s Hr) as W.
  assert (∃ s', g_object_destroy o s = Done tt s') as [s' Hd].
  { unfold g_object_destroy. rewrite (bind_Done _ _ _ _ _ (g_object_live _ _ _ Ho)).
    erewrite bind_Done; [|reflexivity].
    apply for_each_remove_weak_ref_runs. intros d Hd.
    destruct (wf_registered s W o ob d Ho Hd) as (vd & Hvd & Hfd). by exists vd, (Some o). }
  exists s'. split; [done|].
  destruct (g_object_destroy_inv _ _ _ Hd) as (ob' & Ho' & Hobj & Hheap).
  assert (ob' = ob) as -> by congruence.
  split; [done|]. split; [by eapply g_object_destroy_log|]. split.
  - intros l Hl. rewrite Hheap, Hl. by case_decide.
  - intros l v Hv. rewrite Hheap, Hv. split.
    + intros Hf. destruct (wf_linked s W l v o Hv Hf) as (ob1 & Ho1 & Hin).
      assert (ob1 = ob) as -> by congruence. by rewrite decide_True.
    + intros Hf. rewrite decide_False; [done|]. intros Hin.
      destruct (wf_registered s W o ob l Ho Hin) as (v1 & Hv1 & Hf1). congruence.
Qed.

(** ** Constructing and releasing *)

Lemma remove_first_app_fresh d l : d ∉ l → remove_first d (l ++ [d]) = l.
Proof.
  induction l as [|x l IH]; simpl; intros Hd.
  - by rewrite decide_True.
  - apply not_elem_of_cons in Hd as [Hne Hd]. rewrite decide_False by done.
    by rewrite IH.
Qed.

Lemma construct_and_release_plain c f s :
  layout_ok (new_value c f) → (∀ r, f ≠ GtkReferenceAccessibleValue r) →
  gtk_accessible_value_unref (Some (next_loc s)) (with_new c f s) =
  Done tt (logged (last_release_events (next_loc s) (new_value c f)) s).
Proof.
  intros Hlay Hf.
  rewrite (gtk_accessible_value_unref_last_spec _ (new_value c f));
    [|apply with_new_lookup|done|].
  - unfold logged. f_equal. f_equal.
    + unfold with_new. rewrite set_heap_heap. apply delete_insert_id, next_loc_fresh.
    + unfold objects_without. simpl. destruct f; try done. by destruct (Hf ref).
  - unfold well_formed_at, layout_ok in *. simpl in *.
    destruct c, f; try done. by destruct (Hf ref).
Qed.

(** X10: a value that is constructed and released at once leaves no trace
    but the log. In a reachable state, for each of the four constructors,
    the construction followed by [gtk_accessible_value_unref] gives back
    the heap and the object table of before: the instance is freed (after
    its finalize function, for strings and references) and, for a
    reference, the weak reference that the constructor registered on the
    object is taken off again, so that the object is left with exactly
    the registrations it had. *)
Theorem construct_then_release_leaves_no_trace (s : state) :
  reachable s →
  (∀ x, ∃ l, heap s !! l = None ∧
     construct_and_release (gtk_int_accessible_value_new x) s =
     Done tt (logged [EvFree l] s)) ∧
  (∀ x, ∃ l, heap s !! l = None ∧
     construct_and_release (gtk_number_accessible_value_new x) s =
     Done tt (logged [EvFree l] s)) ∧
  (∀ str, ∃ l, heap s !! l = None ∧
     construct_and_release (gtk_string_accessible_value_new (Some str)) s =
     Done tt (logged [EvFinalize l; EvFree l] s)) ∧
  (∀ o ob, objects s !! o = Some ob → is_accessible ob = true →
     ∃ l, heap s !! l = None ∧
       construct_and_release (gtk_reference_accessible_value_new (Some o)) s =
       Done tt (logged [EvFinalize l; EvFree l] s)).
Proof.
  intros Hr. pose proof (reachable_wf s Hr) as W. unfold construct_and_release.
  split; [|split; [|split]].
  - intros x. exists (next_loc s). split; [apply next_loc_fresh|].
    rewrite (bind_Done _ _ _ _ _ (gtk_int_accessible_value_new_spec _ _)).
    by rewrite construct_and_release_plain.
  - intros x. exists (next_loc s). split; [apply next_loc_fresh|].
    rewrite (bind_Done _ _ _ _ _ (gtk_number_accessible_value_new_spec _ _)).
    by rewrite construct_and_release_plain.
  - intros str. exists (next_loc s). split; [apply next_loc_fresh|].
    rewrite (bind_Done _ _ _ _ _ (gtk_string_accessible_value_new_spec _ _)).
    by rewrite construct_and_release_plain.
  - intros o ob Ho Hacc. exists (next_loc s). split; [apply next_loc_fresh|].
    rewrite (bind_Done _ _ _ _ _ (gtk_reference_accessible_value_new_spec _ _ _ Ho Hacc)).
    set (v := new_value addr_GTK_REFERENCE_ACCESSIBLE_VALUE
                (GtkReferenceAccessibleValue (Some o))).
    rewrite (gtk_accessible_value_unref_last_spec _ v); [|apply (with_new_lookup _ _ s)|done|].
    + unfold logged. f_equal. f_equal.
      * simpl. apply delete_insert_id, next_loc_fresh.
      * unfold objects_without. simpl. rewrite lookup_insert_eq. simpl.
        rewrite insert_insert_eq, remove_first_app_fresh by (by eapply not_registered_fresh).
        apply insert_id. by destruct ob.
    + unfold well_formed_at, v. simpl. rewrite lookup_insert_eq. eexists.
      split; [done|]. simpl. rewrite elem_of_app, list_elem_of_singleton. by right.
Qed.

(** ** What keeps an instance alive *)

Lemma exec_steps_to c s s' :
  (∀ l, c ≠ call_unref (Some l)) → exec c s = Done tt s' → steps_to s s'.
Proof.
  intros Hc. destruct c; simpl.
  - exact (respects_ignore _ (respects_gtk_accessible_value_alloc _) s tt s').
  - exact (respects_ignore _ (respects_gtk_accessible_value_ref _) s tt s').
  - destruct self as [l|]; [by destruct (Hc l)|].
    intros Hun. apply (steps_to_same_store s s'); by injection Hun as <-.
  - exact (respects_ignore _ (respects_gtk_accessible_value_print _ _) s tt s').
  - exact (respects_ignore _ (respects_gtk_accessible_value_to_string _) s tt s').
  - exact (respects_ignore _ (respects_gtk_accessible_value_equal _ _) s tt s').
  - exact (respects_ignore _ (respects_gtk_int_accessible_value_new _) s tt s').
  - exact (respects_ignore _ (respects_gtk_int_accessible_value_get _) s tt s').
  - exact (respects_ignore _ (respects_gtk_number_accessible_value_new _) s tt s').
  - exact (respects_ignore _ (respects_gtk_number_accessible_value_get _) s tt s').
  - exact (respects_ignore _ (respects_gtk_string_accessible_value_new _) s tt s').
  - exact (respects_ignore _ (respects_gtk_string_accessible_value_get _) s tt s').
  - exact (respects_ignore _ (respects_gtk_reference_accessible_value_new _) s tt s').
  - exact (respects_ignore _ (respects_gtk_reference_accessible_value_get _) s tt s').
  - exact (respects_ignore _ (respects_get_default_for_state _) s tt s').
  - exact (respects_ignore _ (respects_collect_for_state _ _) s tt s').
  - exact (respects_ignore _ (respects_collect_for_state_value _ _) s tt s').
  - exact (respects_ignore _ (respects_get_default_for_property _) s tt s').
  - exact (respects_ignore _ (respects_collect_for_property _ _) s tt s').
  - exact (respects_ignore _ (respects_collect_for_property_value _ _) s tt s').
  - exact (respects_ignore _ (respects_g_object_new _ _) s tt s').
  - exact (respects_g_object_destroy _ s tt s').
Qed.

(** X18: only its own release frees an instance. Whatever call the program
    makes in whatever state, other than [gtk_accessible_value_unref] on
    the instance itself, an instance that was live is still live when the
    call returns, at the same address and of the same class, and its
    fields are the same, except that a reference may have been cleared. *)
Theorem only_its_release_frees_an_instance (c : call) (s s' : state) (l : loc)
    (v : GtkAccessibleValue) :
  exec c s = Done tt s' → heap s !! l = Some v → c ≠ call_unref (Some l) →
  ∃ v', heap s' !! l = Some v' ∧ value_class v' = value_class v ∧
        (fields v' = fields v ∨ fields v' = GtkReferenceAccessibleValue None).
Proof.
  intros Hc Hv Hne.
  assert ((∃ l0, c = call_unref (Some l0)) ∨ ∀ l0, c ≠ call_unref (Some l0))
    as [[l0 ->]|Hno].
  { destruct c; try (by right). destruct self as [l0|]; [left; by exists l0|by right]. }
  - simpl in Hc. destruct (gtk_accessible_value_unref_releases _ _ _ Hc) as [_ Hframe].
    destruct (Hframe l v Hv) as [[-> _]|Hkeep]; [done|exact Hkeep].
  - by apply (exec_steps_to c s s').
Qed.

(** X19: on an instance of its own class a typed accessor succeeds. In a
    reachable state the fields of every live instance have the layout of
    its class, so the accessor of that class passes both checks, returns
    the payload, logs nothing and changes nothing. *)
Theorem typed_accessors_succeed_on_their_class (s : state) (l : loc)
    (v : GtkAccessibleValue) :
  reachable s → heap s !! l = Some v →
  match value_class v with
  | addr_GTK_INT_ACCESSIBLE_VALUE =>
      ∃ x, fields v = GtkIntAccessibleValue x ∧
           gtk_int_accessible_value_get (Some l) s = Done x s
  | addr_GTK_NUMBER_ACCESSIBLE_VALUE =>
      ∃ x, fields v = GtkNumberAccessibleValue x ∧
           gtk_number_accessible_value_get (Some l) s = Done x s
  | addr_GTK_STRING_ACCESSIBLE_VALUE =>
      ∃ str n, fields v = GtkStringAccessibleValue str n ∧
               gtk_string_accessible_value_get (Some l) s = Done str s
  | addr_GTK_REFERENCE_ACCESSIBLE_VALUE =>
      ∃ r, fields v = GtkReferenceAccessibleValue r ∧
           gtk_reference_accessible_value_get (Some l) s = Done r s
  end.
Proof.
  intros Hr Hv. pose proof (wf_layout s (reachable_wf s Hr) l v Hv) as Hlay.
  unfold layout_ok in Hlay.
  destruct (value_class v) eqn:Hc, (fields v) as [x|x|str n|r] eqn:Hf; try done.
  - exists x. split; [done|]. by eapply gtk_int_accessible_value_get_live.
  - exists x. split; [done|]. by eapply gtk_number_accessible_value_get_live.
  - exists str, n. split; [done|]. by eapply gtk_string_accessible_value_get_live.
  - exists r. split; [done|]. by eapply gtk_reference_accessible_value_get_live.
Qed.

End AccessibleValue.

(** ** Closed examples *)

(** One instance of the parameters, for closed statements. *)
Global Instance example_printf : Printf := {|
  printf_g := λ _, "%g"%string;
  printf_p := λ _, "%p"%string;
|}.

Global Instance example_hard_coded : HardCoded := {|
  static_instance := λ _ _, None;
  GTK_ACCESSIBLE_CHECKED_UNDEFINED := -1;
  GTK_ACCESSIBLE_STATE_UNDEFINED := -1;
  GTK_ACCESSIBLE_INVALID_FALSE := 0;
  GTK_ACCESSIBLE_PRESSED_UNDEFINED := -1;
  GTK_ACCESSIBLE_AUTOCOMPLETE_NONE := 0;
  GTK_ORIENTATION_HORIZONTAL := 0;
  GTK_ACCESSIBLE_SORT_NONE := 0;
|}.

(** An integer instance with one reference. *)
Definition int_instance (x : Z) : GtkAccessibleValue :=
  {| value_class := addr_GTK_INT_ACCESSIBLE_VALUE; ref_count := 1;
     fields := GtkIntAccessibleValue x |}.

(** Two integer instances, holding 5 and 7. *)
Definition two_ints : state :=
  {| heap := {[ 1%positive := int_instance 5; 2%positive := int_instance 7 ]};
     objects := ∅; log := [] |}.

(** One integer instance. *)
Definition one_int : state :=
  {| heap := {[ 1%positive := int_instance 5 ]}; objects := ∅; log := [] |}.

(** A string instance with one reference. *)
Definition string_instance (str : string) : GtkAccessibleValue :=
  {| value_class := addr_GTK_STRING_ACCESSIBLE_VALUE; ref_count := 1;
     fields := GtkStringAccessibleValue (Some str) (Z.of_nat (String.length str)) |}.

(** One string instance. *)
Definition one_string : state :=
  {| heap := {[ 1%positive := string_instance "label" ]}; objects := ∅; log := [] |}.

(** One live accessible object and no instance. *)
Definition one_object : state :=
  {| heap := ∅;
     objects := {[ 1%positive := {| g_type_name := "GtkButton"; is_accessible := true;
                                    weak_refs := [] |} ]};
     log := [] |}.

(** An object comes to life and a reference value is constructed for it. *)
Definition linked_state : state := Eval vm_compute in
  match (exec (call_object_new "GtkButton" true);;
         exec (call_reference_new (Some 1%positive))) init_state with
  | Done _ s => s
  | Crash _ => init_state
  end.

(** The reference instance of [linked_state]. *)
Definition linked_reference : GtkAccessibleValue :=
  {| value_class := addr_GTK_REFERENCE_ACCESSIBLE_VALUE; ref_count := 1;
     fields := GtkReferenceAccessibleValue (Some 1%positive) |}.

(** One live object that does not implement [GtkAccessible]. *)
Definition plain_object : state :=
  {| heap := ∅;
     objects := {[ 1%positive := {| g_type_name := "GObject"; is_accessible := false;
                                    weak_refs := [] |} ]};
     log := [] |}.

(** The object of [linked_state], with the registration of the reference. *)
Definition linked_object : GObject :=
  {| g_type_name := "GtkButton"; is_accessible := true; weak_refs := [1%positive] |}.

(** The row of the level property. *)
Definition level_row : GtkAccessibleCollect :=
  {| value := property_int GTK_ACCESSIBLE_PROPERTY_LEVEL;
     ctype := GTK_ACCESSIBLE_COLLECT_INT; name := "level";
     ctor := fn_gtk_int_accessible_value_new |}.

(** Two distinct integer instances are compared by
    [gtk_int_accessible_value_equal]. *)
Lemma gtk_accessible_value_equal_null_safe_witness :
  gtk_accessible_value_equal (Some 1%positive) (Some 2%positive) two_ints =
  gtk_int_accessible_value_equal (Some 1%positive) (Some 2%positive) two_ints.
Proof.
  destruct (gtk_accessible_value_equal_null_safe two_ints (Some 1%positive) (Some 2%positive))
    as (_ & _ & Hd).
  destruct (Hd (int_instance 5)) as (f & Hf & ->); [done..|].
  simpl in Hf. by injection Hf as <-.
Defined.

(** C3 as stated fails for the number kind: two instances constructed from
    the same NaN are not equal. *)
Lemma nan_is_not_equal_to_itself :
  ∃ s', equal_constructed (gtk_number_accessible_value_new nan)
          (gtk_number_accessible_value_new nan) init_state = Done false s'.
Proof. eexists. by rewrite equal_constructed_number. Qed.

(** Nor are two instances constructed from the same infinity. *)
Lemma infinity_is_not_equal_to_itself :
  ∃ s', equal_constructed (gtk_number_accessible_value_new infinity)
          (gtk_number_accessible_value_new infinity) init_state = Done false s'.
Proof. eexists. by rewrite equal_constructed_number. Qed.

(** C5 as stated fails for a kind without a finalize function: the last
    release of an integer instance frees it and finalizes nothing. *)
Lemma int_release_runs_no_finalize :
  release (Some 1%positive) one_int =
  Done tt {| heap := ∅; objects := ∅; log := [EvFree 1%positive] |}.
Proof.
  rewrite (gtk_accessible_value_unref_last_spec 1%positive (int_instance 5)); [|done..].
  done.
Qed.

(** Three retains and three releases of a string instance, then the last
    release. *)
Lemma retain_release_balance_witness :
  (repeatM 3 (retain (Some 1%positive));; repeatM 3 (release (Some 1%positive))) one_string =
    Done tt one_string ∧
  ∃ s', release (Some 1%positive) one_string = Done tt s' ∧
        heap s' = delete 1%positive (heap one_string) ∧
        log s' = [EvFinalize 1%positive; EvFree 1%positive].
Proof.
  destruct (retain_release_balance one_string 1%positive (string_instance "label") 3)
    as (Hbal & s' & Hrel & Hheap & Hlog & _);
    [reflexivity|reflexivity|exact I|unfold INT_MAX; lia|].
  split; [exact Hbal|]. exists s'. by repeat split.
Defined.

(** The string accessor on an integer instance. *)
Lemma typed_accessors_fail_softly_witness :
  gtk_string_accessible_value_get (Some 1%positive) one_int =
  Done None (add_log (EvCritical "gtk_string_accessible_value_get"
                        "value->value_class == &GTK_STRING_ACCESSIBLE_VALUE") one_int).
Proof.
  destruct (typed_accessors_fail_softly one_int) as (_ & _ & _ & _ & Hk).
  destruct (Hk 1%positive (int_instance 5)) as (_ & _ & Hs & _); [reflexivity|].
  by apply Hs.
Defined.

(** Two references constructed for the same live object are equal. *)
Lemma equal_constructed_by_kind_witness :
  ∃ s', equal_constructed (gtk_reference_accessible_value_new (Some 1%positive))
          (gtk_reference_accessible_value_new (Some 1%positive)) one_object = Done true s'.
Proof.
  destruct (equal_constructed_by_kind one_object) as (_ & _ & Href & _).
  by eapply (Href 1%positive 1%positive).
Defined.

(** The labelled-by property decoded from a positional object pointer and
    from a boxed one. *)
Lemma decoders_agree_witness :
  ∃ a s1 b s2,
    gtk_accessible_value_collect_for_property GTK_ACCESSIBLE_PROPERTY_LABELLED_BY
      [va_pointer (Some 1%positive)] one_object = Done (a, []) s1 ∧
    gtk_accessible_value_collect_for_property_value GTK_ACCESSIBLE_PROPERTY_LABELLED_BY
      (G_TYPE_OBJECT (Some 1%positive)) s1 = Done b s2 ∧
    gtk_accessible_value_equal a b s2 = Done true s2.
Proof.
  destruct (decoders_agree one_object (in_object (Some 1%positive)) []) as [Hp _].
  edestruct (Hp GTK_ACCESSIBLE_PROPERTY_LABELLED_BY) as (_ & _ & Hagree); [reflexivity| |].
  - simpl. by eexists.
  - exact Hagree.
Defined.

(** C7 as stated fails for a number property: the same NaN decoded from
    the argument list and from a [GValue] gives two values that are not
    equal. *)
Lemma nan_decodes_to_unequal_values :
  ∃ a s1 b s2,
    gtk_accessible_value_collect_for_property GTK_ACCESSIBLE_PROPERTY_VALUE_NOW
      [va_double nan] init_state = Done (a, []) s1 ∧
    gtk_accessible_value_collect_for_property_value GTK_ACCESSIBLE_PROPERTY_VALUE_NOW
      (G_TYPE_DOUBLE nan) s1 = Done b s2 ∧
    gtk_accessible_value_equal a b s2 = Done false s2.
Proof.
  eexists _, _, _, _.
  split; [|split].
  - change (gtk_accessible_value_collect_for_property _ _) with
      (res ← gtk_number_accessible_value_new nan; mret (res, @nil va_item)).
    by rewrite (bind_Done _ _ _ _ _ (gtk_number_accessible_value_new_spec _ _)).
  - change (gtk_accessible_value_collect_for_property_value _ _) with
      (gtk_number_accessible_value_new nan).
    apply gtk_number_accessible_value_new_spec.
  - eapply equal_constructed_steps; [apply gtk_number_accessible_value_new_spec..|].
    by rewrite equal_constructed_number.
Qed.

(** That state is reached by two calls. *)
Lemma reachable_linked_state : reachable linked_state.
Proof.
  eapply (reachable_step (call_reference_new (Some 1%positive)));
    [eapply (reachable_step (call_object_new "GtkButton" true)); [apply reachable_init|]|].
  - vm_compute. reflexivity.
  - vm_compute. reflexivity.
Qed.

(** The object of [linked_state] is destroyed; the reference then prints
    as ["<null>"] and its accessor returns [NULL]. *)
Lemma destroyed_object_clears_reference_witness :
  heap linked_state !! 1%positive = Some linked_reference ∧
  ∃ s1,
    g_object_destroy 1%positive linked_state = Done tt s1 ∧
    gtk_accessible_value_to_string (Some 1%positive) s1 = Done (Some "<null>"%string) s1 ∧
    gtk_reference_accessible_value_get (Some 1%positive) s1 = Done None s1.
Proof.
  split; [reflexivity|].
  destruct (destroyed_object_clears_reference linked_state 1%positive linked_reference
              1%positive reachable_linked_state eq_refl eq_refl)
    as (s1 & Hd & _ & _ & Hafter).
  exists s1. split; [exact Hd|].
  destruct (Hafter s1 (keeping_done _ _)) as (_ & _ & Hts & Hget & _). by split.
Defined.

(** ** Closed examples of the further properties *)

(** Two integer instances, constructed one after the other, are what
    [two_ints] holds. *)
Lemma reachable_two_ints : reachable two_ints.
Proof.
  eapply (reachable_step (call_int_new 7));
    [eapply (reachable_step (call_int_new 5)); [apply reachable_init|]|].
  - vm_compute. reflexivity.
  - vm_compute. reflexivity.
Qed.

(** Printing an integer instance without a buffer. *)
Lemma container_calls_reject_NULL_witness :
  gtk_accessible_value_print (Some 1%positive) None one_int =
  Done None (add_log (EvCritical "gtk_accessible_value_print" "buffer != NULL") one_int).
Proof.
  destruct (container_calls_reject_NULL one_int) as (_ & _ & _ & _ & Hp & _).
  by apply Hp.
Defined.

(** A reference constructed for the live object reads back as that
    object. *)
Lemma constructed_values_read_back_witness :
  ∃ l s', gtk_reference_accessible_value_new (Some 1%positive) one_object = Done (Some l) s' ∧
          gtk_reference_accessible_value_get (Some l) s' = Done (Some 1%positive) s'.
Proof.
  destruct (constructed_values_read_back one_object) as (_ & _ & _ & Href).
  destruct (Href 1%positive _ eq_refl eq_refl)
    as (l & s' & ob' & Hnew & _ & _ & _ & _ & Hget).
  by exists l, s'.
Defined.

(** The reference of [linked_state] prints as the type name and the
    address of its object. *)
Lemma print_appends_the_rendering_witness :
  gtk_accessible_value_to_string (Some 1%positive) linked_state =
    Done (Some "GtkButton<%p>"%string) linked_state ∧
  gtk_accessible_value_print (Some 1%positive) (Some "ref: "%string) linked_state =
    Done (Some "ref: GtkButton<%p>"%string) linked_state.
Proof.
  destruct (print_appends_the_rendering linked_state 1%positive linked_reference
              reachable_linked_state eq_refl) as (s' & _ & Hsame & Hts & Hp).
  rewrite (Hsame ltac:(done)) in Hts, Hp. split; [exact Hts|exact (Hp "ref: "%string)].
Defined.

(** A reference for an object that is not accessible. *)
Lemma reference_new_needs_an_accessible_object_witness :
  gtk_reference_accessible_value_new (Some 1%positive) plain_object =
  Done None (add_log (EvCritical "gtk_reference_accessible_value_new"
                        "GTK_IS_ACCESSIBLE (ref)") plain_object).
Proof.
  destruct (reference_new_needs_an_accessible_object plain_object) as [_ Hna].
  by eapply Hna.
Defined.

(** The label collected from a [NULL] string. *)
Lemma string_constructor_faults_on_NULL_witness :
  gtk_accessible_value_collect_for_property GTK_ACCESSIBLE_PROPERTY_LABEL
    [va_string None] init_state = Crash UndefinedBehaviour.
Proof.
  destruct (string_constructor_faults_on_NULL init_state) as (_ & Hargs & _).
  by eapply (Hargs GTK_ACCESSIBLE_PROPERTY_LABEL).
Defined.

(** The level collected from a [GValue] that holds a string: a critical,
    and then the integer constructor on 0. *)
Lemma mistyped_boxed_value_decodes_as_zero_witness :
  ∃ getter expr,
    gtk_accessible_value_collect_for_property_value GTK_ACCESSIBLE_PROPERTY_LEVEL
      (G_TYPE_STRING (Some "3"%string)) init_state =
    gtk_int_accessible_value_new 0 (add_log (EvCritical getter expr) init_state).
Proof.
  destruct (mistyped_boxed_value_decodes_as_zero init_state (G_TYPE_STRING (Some "3"%string)))
    as [Hp _].
  destruct (Hp GTK_ACCESSIBLE_PROPERTY_LEVEL _ eq_refl eq_refl ltac:(done))
    as (getter & expr & H).
  by exists getter, expr.
Defined.

(** The default of the level is the integer constructor on 0. *)
Lemma defaults_follow_the_tables_witness :
  gtk_accessible_value_get_default_for_property GTK_ACCESSIBLE_PROPERTY_LEVEL init_state =
  gtk_int_accessible_value_new 0 init_state.
Proof.
  destruct (defaults_follow_the_tables init_state) as (_ & _ & Hp).
  edestruct (Hp GTK_ACCESSIBLE_PROPERTY_LEVEL) as (_ & _ & Hdyn & _); [reflexivity|].
  apply Hdyn; [by left|done].
Defined.

(** Two defaults of the level. *)
Lemma dynamic_defaults_are_fresh_and_equal_witness :
  ∃ a s1 b s2,
    gtk_accessible_value_get_default_for_property GTK_ACCESSIBLE_PROPERTY_LEVEL init_state =
      Done (Some a) s1 ∧
    gtk_accessible_value_get_default_for_property GTK_ACCESSIBLE_PROPERTY_LEVEL s1 =
      Done (Some b) s2 ∧
    a ≠ b ∧ gtk_accessible_value_equal (Some a) (Some b) s2 = Done true s2.
Proof.
  edestruct (dynamic_defaults_are_fresh_and_equal init_state GTK_ACCESSIBLE_PROPERTY_LEVEL)
    as (a & s1 & b & s2 & va & vb & H1 & H2 & Hne & _ & _ & _ & _ & _ & _ & Heq);
    [reflexivity|by left|done|].
  by exists a, s1, b, s2.
Defined.

(** The level decoded from the argument list reads back. *)
Lemma decoded_values_read_back_witness :
  ∃ l s',
    gtk_accessible_value_collect_for_property GTK_ACCESSIBLE_PROPERTY_LEVEL
      [va_int 3; va_int 4] init_state = Done (Some l, [va_int 4]) s' ∧
    heap init_state !! l = None ∧
    heap s' = <[l := new_value addr_GTK_INT_ACCESSIBLE_VALUE (GtkIntAccessibleValue 3)]>
                (heap init_state) ∧
    gtk_int_accessible_value_get (Some l) s' = Done 3 s'.
Proof.
  destruct (decoded_values_read_back init_state GTK_ACCESSIBLE_PROPERTY_LEVEL level_row
              [va_int 4] eq_refl) as (Hint & _).
  destruct (Hint eq_refl 3) as [Hargs _]. exact Hargs.
Defined.

(** A state decoded from an argument leaves the state of the program. *)
Lemma state_functions_never_allocate_witness :
  only_logs init_state init_state.
Proof.
  destruct state_functions_never_allocate as (_ & Hargs & _).
  by apply (Hargs GTK_ACCESSIBLE_STATE_BUSY [va_int 1] init_state (None, []) init_state).
Defined.

(** The string accessor on an integer instance only logs. *)
Lemma readers_keep_heap_and_objects_witness :
  only_logs one_int
    (add_log (EvCritical "gtk_string_accessible_value_get"
                "value->value_class == &GTK_STRING_ACCESSIBLE_VALUE") one_int).
Proof.
  destruct readers_keep_heap_and_objects as (_ & _ & _ & _ & _ & Hs & _).
  by apply (Hs (Some 1%positive) one_int None).
Defined.

(** The two integers of [two_ints] are unequal in either order. *)
Lemma equal_is_symmetric_witness :
  gtk_accessible_value_equal (Some 1%positive) (Some 2%positive) two_ints =
    Done false two_ints ∧
  gtk_accessible_value_equal (Some 2%positive) (Some 1%positive) two_ints =
    Done false two_ints.
Proof.
  destruct (equal_is_symmetric two_ints 1%positive 2%positive (int_instance 5) (int_instance 7)
              reachable_two_ints eq_refl eq_refl eq_refl) as (r & H1 & H2 & Hr).
  rewrite (Hr ltac:(done)) in H1, H2. split; [exact H1|exact H2].
Defined.

(** The object of [linked_state] is destroyed. *)
Lemma object_destruction_is_safe_witness :
  ∃ s', g_object_destroy 1%positive linked_state = Done tt s' ∧
        objects s' = ∅ ∧ log s' = [] ∧
        heap s' !! 1%positive = Some (cleared linked_reference).
Proof.
  destruct (object_destruction_is_safe linked_state 1%positive linked_object
              reachable_linked_state eq_refl) as (s' & Hd & Ho & Hl & _ & Hh).
  exists s'. split; [exact Hd|]. split; [by rewrite Ho|]. split; [exact Hl|].
  by apply (Hh 1%positive linked_reference).
Defined.

(** A second reference for the object of [linked_state], released at
    once. *)
Lemma construct_then_release_leaves_no_trace_witness :
  ∃ l, construct_and_release (gtk_reference_accessible_value_new (Some 1%positive))
         linked_state =
       Done tt (logged [EvFinalize l; EvFree l] linked_state).
Proof.
  destruct (construct_then_release_leaves_no_trace linked_state reachable_linked_state)
    as (_ & _ & _ & Href).
  destruct (Href 1%positive linked_object eq_refl eq_refl) as (l & _ & Hl).
  by exists l.
Defined.

(** [linked_state] is reached by two calls. *)
Lemma reachable_in_linked_state : reachable_in 2 linked_state.
Proof.
  eapply (reachable_in_step 1 (call_reference_new (Some 1%positive)));
    [eapply (reachable_in_step 0 (call_object_new "GtkButton" true));
       [apply reachable_in_init|]|].
  - vm_compute. reflexivity.
  - vm_compute. reflexivity.
Qed.

(** The reference of [linked_state], reached by two calls, has one
    reference. *)
Lemma live_instances_have_positive_count_witness :
  heap linked_state !! 1%positive = Some linked_reference ∧
  1 ≤ ref_count linked_reference ≤ 3.
Proof.
  split; [reflexivity|].
  apply (live_instances_have_positive_count 2 linked_state 1%positive linked_reference
           reachable_in_linked_state); [unfold INT_MAX; lia|reflexivity].
Defined.

(** The release of the reference of [linked_state] frees it. *)
Lemma unref_frees_exactly_the_last_reference_witness :
  ∃ s', gtk_accessible_value_unref (Some 1%positive) linked_state = Done tt s' ∧
        heap s' !! 1%positive = None.
Proof.
  destruct (unref_frees_exactly_the_last_reference linked_state 1%positive linked_reference
              reachable_linked_state eq_refl (Z.le_refl 1)) as (s' & Hun & _ & Hlast & _).
  exists s'. split; [exact Hun|]. by apply Hlast.
Defined.

(** The first integer of [two_ints] outlives the release of the second. *)
Lemma only_its_release_frees_an_instance_witness :
  ∃ s', exec (call_unref (Some 2%positive)) two_ints = Done tt s' ∧
        is_Some (heap s' !! 1%positive).
Proof.
  assert (exec (call_unref (Some 2%positive)) two_ints =
          Done tt {| heap := {[ 1%positive := int_instance 5 ]}; objects := ∅;
                     log := [EvFree 2%positive] |}) as Hc by (by vm_compute).
  eexists. split; [exact Hc|].
  destruct (only_its_release_frees_an_instance _ _ _ 1%positive (int_instance 5) Hc)
    as (v' & Hv' & _); [reflexivity|discriminate|].
  by exists v'.
Defined.

(** The accessor of the reference of [linked_state]. *)
Lemma typed_accessors_succeed_on_their_class_witness :
  gtk_reference_accessible_value_get (Some 1%positive) linked_state =
  Done (Some 1%positive) linked_state.
Proof.
  pose proof (typed_accessors_succeed_on_their_class linked_state 1%positive linked_reference
                reachable_linked_state eq_refl) as (r & Hf & Hget).
  simpl in Hf. injection Hf as <-. exact Hget.
Defined.
